(** * svelte-grid-extended: the collision resolver of [GridItem.svelte]

    A shallow embedding of the move / resize logic of
    [src/lib/GridItem.svelte] and of the properties its specification
    states about it.

    Conventions of the embedding.
    - Grid units and pixel quantities are integers ([Z]).
    - [$gridParams.items] is an object whose values are shared, mutable
      item objects.  [Object.values($gridParams.items)] is modelled as a
      [store]: the list of the current values of those objects, in
      insertion order.  A reference to one of the objects is its position
      in the store ([ref]); an array of item objects is a [list ref];
      [o.y = v] on a store object is a list update at its position.
    - [invalidate], [dispatch] and [updateGrid] only notify the
      surrounding UI; they do not change item coordinates and are not
      modelled. *)

From Stdlib Require Import ZArith Lia Bool List String.
From stdpp Require Import base list.
Import ListNotations.
Open Scope Z_scope.

(** ** Data model ([./types]) *)

Module Size.
Record t := mk { w : Z; h : Z }.
End Size.

Module ItemSize.
Record t := mk { width : Z; height : Z }.
End ItemSize.

(** [LayoutItem]: the object registered in [$gridParams.items]
    (the [invalidate] callback is not part of the model). *)
Module Item.
Record t := mk {
  id : string;
  x : Z;
  y : Z;
  w : Z;
  h : Z;
  min : Size.t;
  max : option Size.t;
  movable : bool;
  resizable : bool
}.

(** [{ ...it, x: nx, y: ny }] *)
Definition withXY (it : t) (nx ny : Z) : t :=
  mk (id it) nx ny (w it) (h it) (min it) (max it) (movable it) (resizable it).

(** [{ ...it, y: ny }] *)
Definition withY (it : t) (ny : Z) : t := withXY it (x it) ny.

(** [{ ...it, w: nw, h: nh }] *)
Definition withWH (it : t) (nw nh : Z) : t :=
  mk (id it) (x it) (y it) nw nh (min it) (max it) (movable it) (resizable it).
End Item.

Abbreviation LayoutItem := Item.t.

#[global] Instance LayoutItem_inhabited : Inhabited LayoutItem :=
  populate (Item.mk EmptyString 0 0 1 1 (Size.mk 1 1) None true true).

(** The optional attributes passed to
    [handleCollisionsForPreviewItemWithPush]. *)
Module Attrs.
Record t := mk { x : option Z; y : option Z; w : option Z; h : option Z }.
End Attrs.

(** [{ ...previewItem, ...newAttributes }] *)
Definition assignAttrs (p : LayoutItem) (a : Attrs.t) : LayoutItem :=
  Item.mk (Item.id p)
    (default (Item.x p) (Attrs.x a)) (default (Item.y p) (Attrs.y a))
    (default (Item.w p) (Attrs.w a)) (default (Item.h p) (Attrs.h a))
    (Item.min p) (Item.max p) (Item.movable p) (Item.resizable p).

(** ** The shared store *)

Abbreviation ref := nat.
Abbreviation store := (list LayoutItem).

(** The current value of the object behind a reference. *)
Definition deref (st : store) (r : ref) : LayoutItem := st !!! r.

(** The current values of an array of item objects. *)
Definition derefs (st : store) (rs : list ref) : list LayoutItem :=
  map (deref st) rs.

(** [Object.values($gridParams.items)] as an array of references. *)
Definition allRefs (st : store) : list ref := seq 0 (length st).

(** [arr.filter((item) => item.id != i)] on an array of references. *)
Definition exceptId (st : store) (i : string) (rs : list ref) : list ref :=
  List.filter (fun r => negb (String.eqb (Item.id (deref st r)) i)) rs.

(** ** Collision detector and free-slot search ([./utils/grid]) *)

(** Modelled from the spec: [./utils/grid] is not among the sources;
    section 4.2 gives the overlap test on half-open rectangles. *)
Definition overlaps (a b : LayoutItem) : bool :=
  (Item.x a <? Item.x b + Item.w b) && (Item.x b <? Item.x a + Item.w a)
  && (Item.y a <? Item.y b + Item.h b) && (Item.y b <? Item.y a + Item.h a).

(** Modelled from the spec: an item collides with the candidate when its
    id differs and the rectangles overlap (section 4.2). *)
Definition collides (candidate it : LayoutItem) : bool :=
  negb (String.eqb (Item.id it) (Item.id candidate)) && overlaps candidate it.

(** Modelled from the spec: [hasCollisions] of [./utils/grid]
    (section 4.2). *)
Definition hasCollisions (candidate : LayoutItem) (items : list LayoutItem) : bool :=
  existsb (collides candidate) items.

(** Modelled from the spec: [getCollisions] of [./utils/grid]
    (section 4.2): the colliding items in the order of [items]. *)
Definition getCollisions (candidate : LayoutItem) (items : list LayoutItem)
  : list LayoutItem :=
  List.filter (collides candidate) items.

(** [getCollisions] returns the very objects of its argument array: on an
    array of references it returns the references of the colliders. *)
Definition getCollisionRefs (st : store) (candidate : LayoutItem)
    (rs : list ref) : list ref :=
  List.filter (fun r => collides candidate (deref st r)) rs.

(** [0, 1, ..., n] (empty when [n < 0]). *)
Definition upTo (n : Z) : list Z := map Z.of_nat (seq 0 (Z.to_nat (n + 1))).

(** The extent of the occupied area along one axis. *)
Definition extent (edge : LayoutItem -> Z) (items : list LayoutItem) : Z :=
  fold_right (fun it m => Z.max (edge it) m) 0 items.

(** Modelled from the spec: [getAvailablePosition] of [./utils/grid] is not
    among the sources.  Section 4.3: rows are scanned in increasing order
    and, within a row, columns in increasing order, for the first cell at
    which the item (same [w], [h]) collides with nothing in [items] and
    stays within [maxCols] / [maxRows] when these are set; none when no
    such cell exists.  Along an unbounded axis the scan stops at the
    extent of the occupied area, where a cell free of collisions is always
    found. *)
Definition getAvailablePosition (item : LayoutItem) (items : list LayoutItem)
    (maxCols maxRows : option Z) : option (Z * Z) :=
  let lastCol :=
    match maxCols with
    | Some c => c - Item.w item
    | None => extent (fun it => Item.x it + Item.w it) items
    end in
  let lastRow :=
    match maxRows with
    | Some r => r - Item.h item
    | None => extent (fun it => Item.y it + Item.h it) items
    end in
  List.find
    (fun p => negb (hasCollisions (Item.withXY item (fst p) (snd p)) items))
    (flat_map (fun py => map (fun px => (px, py)) (upTo lastCol)) (upTo lastRow)).

(** ** Grid context and component state *)

(** [$gridParams.collision] *)
Inductive Collision := CollisionNone | CollisionPush | CollisionCompress.

(** The rectangle returned by [getBoundingClientRect()]. *)
Module DOMRect.
Record t := mk { left : Z; top : Z; right : Z; bottom : Z }.
End DOMRect.

(** The part of the grid context the component reads; [items] is the
    shared store. *)
Module GridParams.
Record t := mk {
  items : store;
  itemSize : option ItemSize.t;
  gap : Z;
  maxCols : option Z;
  maxRows : option Z;
  collision : Collision;
  bounds : bool;
  boundsTo : option DOMRect.t;
  readOnly : bool
}.

Definition withItems (g : t) (st : store) : t :=
  mk st (itemSize g) (gap g) (maxCols g) (maxRows g) (collision g)
     (bounds g) (boundsTo g) (readOnly g).
End GridParams.

(** ** Push mode *)

(** [applyPreview]: the preview's [x], [y], [w], [h] are written into the
    component's own item object. *)
Definition applyPreview (st : store) (item : ref) (previewItem : LayoutItem)
  : store :=
  <[item := Item.withWH
              (Item.withXY (deref st item) (Item.x previewItem) (Item.y previewItem))
              (Item.w previewItem) (Item.h previewItem)]> st.

Section Push.
Variables maxCols maxRows : option Z.

Definition updateCollItemPositionWithPush (st : store) (collItem : ref)
    (items : list LayoutItem) : store :=
  match getAvailablePosition (deref st collItem) items maxCols maxRows with
  | Some (nx, ny) =>
      <[collItem := Item.withXY (deref st collItem) nx ny]> st
  | None => st
  end.

Variable previewItem : LayoutItem.
Variable newAttributes : Attrs.t.

(** The array [items] built in the body of [collItems.forEach]. *)
Definition pushItems (st : store) (collItem : ref) : list LayoutItem :=
  let gridItems := allRefs st in
  let itemsExceptCollItem :=
    exceptId st (Item.id (deref st collItem)) gridItems in
  derefs st (exceptId st (Item.id previewItem) itemsExceptCollItem)
  ++ [assignAttrs previewItem newAttributes].

(** One iteration of [collItems.forEach]. *)
Definition pushCollItem (st : store) (collItem : ref) : store :=
  updateCollItemPositionWithPush st collItem (pushItems st collItem).

(** The colliders of the candidate, as computed before the loop. *)
Definition pushCollItems (st : store) : list ref :=
  let gridItems := allRefs st in
  let itemsExceptPreview := exceptId st (Item.id previewItem) gridItems in
  getCollisionRefs st (assignAttrs previewItem newAttributes) itemsExceptPreview.

(** [handleCollisionsForPreviewItemWithPush]: the new store and the new
    [previewItem]. *)
Definition handleCollisionsForPreviewItemWithPush (st : store) (item : ref)
  : store * LayoutItem :=
  let collItems := pushCollItems st in
  let st1 := foldl pushCollItem st collItems in
  let previewItem' := assignAttrs previewItem newAttributes in
  (applyPreview st1 item previewItem', previewItem').
End Push.

(** [movePreviewWithCollisionsWithPush] *)
Definition movePreviewWithCollisionsWithPush (maxCols maxRows : option Z)
    (previewItem : LayoutItem) (st : store) (item : ref) (nx ny : Z)
  : store * LayoutItem :=
  handleCollisionsForPreviewItemWithPush maxCols maxRows previewItem
    (Attrs.mk (Some nx) (Some ny) None None) st item.

(** [resizePreviewWithCollisionsWithPush], after [snapOnMove] has produced
    [nx], [ny]. *)
Definition resizePushAt (maxCols maxRows : option Z)
    (previewItem : LayoutItem) (st : store) (item : ref) (nx ny nw nh : Z)
  : store * LayoutItem :=
  handleCollisionsForPreviewItemWithPush maxCols maxRows previewItem
    (Attrs.mk (Some nx) (Some ny) (Some nw) (Some nh)) st item.

(** ** Compress mode *)

(** [arr.sort(cmp)] is stable: [before b a] stands for [cmp(b, a) < 0].
    Elements are inserted from the last to the first, each in front of the
    first element that does not come strictly before it. *)
Fixpoint insertBy {A} (before : A -> A -> bool) (a : A) (l : list A) : list A :=
  match l with
  | [] => [a]
  | b :: l' => if before b a then b :: insertBy before a l' else a :: l
  end.

Definition sortBy {A} (before : A -> A -> bool) (l : list A) : list A :=
  fold_right (insertBy before) [] l.

(** [refs.sort((a, b) => a.y - b.y)] *)
Definition sortAscY (st : store) (rs : list ref) : list ref :=
  sortBy (fun b a => Item.y (deref st b) <? Item.y (deref st a)) rs.

(** [refs.sort((a, b) => b.y - a.y)] *)
Definition sortDescY (st : store) (rs : list ref) : list ref :=
  sortBy (fun b a => Item.y (deref st a) <? Item.y (deref st b)) rs.

(** The loop
    [while (newY >= 0) { if (hasCollisions({...cur, y: newY}, acc)) break; newY--; }]
    entered with [newY = k - 1]: the value of [newY] when it is left. *)
Fixpoint slideRows (cur : LayoutItem) (acc : list LayoutItem) (k : nat) : Z :=
  match k with
  | O => -1
  | S k' =>
      if hasCollisions (Item.withY cur (Z.of_nat k')) acc then Z.of_nat k'
      else slideRows cur acc k'
  end.

(** The same loop entered with [newY = start]. *)
Definition slide (cur : LayoutItem) (acc : list LayoutItem) (start : Z) : Z :=
  if start <? 0 then start else slideRows cur acc (Z.to_nat (start + 1)).

(** An element of [accItem]: the preview object or an object of the
    store. *)
Definition derefAcc (st : store) (previewItem : LayoutItem)
    (acc : list (option ref)) : list LayoutItem :=
  map (fun a => match a with
                | None => previewItem
                | Some r => deref st r
                end) acc.

Section Compress.
Variable previewItem : LayoutItem.

(** The reducer of [sortedItems.reduce] in [compressItems]. *)
Definition compressStep (s : store * list (option ref)) (r : ref)
  : store * list (option ref) :=
  let '(st, accItem) := s in
  let currentItem := deref st r in
  if String.eqb (Item.id currentItem) (Item.id previewItem) then
    (st, accItem)
  else if Item.y previewItem <? Item.y currentItem + Item.h currentItem then
    let maxY :=
      if Item.y previewItem <=? Item.y currentItem
      then Item.y currentItem + Item.h previewItem + 1
      else Item.y previewItem + Item.h currentItem + 1 in
    let newY := slide currentItem (derefAcc st previewItem accItem) maxY in
    (<[r := Item.withY currentItem (newY + 1)]> st, accItem ++ [Some r])
  else
    let newY :=
      slide currentItem (derefAcc st previewItem accItem) (Item.y currentItem) in
    if (newY <? Item.y currentItem) && (0 <? newY) then
      (<[r := Item.withY currentItem (newY + 1)]> st, accItem ++ [Some r])
    else
      (st, accItem ++ [Some r]).

(** [compressItems] *)
Definition compressItems (st : store) : store :=
  let gridItems := allRefs st in
  let sortedItems := sortAscY st gridItems in
  fst (foldl compressStep (st, [None]) sortedItems).
End Compress.

(** The test [y + previewItem.h / 2 >= sortItem.y + sortItem.h / 2].  On
    integer grid units the halves are exact, and the test is the same
    with both sides doubled. *)
Definition belowCenter (previewItem : LayoutItem) (ny : Z) (sortItem : LayoutItem)
  : bool :=
  2 * Item.y sortItem + Item.h sortItem <=? 2 * ny + Item.h previewItem.

Section CompressMove.
Variable previewItem : LayoutItem.

(** The inner [sortedItems.forEach]: colliders that can move up by the
    preview's height without colliding (the preview's own item apart)
    and without leaving the grid are moved up. *)
Definition shiftUp (itemsExceptPreview : list ref) (st : store) (r : ref)
  : store :=
  let item := deref st r in
  if negb (hasCollisions (Item.withY item (Item.y item - Item.h previewItem))
             (derefs st itemsExceptPreview))
     && (0 <=? Item.y item - Item.h previewItem)
  then <[r := Item.withY item (Item.y item - Item.h previewItem)]> st
  else st.

(** The outer [sortedItems.forEach]; its state is the store, [moved] and
    [newY].  ([return false] does not leave a [forEach].) *)
Definition settleOn (itemsExceptPreview sortedItems : list ref) (ny : Z)
    (s : store * bool * Z) (r : ref) : store * bool * Z :=
  let '(st, moved, newY) := s in
  let sortItem := deref st r in
  if belowCenter previewItem ny sortItem then
    (foldl (shiftUp itemsExceptPreview) st sortedItems,
     true,
     Item.y sortItem + Item.h sortItem)
  else s.

(** The [while (newY >= 0)] loop of
    [movePreviewWithCollisionsWithCompress], entered with [newY = k - 1]:
    the store and [newY] when the loop is left. *)
Fixpoint probeRows (st : store) (nx ny : Z) (k : nat) : store * Z :=
  match k with
  | O => (st, -1)
  | S k' =>
      let newY := Z.of_nat k' in
      let gridItems := allRefs st in
      let itemsExceptPreview := exceptId st (Item.id previewItem) gridItems in
      let collItems :=
        getCollisionRefs st (Item.withXY previewItem nx newY) gridItems in
      match collItems with
      | [] => probeRows st nx ny k'
      | _ :: _ =>
          let sortedItems := sortDescY st collItems in
          let '(st', moved, newY') :=
            foldl (settleOn itemsExceptPreview sortedItems ny)
                  (st, false, newY) sortedItems in
          (st', if moved then newY' else Item.y previewItem)
      end
  end.

(** The loop entered with [newY = ny]. *)
Definition probe (st : store) (nx ny : Z) : store * Z :=
  if ny <? 0 then (st, ny) else probeRows st nx ny (Z.to_nat (ny + 1)).

(** [movePreviewWithCollisionsWithCompress]: the new store and the new
    [previewItem]. *)
Definition movePreviewWithCollisionsWithCompress (st : store) (item : ref)
    (nx ny : Z) : store * LayoutItem :=
  let '(st1, newY) := probe st nx ny in
  let newY := if (newY <? 0) || (ny =? 0) then 0 else newY in
  let positionChanged :=
    negb (nx =? Item.x previewItem) || negb (newY =? Item.y previewItem) in
  let previewItem' := Item.withXY previewItem nx newY in
  if positionChanged then
    (applyPreview (compressItems previewItem' st1) item previewItem', previewItem')
  else (st1, previewItem').

(** [resizePreviewWithCollisionsWithCompress], after [snapOnMove] has
    produced [nx], [ny]. *)
Definition resizeCompressAt (st : store) (item : ref) (nx ny nw nh : Z)
  : store * LayoutItem :=
  let positionOrSizeChanged :=
    negb (nw =? Item.w previewItem) || negb (nh =? Item.h previewItem)
    || negb (nx =? Item.x previewItem) || negb (ny =? Item.y previewItem) in
  if positionOrSizeChanged then
    let hGap := nh - Item.h previewItem in
    let previewItem' := Item.withWH (Item.withXY previewItem nx ny) nw nh in
    let st1 := applyPreview st item previewItem' in
    let collItems :=
      getCollisionRefs st1 (Item.withWH previewItem' nw 9999) (allRefs st1) in
    let st2 :=
      foldl (fun s r => <[r := Item.withY (deref s r) (Item.y (deref s r) + hGap)]> s)
            st1 collItems in
    (compressItems previewItem' st2, previewItem')
  else (st, previewItem).
End CompressMove.

(** ** The component: pointer interaction *)

Module Point.
Record t := mk { left : Z; top : Z }.
End Point.

(** The fields of a [PointerEvent] the handlers read; [direction] is the
    custom property read by [resizeStart]. *)
Module PointerEvent.
Record t := mk { pageX : Z; pageY : Z; button : Z; direction : option string }.
End PointerEvent.

(** The component's own variables. [item] is the reference of its item
    object in the store.  The pixel quantities ([left], [top], [width],
    [height] and the pointer positions) are JavaScript numbers in the
    source; the model takes them as integers, on which the arithmetic of
    the handlers is exact. *)
Module Comp.
Record t := mk {
  item : ref;
  previewItem : LayoutItem;
  active : bool;
  left : Z;
  top : Z;
  width : Z;
  height : Z;
  initialPointerPosition : Point.t;
  initialPosition : Point.t;
  pointerShift : Point.t;
  initialSize : ItemSize.t;
  resizeDirection : string;
  originalGridRight : Z;
  originalGridBottom : Z;
  min : Size.t;
  max : option Size.t;
  minSize : option ItemSize.t;
  maxSize : option ItemSize.t
}.

Definition withPreviewItem (c : t) (p : LayoutItem) : t :=
  mk (item c) p (active c) (left c) (top c) (width c) (height c)
     (initialPointerPosition c) (initialPosition c) (pointerShift c)
     (initialSize c) (resizeDirection c) (originalGridRight c)
     (originalGridBottom c) (min c) (max c) (minSize c) (maxSize c).

Definition withRect (c : t) (l tp wd ht : Z) : t :=
  mk (item c) (previewItem c) (active c) l tp wd ht
     (initialPointerPosition c) (initialPosition c) (pointerShift c)
     (initialSize c) (resizeDirection c) (originalGridRight c)
     (originalGridBottom c) (min c) (max c) (minSize c) (maxSize c).

Definition withActive (c : t) (a : bool) (ipp : Point.t) : t :=
  mk (item c) (previewItem c) a (left c) (top c) (width c) (height c)
     ipp (initialPosition c) (pointerShift c)
     (initialSize c) (resizeDirection c) (originalGridRight c)
     (originalGridBottom c) (min c) (max c) (minSize c) (maxSize c).

Definition withMoveStart (c : t) (ip ps : Point.t) : t :=
  mk (item c) (previewItem c) (active c) (left c) (top c) (width c) (height c)
     (initialPointerPosition c) ip ps
     (initialSize c) (resizeDirection c) (originalGridRight c)
     (originalGridBottom c) (min c) (max c) (minSize c) (maxSize c).

Definition withResizeStart (c : t) (dir : string) (gr gb : Z) : t :=
  mk (item c) (previewItem c) (active c) (left c) (top c) (width c) (height c)
     (initialPointerPosition c) (initialPosition c) (pointerShift c)
     (initialSize c) dir gr gb (min c) (max c) (minSize c) (maxSize c).

Definition withInitial (c : t) (sz : ItemSize.t) (ip : Point.t) : t :=
  mk (item c) (previewItem c) (active c) (left c) (top c) (width c) (height c)
     (initialPointerPosition c) ip (pointerShift c)
     sz (resizeDirection c) (originalGridRight c)
     (originalGridBottom c) (min c) (max c) (minSize c) (maxSize c).
End Comp.

(** The state an event handler runs in: the grid context and the
    component's variables. *)
Definition State : Type := GridParams.t * Comp.t.

(** The outcome of a handler: the next state, or a thrown [Error] with its
    message. *)
Inductive Outcome :=
| Done (s : State)
| Thrown (message : string).

(** [s.includes(sub)] *)
Definition includes (s sub : string) : bool :=
  match String.index 0 sub s with
  | Some _ => true
  | None => false
  end.

(** The store part of a resolver's result goes back into the grid context,
    the preview into the component. *)
Definition commit (g : GridParams.t) (c : Comp.t) (r : store * LayoutItem)
  : State :=
  (GridParams.withItems g (fst r), Comp.withPreviewItem c (snd r)).

Section Handlers.
(** [snapOnMove] and [snapOnResize] of [./utils/item] are not among the
    sources: the handlers are defined for any pair of such functions. *)
Variable snapOnMove : Z -> Z -> LayoutItem -> GridParams.t -> Z * Z.
Variable snapOnResize : Z -> Z -> LayoutItem -> GridParams.t -> Z * Z.

(** [initInteraction] *)
Definition initInteraction (c : Comp.t) (event : PointerEvent.t) : Comp.t :=
  Comp.withActive c true
    (Point.mk (PointerEvent.pageX event) (PointerEvent.pageY event)).

(** [endInteraction] *)
Definition endInteraction (s : State) : State :=
  let '(g, c) := s in
  (GridParams.withItems g
     (applyPreview (GridParams.items g) (Comp.item c) (Comp.previewItem c)),
   Comp.withActive c false (Point.mk 0 0)).

(** [moveStart] *)
Definition moveStart (s : State) (event : PointerEvent.t) : State :=
  let '(g, c) := s in
  if negb (PointerEvent.button event =? 0) then s
  else
    let c := initInteraction c event in
    (g, Comp.withMoveStart c
          (Point.mk (Comp.left c) (Comp.top c))
          (Point.mk (PointerEvent.pageX event - Comp.left c)
                    (PointerEvent.pageY event - Comp.top c))).

(** [movePreviewWithCollisions] *)
Definition movePreviewWithCollisions (g : GridParams.t) (c : Comp.t)
    (nx ny : Z) : State :=
  match GridParams.collision g with
  | CollisionCompress =>
      commit g c
        (movePreviewWithCollisionsWithCompress (Comp.previewItem c)
           (GridParams.items g) (Comp.item c) nx ny)
  | _ =>
      commit g c
        (movePreviewWithCollisionsWithPush (GridParams.maxCols g)
           (GridParams.maxRows g) (Comp.previewItem c)
           (GridParams.items g) (Comp.item c) nx ny)
  end.

(** The clamp of [move] against [boundsTo.getBoundingClientRect()]. *)
Definition clampMove (g : GridParams.t) (c : Comp.t) (l t : Z) : Z * Z :=
  match GridParams.bounds g, GridParams.boundsTo g with
  | true, Some parentRect =>
      let l := if l <? DOMRect.left parentRect then DOMRect.left parentRect else l in
      let t := if t <? DOMRect.top parentRect then DOMRect.top parentRect else t in
      let l := if DOMRect.right parentRect <? l + Comp.width c
               then DOMRect.right parentRect - Comp.width c else l in
      let t := if DOMRect.bottom parentRect <? t + Comp.height c
               then DOMRect.bottom parentRect - Comp.height c else t in
      (l, t)
  | _, _ => (l, t)
  end.

(** The pixel position of a move sample: the part of [move] up to
    [left = _left; top = _top]. *)
Definition movePoint (g : GridParams.t) (c : Comp.t) (event : PointerEvent.t)
  : Z * Z :=
  let _left := PointerEvent.pageX event
               - Point.left (Comp.initialPointerPosition c)
               + Point.left (Comp.initialPosition c) in
  let _top := PointerEvent.pageY event
              - Point.top (Comp.initialPointerPosition c)
              + Point.top (Comp.initialPosition c) in
  clampMove g c _left _top.

(** [move] *)
Definition move (s : State) (event : PointerEvent.t) : Outcome :=
  let '(g, c) := s in
  match GridParams.itemSize g with
  | None => Thrown "Grid is not mounted yet"
  | Some _ =>
      let '(_left, _top) := movePoint g c event in
      let c := Comp.withRect c _left _top (Comp.width c) (Comp.height c) in
      let '(nx, ny) :=
        snapOnMove (Comp.left c) (Comp.top c) (Comp.previewItem c) g in
      match GridParams.collision g with
      | CollisionNone =>
          if negb (hasCollisions (Item.withXY (Comp.previewItem c) nx ny)
                     (derefs (GridParams.items g) (allRefs (GridParams.items g))))
          then Done (g, Comp.withPreviewItem c
                          (Item.withXY (Comp.previewItem c) nx ny))
          else Done (g, c)
      | _ => Done (movePreviewWithCollisions g c nx ny)
      end
  end.

(** [moveEnd] *)
Definition moveEnd (s : State) (event : PointerEvent.t) : State :=
  if negb (PointerEvent.button event =? 0) then s
  else
    let '(g, c) := endInteraction s in
    (g, Comp.withMoveStart c (Comp.initialPosition c) (Point.mk 0 0)).
End Handlers.

Section ResizeHandlers.
Variable snapOnMove : Z -> Z -> LayoutItem -> GridParams.t -> Z * Z.
Variable snapOnResize : Z -> Z -> LayoutItem -> GridParams.t -> Z * Z.

(** [resizeStart] *)
Definition resizeStart (s : State) (event : PointerEvent.t) : State :=
  let '(g, c) := s in
  if negb (PointerEvent.button event =? 0) then s
  else
    let dir :=
      match PointerEvent.direction event with
      | Some (String a d) => String a d
      | _ => Comp.resizeDirection c
      end in
    let item := deref (GridParams.items g) (Comp.item c) in
    let c := Comp.withResizeStart c dir
               (Item.x item + Item.w item) (Item.y item + Item.h item) in
    let c := initInteraction c event in
    (g, Comp.withInitial c
          (ItemSize.mk (Comp.width c) (Comp.height c))
          (Point.mk (Comp.left c) (Comp.top c))).

(** The pixel rectangle [(newLeft, newTop, newWidth, newHeight)] a
    resize sample asks for. *)
Definition Rect : Type := Z * Z * Z * Z.

(** The [switch (resizeDirection)] of [resize], on integer pixel
    quantities: sums and differences are exact here, while the source
    rounds them on fractional pixels. *)
Definition resizeByDirection (c : Comp.t) (deltaX deltaY : Z) : Rect :=
  let iw := ItemSize.width (Comp.initialSize c) in
  let ih := ItemSize.height (Comp.initialSize c) in
  let il := Point.left (Comp.initialPosition c) in
  let it := Point.top (Comp.initialPosition c) in
  let dir := Comp.resizeDirection c in
  if String.eqb dir "se" then (il, it, iw + deltaX, ih + deltaY)
  else if String.eqb dir "sw" then (il + deltaX, it, iw - deltaX, ih + deltaY)
  else if String.eqb dir "ne" then (il, it + deltaY, iw + deltaX, ih - deltaY)
  else if String.eqb dir "nw" then (il + deltaX, it + deltaY, iw - deltaX, ih - deltaY)
  else (il, it, iw + deltaX, ih + deltaY).

(** [['sw', 'nw'].includes(resizeDirection)] *)
Definition westHandle (c : Comp.t) : bool :=
  String.eqb (Comp.resizeDirection c) "sw" || String.eqb (Comp.resizeDirection c) "nw".

(** [['ne', 'nw'].includes(resizeDirection)] *)
Definition northHandle (c : Comp.t) : bool :=
  String.eqb (Comp.resizeDirection c) "ne" || String.eqb (Comp.resizeDirection c) "nw".

(** "Apply minimum size constraints" *)
Definition applyMinSize (c : Comp.t) (r : Rect) : Rect :=
  let '(newLeft, newTop, newWidth, newHeight) := r in
  let iw := ItemSize.width (Comp.initialSize c) in
  let ih := ItemSize.height (Comp.initialSize c) in
  let il := Point.left (Comp.initialPosition c) in
  let it := Point.top (Comp.initialPosition c) in
  match Comp.minSize c with
  | Some minSize =>
      let '(newLeft, newWidth) :=
        if newWidth <? ItemSize.width minSize then
          (if westHandle c then il + iw - ItemSize.width minSize else newLeft,
           ItemSize.width minSize)
        else (newLeft, newWidth) in
      let '(newTop, newHeight) :=
        if newHeight <? ItemSize.height minSize then
          (if northHandle c then it + ih - ItemSize.height minSize else newTop,
           ItemSize.height minSize)
        else (newTop, newHeight) in
      (newLeft, newTop, newWidth, newHeight)
  | None => r
  end.

(** "Apply maximum size constraints" *)
Definition applyMaxSize (c : Comp.t) (r : Rect) : Rect :=
  let '(newLeft, newTop, newWidth, newHeight) := r in
  let iw := ItemSize.width (Comp.initialSize c) in
  let ih := ItemSize.height (Comp.initialSize c) in
  let il := Point.left (Comp.initialPosition c) in
  let it := Point.top (Comp.initialPosition c) in
  match Comp.maxSize c with
  | Some maxSize =>
      let '(newLeft, newWidth) :=
        if ItemSize.width maxSize <? newWidth then
          (if westHandle c then il + iw - ItemSize.width maxSize else newLeft,
           ItemSize.width maxSize)
        else (newLeft, newWidth) in
      let '(newTop, newHeight) :=
        if ItemSize.height maxSize <? newHeight then
          (if northHandle c then it + ih - ItemSize.height maxSize else newTop,
           ItemSize.height maxSize)
        else (newTop, newHeight) in
      (newLeft, newTop, newWidth, newHeight)
  | None => r
  end.

(** "Apply bounds constraints" *)
Definition applyBounds (g : GridParams.t) (c : Comp.t) (r : Rect) : Rect :=
  let '(newLeft, newTop, newWidth, newHeight) := r in
  let iw := ItemSize.width (Comp.initialSize c) in
  let ih := ItemSize.height (Comp.initialSize c) in
  let il := Point.left (Comp.initialPosition c) in
  let it := Point.top (Comp.initialPosition c) in
  match GridParams.bounds g, GridParams.boundsTo g with
  | true, Some parentRect =>
      let '(newLeft, newWidth) :=
        if newLeft <? DOMRect.left parentRect
        then (DOMRect.left parentRect, il + iw - DOMRect.left parentRect)
        else (newLeft, newWidth) in
      let '(newTop, newHeight) :=
        if newTop <? DOMRect.top parentRect
        then (DOMRect.top parentRect, it + ih - DOMRect.top parentRect)
        else (newTop, newHeight) in
      let newWidth :=
        if DOMRect.right parentRect <? newLeft + newWidth
        then DOMRect.right parentRect - newLeft else newWidth in
      let newHeight :=
        if DOMRect.bottom parentRect <? newTop + newHeight
        then DOMRect.bottom parentRect - newTop else newHeight in
      (newLeft, newTop, newWidth, newHeight)
  | _, _ => r
  end.

(** [resizePreviewWithCollisions] *)
Definition resizePreviewWithCollisions (g : GridParams.t) (c : Comp.t)
    (nw nh : Z) : State :=
  let '(nx, ny) :=
    snapOnMove (Comp.left c) (Comp.top c) (Comp.previewItem c) g in
  match GridParams.collision g with
  | CollisionCompress =>
      commit g c
        (resizeCompressAt (Comp.previewItem c) (GridParams.items g)
           (Comp.item c) nx ny nw nh)
  | _ =>
      commit g c
        (resizePushAt (GridParams.maxCols g) (GridParams.maxRows g)
           (Comp.previewItem c) (GridParams.items g) (Comp.item c)
           nx ny nw nh)
  end.

(** The pixel rectangle of a resize sample: the part of [resize] up to
    "Update position and size". *)
Definition resizeRect (g : GridParams.t) (c : Comp.t) (event : PointerEvent.t)
  : Rect :=
  let deltaX := PointerEvent.pageX event
                - Point.left (Comp.initialPointerPosition c) in
  let deltaY := PointerEvent.pageY event
                - Point.top (Comp.initialPointerPosition c) in
  applyBounds g c
    (applyMaxSize c (applyMinSize c (resizeByDirection c deltaX deltaY))).

(** The "snap logic" of [resize]: the grid rectangle [(x, y, w, h)] the
    sample asks for, once [left], [top], [width], [height] are updated. *)
Definition resizeSnap (g : GridParams.t) (c : Comp.t) : Z * Z * Z * Z :=
  let dir := Comp.resizeDirection c in
  let '(snappedW, snappedH) :=
    snapOnResize (Comp.width c) (Comp.height c) (Comp.previewItem c) g in
  let '(nx, ny) :=
    if includes dir "w" || includes dir "n" then
      let tempItem := Item.withWH (Comp.previewItem c) snappedW snappedH in
      snapOnMove (Comp.left c) (Comp.top c) tempItem g
    else (Item.x (Comp.previewItem c), Item.y (Comp.previewItem c)) in
  let nw := if includes dir "w"
            then Z.max 1 (Comp.originalGridRight c - nx) else snappedW in
  let nh := if includes dir "n"
            then Z.max 1 (Comp.originalGridBottom c - ny) else snappedH in
  let nw := Z.max nw (Size.w (Comp.min c)) in
  let nh := Z.max nh (Size.h (Comp.min c)) in
  let '(nw, nh) :=
    match Comp.max c with
    | Some max => (Z.min nw (Size.w max), Z.min nh (Size.h max))
    | None => (nw, nh)
    end in
  (nx, ny, nw, nh).

(** [resize] *)
Definition resize (s : State) (event : PointerEvent.t) : Outcome :=
  let '(g, c) := s in
  match GridParams.itemSize g with
  | None => Thrown "Grid is not mounted yet"
  | Some _ =>
      let '(newLeft, newTop, newWidth, newHeight) := resizeRect g c event in
      let c := Comp.withRect c newLeft newTop newWidth newHeight in
      let '(nx, ny, nw, nh) := resizeSnap g c in
      match GridParams.collision g with
      | CollisionNone =>
          let candidate :=
            Item.withWH (Item.withXY (Comp.previewItem c) nx ny) nw nh in
          if negb (hasCollisions candidate
                     (derefs (GridParams.items g) (allRefs (GridParams.items g))))
          then Done (g, Comp.withPreviewItem c candidate)
          else Done (g, c)
      | _ => Done (resizePreviewWithCollisions g c nw nh)
      end
  end.

(** [resizeEnd] *)
Definition resizeEnd (s : State) (event : PointerEvent.t) : State :=
  if negb (PointerEvent.button event =? 0) then s else endInteraction s.
End ResizeHandlers.

(** ** Snap resolver ([./utils/item]) *)

(** [Math.round(p / q)] for [q > 0]: the nearest integer, halves upwards. *)
Definition roundDiv (p q : Z) : Z := (2 * p + q) / (2 * q).

(** Modelled from the spec: [./utils/item] is not among the sources.
    Section 4.1: [round((pixels + gap) / (cellSize + gap))], not below the
    given minimum. *)
Definition pixelsToUnits (minimum pixels cellSize gap : Z) : Z :=
  Z.max minimum (roundDiv (pixels + gap) (cellSize + gap)).

(** Modelled from the spec: [snapOnMove] of [./utils/item] (section 4.4):
    the pixel corner goes to the nearest cell, with minimum 0 and no clamp
    to the grid bounds. *)
Definition snapOnMove (leftPx topPx : Z) (item : LayoutItem) (g : GridParams.t)
  : Z * Z :=
  match GridParams.itemSize g with
  | Some sz =>
      (pixelsToUnits 0 leftPx (ItemSize.width sz) (GridParams.gap g),
       pixelsToUnits 0 topPx (ItemSize.height sz) (GridParams.gap g))
  | None => (0, 0)
  end.

(** Modelled from the spec: [snapOnResize] of [./utils/item] (section 4.4):
    the pixel size goes to the nearest number of cells, with minimum 1. *)
Definition snapOnResize (widthPx heightPx : Z) (item : LayoutItem)
    (g : GridParams.t) : Z * Z :=
  match GridParams.itemSize g with
  | Some sz =>
      (pixelsToUnits 1 widthPx (ItemSize.width sz) (GridParams.gap g),
       pixelsToUnits 1 heightPx (ItemSize.height sz) (GridParams.gap g))
  | None => (1, 1)
  end.

(** * Vocabulary of the properties *)

(** ** Stores *)

(** No two distinct objects of the store overlap. *)
Definition overlapFree (st : store) : Prop :=
  forall i j, i <> j -> (i < length st)%nat -> (j < length st)%nat ->
    overlaps (deref st i) (deref st j) = false.

(** Distinct objects of the store have distinct ids. *)
Definition distinctIds (st : store) : Prop :=
  forall i j, i <> j -> (i < length st)%nat -> (j < length st)%nat ->
    Item.id (deref st i) <> Item.id (deref st j).

(** Every object of the store has [y >= 0]. *)
Definition rowsNonNegative (st : store) : Prop :=
  Forall (fun it => 0 <= Item.y it) st.

(** The objects of the store other than the component's own item. *)
Definition other (previewItem : LayoutItem) (st : store) (r : ref) : Prop :=
  (r < length st)%nat /\ Item.id (deref st r) <> Item.id previewItem.

(** The geometry a sample leaves in the component's own item. *)
Definition applied (st : store) (item : ref) (candidate : LayoutItem) : Prop :=
  Item.x (deref st item) = Item.x candidate
  /\ Item.y (deref st item) = Item.y candidate
  /\ Item.w (deref st item) = Item.w candidate
  /\ Item.h (deref st item) = Item.h candidate.

(** ** Rectangles *)

(** The column ranges of two items meet. *)
Definition xOverlap (a b : LayoutItem) : bool :=
  (Item.x a <? Item.x b + Item.w b) && (Item.x b <? Item.x a + Item.w a).

(** The first row below an item. *)
Definition bottom (v : LayoutItem) : Z := Item.y v + Item.h v.

(** Two values of the same object: only the row may differ. *)
Definition sameBox (a b : LayoutItem) : Prop :=
  Item.id a = Item.id b /\ Item.x a = Item.x b
  /\ Item.w a = Item.w b /\ Item.h a = Item.h b.

(** ** Push mode *)

(** The temporary item set in the words of the specification: all items
    except the colliding item and except the moving item itself, plus the
    candidate.  Items are told apart by their [id]. *)
Definition tempItemSet (items : list LayoutItem) (collId selfId : string)
    (candidate : LayoutItem) : list LayoutItem :=
  List.filter
    (fun it => negb (String.eqb (Item.id it) collId)
               && negb (String.eqb (Item.id it) selfId)) items
  ++ [candidate].

(** Every relocation search of the loop over the colliders finds a
    cell. *)
Fixpoint pushAllPlaced (maxCols maxRows : option Z) (previewItem : LayoutItem)
    (attrs : Attrs.t) (st : store) (collItems : list ref) : bool :=
  match collItems with
  | [] => true
  | c :: cs =>
      match getAvailablePosition (deref st c) (pushItems previewItem attrs st c)
              maxCols maxRows with
      | Some _ =>
          pushAllPlaced maxCols maxRows previewItem attrs
            (pushCollItem maxCols maxRows previewItem attrs st c) cs
      | None => false
      end
  end.

(** Where the free-slot search puts an item: the cell found, or the
    place the item has when there is none. *)
Definition relocated (maxCols maxRows : option Z) (cur : LayoutItem)
    (items : list LayoutItem) : LayoutItem :=
  match getAvailablePosition cur items maxCols maxRows with
  | Some (nx, ny) => Item.withXY cur nx ny
  | None => cur
  end.

(** One relocation in the words of the specification (section 4.5,
    steps 2 and 3): the free-slot search for the colliding item runs over
    the temporary item set taken from the current store, in which the
    colliders relocated before stand at their new positions; the item
    goes to the slot found and stays where it is when there is none. *)
Definition specRelocate (maxCols maxRows : option Z) (previewItem : LayoutItem)
    (attrs : Attrs.t) (st : store) (c : ref) : store :=
  <[c := relocated maxCols maxRows (deref st c)
           (tempItemSet st (Item.id (deref st c)) (Item.id previewItem)
              (assignAttrs previewItem attrs))]> st.

(** The push resolution in the words of the specification (section 4.5,
    steps 1 to 4): the colliders of the candidate among the items other
    than the moving one are relocated one after the other, in the order
    of the collision list; then the candidate is committed. *)
Definition specPushResolve (maxCols maxRows : option Z) (previewItem : LayoutItem)
    (attrs : Attrs.t) (st : store) (item : ref) : store * LayoutItem :=
  let candidate := assignAttrs previewItem attrs in
  let collItems :=
    getCollisionRefs st candidate (exceptId st (Item.id previewItem) (allRefs st)) in
  (applyPreview
     (foldl (specRelocate maxCols maxRows previewItem attrs) st collItems)
     item candidate,
   candidate).

(** A sample of an interaction: a move or resize event handled by a
    component whose item is in the store and carries the preview's id. *)
Inductive sample (snapM snapR : Z -> Z -> LayoutItem -> GridParams.t -> Z * Z)
  : GridParams.t -> GridParams.t -> Prop :=
| sample_move (g g' : GridParams.t) (c c' : Comp.t) (event : PointerEvent.t) :
    (Comp.item c < length (GridParams.items g))%nat ->
    Item.id (deref (GridParams.items g) (Comp.item c))
    = Item.id (Comp.previewItem c) ->
    move snapM (g, c) event = Done (g', c') ->
    sample snapM snapR g g'
| sample_resize (g g' : GridParams.t) (c c' : Comp.t) (event : PointerEvent.t) :
    (Comp.item c < length (GridParams.items g))%nat ->
    Item.id (deref (GridParams.items g) (Comp.item c))
    = Item.id (Comp.previewItem c) ->
    resize snapM snapR (g, c) event = Done (g', c') ->
    sample snapM snapR g g'.

(** A sequence of samples, by any components, on the shared grid
    context. *)
Inductive run (snapM snapR : Z -> Z -> LayoutItem -> GridParams.t -> Z * Z)
  : GridParams.t -> GridParams.t -> Prop :=
| run_nil (g : GridParams.t) : run snapM snapR g g
| run_step (g g1 g2 : GridParams.t) :
    run snapM snapR g g1 -> sample snapM snapR g1 g2 -> run snapM snapR g g2.

(** ** Compress mode *)

(** The colliders of the candidate placed at [(nx, row)]. *)
Definition collidersAt (previewItem : LayoutItem) (st : store) (nx row : Z)
  : list ref :=
  getCollisionRefs st (Item.withXY previewItem nx row) (allRefs st).

(** A list in ascending order of a key. *)
Fixpoint sortedByKey {A} (key : A -> Z) (l : list A) : Prop :=
  match l with
  | [] => True
  | a :: l' => (forall b, In b l' -> key a <= key b) /\ sortedByKey key l'
  end.

(** The value the reducer of [compressItems] gives to [currentItem]. *)
Definition place (previewItem : LayoutItem) (accv : list LayoutItem)
    (cur : LayoutItem) : LayoutItem :=
  if Item.y previewItem <? Item.y cur + Item.h cur then
    let maxY :=
      if Item.y previewItem <=? Item.y cur
      then Item.y cur + Item.h previewItem + 1
      else Item.y previewItem + Item.h cur + 1 in
    Item.withY cur (slide cur accv maxY + 1)
  else
    let newY := slide cur accv (Item.y cur) in
    if (newY <? Item.y cur) && (0 <? newY) then Item.withY cur (newY + 1) else cur.

(** The row at which the slide of [cur] starts. *)
Definition startRow (previewItem cur : LayoutItem) : Z :=
  if Item.y previewItem <? Item.y cur + Item.h cur then
    if Item.y previewItem <=? Item.y cur
    then Item.y cur + Item.h previewItem + 1
    else Item.y previewItem + Item.h cur + 1
  else Item.y cur.

(** How far down a pass may leave an item. *)
Definition bound (previewItem cur : LayoutItem) : Z :=
  if Item.y previewItem <=? Item.y cur
  then Item.y cur + Item.h previewItem + 1
  else Item.y cur.

(** [accItem] once the references [pre] are processed: the preview, then
    the processed objects other than the component's own item. *)
Definition accOf (previewItem : LayoutItem) (st : store) (pre : list ref)
  : list (option ref) :=
  None :: map Some
            (List.filter
               (fun r => negb (String.eqb (Item.id (deref st r)) (Item.id previewItem)))
               pre).

(** The candidate [c] collides with the preview or with one of the
    objects [pre] other than the component's own item. *)
Definition blockedIn (previewItem : LayoutItem) (st : store) (pre : list ref)
    (c : LayoutItem) : Prop :=
  collides c previewItem = true
  \/ exists u, In u pre
               /\ Item.id (deref st u) <> Item.id previewItem
               /\ collides c (deref st u) = true.

(** An item is supported when the slide loop cannot move it: it is at
    row 0, or the row above it is blocked, or it lies above the preview
    and no row from 1 up to it is blocked. *)
Definition supported (previewItem : LayoutItem) (st : store) (pre : list ref)
    (v : LayoutItem) : Prop :=
  Item.y v = 0
  \/ blockedIn previewItem st pre (Item.withY v (Item.y v - 1))
  \/ (bottom v <= Item.y previewItem
      /\ forall row, 1 <= row < Item.y v ->
           ~ blockedIn previewItem st pre (Item.withY v row)).

(** The stores on which a pass settles: ids are distinct, heights are at
    least 1 and rows at least 0, the objects other than the component's
    own do not overlap each other, and none of them both starts above the
    preview's top row without ending above it and overlaps the preview. *)
Definition compactable (previewItem : LayoutItem) (st : store) : Prop :=
  1 <= Item.h previewItem
  /\ distinctIds st
  /\ (forall r, other previewItem st r ->
        1 <= Item.h (deref st r) /\ 0 <= Item.y (deref st r))
  /\ (forall u v, other previewItem st u -> other previewItem st v -> u <> v ->
        overlaps (deref st u) (deref st v) = false)
  /\ (forall r, other previewItem st r ->
        Item.y (deref st r) < Item.y previewItem < bottom (deref st r) ->
        overlaps previewItem (deref st r) = false).

(** A settled store, as a compaction pass leaves it: the objects other
    than the component's own overlap neither each other nor the preview,
    and each of them is supported. *)
Definition settled (previewItem : LayoutItem) (st : store) : Prop :=
  distinctIds st
  /\ (forall r, (r < length st)%nat ->
        Item.id (deref st r) <> Item.id previewItem ->
        1 <= Item.h (deref st r) /\ 0 <= Item.y (deref st r))
  /\ (forall u v, (u < length st)%nat -> (v < length st)%nat -> u <> v ->
        Item.id (deref st u) <> Item.id previewItem ->
        Item.id (deref st v) <> Item.id previewItem ->
        overlaps (deref st u) (deref st v) = false)
  /\ (forall u, (u < length st)%nat ->
        Item.id (deref st u) <> Item.id previewItem ->
        overlaps previewItem (deref st u) = false)
  /\ (forall u, (u < length st)%nat ->
        Item.id (deref st u) <> Item.id previewItem ->
        supported previewItem st (allRefs st) (deref st u)).

(** The invariant of a compaction pass over [st] once the references
    [pre] are processed; [s] is the state of the reduction.  Processed
    objects have kept their box, have not come down further than their
    bound, lie below the processed objects that were above them, do not
    overlap the preview and are supported. *)
Record passInv (previewItem : LayoutItem) (st : store) (pre : list ref)
    (s : store * list (option ref)) : Prop := {
  inv_acc : snd s = accOf previewItem st pre;
  inv_len : length (fst s) = length st;
  inv_box : forall r, sameBox (deref (fst s) r) (deref st r);
  inv_rest : forall r, ~ In r pre -> deref (fst s) r = deref st r;
  inv_bound : forall u, In u pre ->
    Item.id (deref st u) <> Item.id previewItem ->
    0 <= Item.y (deref (fst s) u) <= bound previewItem (deref st u);
  inv_order : forall u w, In u pre -> In w pre ->
    Item.id (deref st u) <> Item.id previewItem ->
    Item.id (deref st w) <> Item.id previewItem ->
    xOverlap (deref st u) (deref st w) = true ->
    bottom (deref st u) <= Item.y (deref st w) ->
    bottom (deref (fst s) u) <= Item.y (deref (fst s) w);
  inv_clear : forall u, In u pre ->
    Item.id (deref st u) <> Item.id previewItem ->
    overlaps previewItem (deref (fst s) u) = false;
  inv_supp : forall u, In u pre ->
    Item.id (deref st u) <> Item.id previewItem ->
    supported previewItem (fst s) pre (deref (fst s) u)
}.

(** ** Concrete layouts and interactions *)

(** An item with the default [min], [max], [movable] and [resizable]. *)
Definition mkItem (i : string) (x y w h : Z) : LayoutItem :=
  Item.mk i x y w h (Size.mk 1 1) None true true.

(** A mounted grid with 100 x 100 pixel cells and a 10 pixel gap. *)
Definition mkGrid (st : store) (mode : Collision) (maxCols maxRows : option Z)
  : GridParams.t :=
  GridParams.mk st (Some (ItemSize.mk 100 100)) 10 maxCols maxRows mode
    false None false.

(** The component of an item at rest in such a grid, with the pixel
    rectangle [calcPosition] gives it. *)
Definition mkComp (item : ref) (p : LayoutItem) : Comp.t :=
  Comp.mk item p false
    (Item.x p * 110) (Item.y p * 110)
    (Item.w p * 100 + (Item.w p - 1) * 10) (Item.h p * 100 + (Item.h p - 1) * 10)
    (Point.mk 0 0) (Point.mk 0 0) (Point.mk 0 0) (ItemSize.mk 0 0)
    "se" 0 0 (Size.mk 1 1) None (Some (ItemSize.mk 100 100)) None.

(** A primary-button pointer event at page position [(px, py)]. *)
Definition pointerAt (px py : Z) : PointerEvent.t :=
  PointerEvent.mk px py 0 None.

(** A grid whose [itemSize] is not set yet. *)
Definition unmountedGrid : GridParams.t :=
  GridParams.mk [mkItem "a" 0 0 1 1] None 10 None None CollisionPush
    false None false.

(** Two unit items side by side. *)
Definition sideBySide : store := [mkItem "a" 0 0 1 1; mkItem "b" 1 0 1 1].

(** The drag of [a] on an unbounded grid has started with the pointer at
    (50, 50). *)
Definition draggingA (mode : Collision) : State :=
  moveStart (mkGrid sideBySide mode None None, mkComp 0 (mkItem "a" 0 0 1 1))
    (pointerAt 50 50).

(** A row of three cells: [a] in column 0, [b] in columns 1 and 2. *)
Definition fullRow : store := [mkItem "a" 0 0 1 1; mkItem "b" 1 0 2 1].

(** The drag of [a] in that row, on a 3 x 1 grid in push mode, has
    started with the pointer at (50, 50). *)
Definition draggingInFullRow : State :=
  moveStart (mkGrid fullRow CollisionPush (Some 3) (Some 1),
             mkComp 0 (mkItem "a" 0 0 1 1))
    (pointerAt 50 50).

(** Three unit items in a row. *)
Definition threeInRow : store :=
  [mkItem "a" 0 0 1 1; mkItem "b" 1 0 1 1; mkItem "c" 2 0 1 1].

(** The attributes of a resize of [a] over all three cells. *)
Definition widenA : Attrs.t := Attrs.mk (Some 0) (Some 0) (Some 3) (Some 1).

(** A layout in which a move-time resolution shifts three colliders. *)
Definition stairs : store :=
  [mkItem "a" 0 2 3 2; mkItem "b" 2 5 2 2; mkItem "c" 1 5 1 2; mkItem "d" 0 4 1 2].

(** A unit item [a] at row 5 of column 0, a tower [b] of height 10 in
    column 1. *)
Definition tower : store := [mkItem "a" 0 5 1 1; mkItem "b" 1 0 1 10].

(** A wide, tall item [a] below two small ones; [t] starts one row lower
    than [s]. *)
Definition leaning : store :=
  [mkItem "a" 0 10 3 7; mkItem "s" 0 0 1 2; mkItem "t" 1 1 1 2].

(** Item [a] of height 2 at the top, [b] three rows further down. *)
Definition gapped : store := [mkItem "a" 0 0 1 2; mkItem "b" 0 5 1 1].

(** A tall item [a] in column 0 and [b] two columns to its right, both
    from row 1 on. *)
Definition beside : store := [mkItem "a" 0 1 1 3; mkItem "b" 2 1 1 2].

(** The resize of [a] by its south-east handle, in compress mode, has
    started with the pointer at (100, 430). *)
Definition shrinkingA : State :=
  resizeStart (mkGrid beside CollisionCompress None None,
               mkComp 0 (mkItem "a" 0 1 1 3))
    (pointerAt 100 430).

(** A grid whose items are confined to the pixel rectangle (0, 0) -
    (330, 110). *)
Definition boundedGrid : GridParams.t :=
  GridParams.mk sideBySide (Some (ItemSize.mk 100 100)) 10 None None
    CollisionNone true (Some (DOMRect.mk 0 0 330 110)) false.

(** The resize of [b] by its north-west handle has started with the
    pointer at (120, 10). *)
Definition resizingNW : State :=
  resizeStart (mkGrid sideBySide CollisionNone None None,
               mkComp 1 (mkItem "b" 1 0 1 1))
    (PointerEvent.mk 120 10 0 (Some "nw"%string)).

(** ** Samples and what they change *)

(** The size of [p] in grid units is within the component's [min] and
    [max]: not above [max] when there is one, not below [min] when [min]
    does not exceed [max]. *)
Definition withinLimits (c : Comp.t) (p : LayoutItem) : Prop :=
  (forall mx, Comp.max c = Some mx ->
     Item.w p <= Size.w mx /\ Item.h p <= Size.h mx)
  /\ ((forall mx, Comp.max c = Some mx ->
         Size.w (Comp.min c) <= Size.w mx /\ Size.h (Comp.min c) <= Size.h mx) ->
      Size.w (Comp.min c) <= Item.w p /\ Size.h (Comp.min c) <= Item.h p).

(** [after] is [before] up to its row. *)
Definition rowOnly (before after : LayoutItem) : Prop :=
  after = Item.withY before (Item.y after).

(** What a pass does to an object: only its row changes; the object
    with the preview's id is left alone; an object that ends at or above
    the preview's top row is not moved down, and is moved to no row
    below 2. *)
Definition visited (previewItem before after : LayoutItem) : Prop :=
  rowOnly before after
  /\ (Item.id before = Item.id previewItem -> after = before)
  /\ (Item.y before + Item.h before <= Item.y previewItem ->
      Item.y after <= Item.y before
      /\ (Item.y after = Item.y before \/ 2 <= Item.y after)).

(** A store reached by changing rows of the objects in [rs] only. *)
Definition rowsMoved (rs : list ref) (st st' : store) : Prop :=
  length st' = length st
  /\ forall u,
       (~ In u rs -> deref st' u = deref st u)
       /\ rowOnly (deref st u) (deref st' u).

(** [after] has the [id], [min], [max], [movable] and [resizable] of
    [before]: only the geometry may differ. *)
Definition keepsIdentity (before after : LayoutItem) : Prop :=
  Item.id after = Item.id before
  /\ Item.min after = Item.min before
  /\ Item.max after = Item.max before
  /\ Item.movable after = Item.movable before
  /\ Item.resizable after = Item.resizable before.

(** The same objects, up to their geometry. *)
Definition sameItems (st st' : store) : Prop :=
  length st' = length st
  /\ forall r, keepsIdentity (deref st r) (deref st' r).

(** * Properties *)

(** ** The store *)

Lemma deref_insert_eq (st : store) (r : ref) (v : LayoutItem) :
  (r < length st)%nat -> deref (<[r := v]> st) r = v.
Proof. intros Hr. unfold deref. by rewrite list_lookup_total_insert_eq. Qed.

Lemma deref_insert_ne (st : store) (r r' : ref) (v : LayoutItem) :
  r <> r' -> deref (<[r := v]> st) r' = deref st r'.
Proof. intros Hr. unfold deref. by rewrite list_lookup_total_insert_ne. Qed.

Lemma deref_insert_out (st : store) (r r' : ref) (v : LayoutItem) :
  (length st <= r)%nat -> deref (<[r := v]> st) r' = deref st r'.
Proof. intros Hr. by rewrite list_insert_ge. Qed.

(** Reading every object of the store gives the store. *)
Lemma derefs_allRefs (st : store) : derefs st (allRefs st) = st.
Proof.
  unfold derefs, allRefs, deref. apply list_eq. intros i.
  rewrite list_lookup_fmap.
  destruct (decide (i < length st)%nat) as [Hi | Hi].
  - rewrite lookup_seq_lt by done. simpl.
    by rewrite list_lookup_lookup_total_lt.
  - rewrite (lookup_ge_None_2 st) by lia.
    rewrite lookup_ge_None_2; [done | rewrite length_seq; lia].
Qed.

(** An update that keeps a field keeps it at every reference. *)
Lemma deref_insert_field {A} (f : LayoutItem -> A) (st : store) (r r' : ref)
    (v : LayoutItem) :
  f v = f (deref st r) -> f (deref (<[r := v]> st) r') = f (deref st r').
Proof.
  intros Hf. destruct (decide (r = r')) as [<- | Hne].
  - destruct (decide (r < length st)%nat).
    + by rewrite deref_insert_eq.
    + by rewrite deref_insert_out by lia.
  - by rewrite deref_insert_ne.
Qed.

Lemma In_allRefs (st : store) (r : ref) : In r (allRefs st) <-> (r < length st)%nat.
Proof. unfold allRefs. rewrite List.in_seq. lia. Qed.

Lemma In_derefs (st : store) (r : ref) (rs : list ref) :
  In r rs -> In (deref st r) (derefs st rs).
Proof. apply List.in_map. Qed.

Lemma In_exceptId (st : store) (i : string) (rs : list ref) (r : ref) :
  In r (exceptId st i rs) <-> In r rs /\ Item.id (deref st r) <> i.
Proof.
  unfold exceptId. rewrite List.filter_In, negb_true_iff, String.eqb_neq. done.
Qed.

Lemma applyPreview_length (st : store) (item : ref) (p : LayoutItem) :
  length (applyPreview st item p) = length st.
Proof. unfold applyPreview. by rewrite length_insert. Qed.

Lemma applyPreview_other (st : store) (item r : ref) (p : LayoutItem) :
  r <> item -> deref (applyPreview st item p) r = deref st r.
Proof. intros Hr. unfold applyPreview. by rewrite deref_insert_ne. Qed.

Lemma applyPreview_own (st : store) (item : ref) (p : LayoutItem) :
  (item < length st)%nat ->
  deref (applyPreview st item p) item
  = Item.withWH (Item.withXY (deref st item) (Item.x p) (Item.y p))
      (Item.w p) (Item.h p).
Proof. intros Hr. unfold applyPreview. by rewrite deref_insert_eq. Qed.

(** ** Push mode: what a relocation assigns *)

(** C10. A relocation in push mode assigns only [x] and [y]: after
    [updateCollItemPositionWithPush], every object of the store (the
    relocated one included) has the [id], [w], [h], [min], [max],
    [movable] and [resizable] it had before. *)
Theorem push_relocation_keeps_other_fields
    (maxCols maxRows : option Z) (st : store) (collItem : ref)
    (items : list LayoutItem) (r : ref) :
  let st' := updateCollItemPositionWithPush maxCols maxRows st collItem items in
  Item.id (deref st' r) = Item.id (deref st r)
  /\ Item.w (deref st' r) = Item.w (deref st r)
  /\ Item.h (deref st' r) = Item.h (deref st r)
  /\ Item.min (deref st' r) = Item.min (deref st r)
  /\ Item.max (deref st' r) = Item.max (deref st r)
  /\ Item.movable (deref st' r) = Item.movable (deref st r)
  /\ Item.resizable (deref st' r) = Item.resizable (deref st r).
Proof.
  unfold updateCollItemPositionWithPush.
  destruct (getAvailablePosition _ _ _ _) as [[nx ny] |]; simpl; [| done].
  repeat split; by apply deref_insert_field.
Qed.

(** ** Error handling *)

(** C6. While the grid context has no [itemSize], a move or resize sample
    computes nothing: the handler throws the error
    "Grid is not mounted yet". *)
Theorem not_mounted_throws
    (snapM snapR : Z -> Z -> LayoutItem -> GridParams.t -> Z * Z)
    (g : GridParams.t) (c : Comp.t) (event : PointerEvent.t) :
  GridParams.itemSize g = None ->
  move snapM (g, c) event = Thrown "Grid is not mounted yet"
  /\ resize snapM snapR (g, c) event = Thrown "Grid is not mounted yet".
Proof. intros Hsz. unfold move, resize. by rewrite Hsz. Qed.

Lemma not_mounted_throws_witness :
  move snapOnMove (unmountedGrid, mkComp 0 (mkItem "a" 0 0 1 1)) (pointerAt 120 0)
    = Thrown "Grid is not mounted yet"
  /\ resize snapOnMove snapOnResize
       (unmountedGrid, mkComp 0 (mkItem "a" 0 0 1 1)) (pointerAt 120 0)
     = Thrown "Grid is not mounted yet".
Proof. apply not_mounted_throws. reflexivity. Defined.

(** In push mode a sample on a mounted grid always runs to its end. *)
Lemma move_push_done
    (snapM : Z -> Z -> LayoutItem -> GridParams.t -> Z * Z)
    (g : GridParams.t) (c : Comp.t) (event : PointerEvent.t) (sz : ItemSize.t) :
  GridParams.itemSize g = Some sz ->
  GridParams.collision g = CollisionPush ->
  exists s', move snapM (g, c) event = Done s'.
Proof.
  intros Hsz Hmode. unfold move. rewrite Hsz, Hmode.
  destruct (movePoint g c event) as [l t]. destruct (snapM _ _ _ _) as [nx ny].
  eauto.
Qed.

(** C5. Placement exhaustion in push mode: when the free-slot search
    finds no position for the colliding item, the store is left as it
    was, so the item keeps its [x] and [y]; nothing is thrown, the sample
    completes. *)
Theorem push_exhaustion_keeps_position
    (maxCols maxRows : option Z) (st : store) (collItem : ref)
    (items : list LayoutItem) :
  getAvailablePosition (deref st collItem) items maxCols maxRows = None ->
  updateCollItemPositionWithPush maxCols maxRows st collItem items = st
  /\ forall snapM g c event sz,
       GridParams.itemSize g = Some sz ->
       GridParams.collision g = CollisionPush ->
       exists s', move snapM (g, c) event = Done s'.
Proof.
  intros Hnone. split.
  - unfold updateCollItemPositionWithPush. by rewrite Hnone.
  - intros. by eapply move_push_done.
Qed.

Lemma push_exhaustion_witness :
  updateCollItemPositionWithPush (Some 3) (Some 1) fullRow 1%nat
    [mkItem "a" 1 0 1 1] = fullRow.
Proof.
  apply (proj1 (push_exhaustion_keeps_position (Some 3) (Some 1) fullRow 1%nat
                  [mkItem "a" 1 0 1 1] eq_refl)).
Defined.

(** ** Mode [none] *)

(** C2, as stated, fails: in mode [none] the sample that drags [a] 110
    pixels to the right asks for the cell (1, 0), where [b] is; the
    candidate is checked against the items and dropped, the preview stays
    at (0, 0). *)
Lemma none_mode_rejects_colliding_candidate :
  snapOnMove 110 0 (mkItem "a" 0 0 1 1) (fst (draggingA CollisionNone)) = (1, 0)
  /\ exists s',
       move snapOnMove (draggingA CollisionNone) (pointerAt 160 50) = Done s'
       /\ Comp.left (snd s') = 110
       /\ Comp.previewItem (snd s') = mkItem "a" 0 0 1 1
       /\ Comp.previewItem (snd s') <> Item.withXY (mkItem "a" 0 0 1 1) 1 0.
Proof.
  split; [reflexivity |].
  eexists. split; [vm_compute; reflexivity |].
  repeat split. discriminate.
Qed.

(** C2, amended. In mode [none] the candidate of a move or resize sample
    is accepted only when it collides with no item: then it becomes the
    preview; otherwise it is dropped and the preview stays as it was.  In
    both cases no item of the store is touched. *)
Theorem none_mode_accepts_free_candidates_only
    (snapM snapR : Z -> Z -> LayoutItem -> GridParams.t -> Z * Z)
    (g : GridParams.t) (c : Comp.t) (event : PointerEvent.t) (sz : ItemSize.t) :
  GridParams.itemSize g = Some sz ->
  GridParams.collision g = CollisionNone ->
  (let '(l, t) := movePoint g c event in
   let c1 := Comp.withRect c l t (Comp.width c) (Comp.height c) in
   let '(nx, ny) := snapM l t (Comp.previewItem c) g in
   let candidate := Item.withXY (Comp.previewItem c) nx ny in
   move snapM (g, c) event =
     Done (g, if hasCollisions candidate (GridParams.items g)
              then c1 else Comp.withPreviewItem c1 candidate))
  /\
  (let '(l, t, wd, ht) := resizeRect g c event in
   let c1 := Comp.withRect c l t wd ht in
   let '(nx, ny, nw, nh) := resizeSnap snapM snapR g c1 in
   let candidate := Item.withWH (Item.withXY (Comp.previewItem c) nx ny) nw nh in
   resize snapM snapR (g, c) event =
     Done (g, if hasCollisions candidate (GridParams.items g)
              then c1 else Comp.withPreviewItem c1 candidate)).
Proof.
  intros Hsz Hmode. split.
  - unfold move. rewrite Hsz, Hmode.
    destruct (movePoint g c event) as [l t]. simpl.
    destruct (snapM l t (Comp.previewItem c) g) as [nx ny].
    rewrite derefs_allRefs. by destruct (hasCollisions _ _).
  - unfold resize. rewrite Hsz, Hmode.
    destruct (resizeRect g c event) as [[[l t] wd] ht]. simpl.
    destruct (resizeSnap _ _ _ _) as [[[nx ny] nw] nh]. simpl.
    rewrite derefs_allRefs. by destruct (hasCollisions _ _).
Qed.

Lemma none_mode_accepts_free_candidates_only_witness :
  move snapOnMove (draggingA CollisionNone) (pointerAt 160 50)
  = Done (fst (draggingA CollisionNone),
          Comp.withRect (snd (draggingA CollisionNone)) 110 0 100 100).
Proof.
  exact (proj1 (none_mode_accepts_free_candidates_only snapOnMove snapOnResize
                  (fst (draggingA CollisionNone)) (snd (draggingA CollisionNone))
                  (pointerAt 160 50) (ItemSize.mk 100 100) eq_refl eq_refl)).
Defined.

(** ** Push mode: the effect of a sample on the store *)

Section PushFacts.
Variables maxCols maxRows : option Z.
Variable previewItem : LayoutItem.
Variable newAttributes : Attrs.t.

Let step := pushCollItem maxCols maxRows previewItem newAttributes.

Lemma updateColl_length (st : store) (c : ref) (items : list LayoutItem) :
  length (updateCollItemPositionWithPush maxCols maxRows st c items) = length st.
Proof.
  unfold updateCollItemPositionWithPush.
  destruct (getAvailablePosition _ _ _ _) as [[nx ny] |]; [| done].
  by rewrite length_insert.
Qed.

Lemma updateColl_other (st : store) (c r : ref) (items : list LayoutItem) :
  r <> c ->
  deref (updateCollItemPositionWithPush maxCols maxRows st c items) r = deref st r.
Proof.
  intros Hne. unfold updateCollItemPositionWithPush.
  destruct (getAvailablePosition _ _ _ _) as [[nx ny] |]; [| done].
  by rewrite deref_insert_ne.
Qed.

Lemma pushLoop_length (cs : list ref) (st : store) :
  length (foldl step st cs) = length st.
Proof.
  revert st. induction cs as [| c cs IH]; intros st; simpl; [done |].
  rewrite IH. apply updateColl_length.
Qed.

Lemma pushLoop_other (cs : list ref) (st : store) (r : ref) :
  ~ In r cs -> deref (foldl step st cs) r = deref st r.
Proof.
  revert st. induction cs as [| c cs IH]; intros st Hr; simpl; [done |].
  rewrite IH by (intros ?; apply Hr; by right).
  apply updateColl_other. intros ->. apply Hr. by left.
Qed.

End PushFacts.

(** C3, as stated, fails: in push mode the sample that drags [a] onto the
    cell of [b] moves [b] to (0, 0) and writes (1, 0) into [a] in the
    store, while the interaction is still active (no [moveEnd] yet). *)
Lemma push_sample_mutates_store :
  exists s',
    move snapOnMove (draggingA CollisionPush) (pointerAt 160 50) = Done s'
    /\ Comp.active (snd s') = true
    /\ GridParams.items (fst (draggingA CollisionPush))
       = [mkItem "a" 0 0 1 1; mkItem "b" 1 0 1 1]
    /\ GridParams.items (fst s') = [mkItem "a" 1 0 1 1; mkItem "b" 0 0 1 1].
Proof. eexists. split; [vm_compute; reflexivity |]. by repeat split. Qed.

(** What [handleCollisionsForPreviewItemWithPush] leaves in the store. *)
Lemma handleCollisions_applies (maxCols maxRows : option Z)
    (previewItem : LayoutItem) (attrs : Attrs.t) (st : store) (item : ref) :
  (item < length st)%nat ->
  let candidate := assignAttrs previewItem attrs in
  let st' := fst (handleCollisionsForPreviewItemWithPush maxCols maxRows
                    previewItem attrs st item) in
  snd (handleCollisionsForPreviewItemWithPush maxCols maxRows
         previewItem attrs st item) = candidate
  /\ Item.x (deref st' item) = Item.x candidate
  /\ Item.y (deref st' item) = Item.y candidate
  /\ Item.w (deref st' item) = Item.w candidate
  /\ Item.h (deref st' item) = Item.h candidate
  /\ forall r,
       r <> item -> ~ In r (pushCollItems previewItem attrs st) ->
       deref st' r = deref st r.
Proof.
  intros Hitem. unfold handleCollisionsForPreviewItemWithPush, applyPreview.
  simpl. split; [done |].
  rewrite deref_insert_eq by (by rewrite pushLoop_length).
  repeat split.
  intros r Hr Hcoll. rewrite deref_insert_ne by done.
  by apply pushLoop_other.
Qed.

(** ** Sorting *)

Lemma insertBy_In {A} (before : A -> A -> bool) (a b : A) (l : list A) :
  In b (insertBy before a l) <-> b = a \/ In b l.
Proof.
  induction l as [| c l IH]; simpl.
  - intuition.
  - destruct (before c a); simpl; rewrite ?IH; intuition.
Qed.

Lemma sortBy_In {A} (before : A -> A -> bool) (b : A) (l : list A) :
  In b (sortBy before l) <-> In b l.
Proof.
  induction l as [| a l IH]; simpl; [done |].
  rewrite insertBy_In, IH. intuition.
Qed.

(** ** Compress mode: rows stay non-negative *)

Lemma rowsNonNegative_insert (st : store) (r : ref) (v : LayoutItem) :
  rowsNonNegative st -> 0 <= Item.y v -> rowsNonNegative (<[r := v]> st).
Proof. intros Hst Hv. by apply Forall_insert. Qed.

Lemma rowsNonNegative_deref (st : store) (r : ref) :
  rowsNonNegative st -> 0 <= Item.y (deref st r).
Proof.
  intros Hst. unfold deref.
  destruct (decide (r < length st)%nat) as [Hr | Hr].
  - unfold rowsNonNegative in Hst. rewrite Forall_lookup in Hst.
    apply (Hst r). by apply list_lookup_lookup_total_lt.
  - rewrite list_lookup_total_alt, lookup_ge_None_2 by lia. done.
Qed.

Lemma slideRows_lower (cur : LayoutItem) (acc : list LayoutItem) (k : nat) :
  -1 <= slideRows cur acc k.
Proof.
  induction k as [| k IH]; simpl; [lia |].
  destruct (hasCollisions _ _); lia.
Qed.

Lemma slide_lower (cur : LayoutItem) (acc : list LayoutItem) (start : Z) :
  -1 <= start -> -1 <= slide cur acc start.
Proof.
  intros Hs. unfold slide. destruct (start <? 0); [done |].
  apply slideRows_lower.
Qed.

Section RowsNonNegative.
Variable previewItem : LayoutItem.

Lemma shiftUp_rows (exc : list ref) (st : store) (r : ref) :
  rowsNonNegative st -> rowsNonNegative (shiftUp previewItem exc st r).
Proof.
  intros Hst. unfold shiftUp.
  destruct (negb _ && (0 <=? _)) eqn:Hc; [| done].
  apply andb_true_iff in Hc as [_ Hc].
  apply rowsNonNegative_insert; [done |]. simpl. lia.
Qed.

Lemma shiftLoop_rows (exc rs : list ref) (st : store) :
  rowsNonNegative st -> rowsNonNegative (foldl (shiftUp previewItem exc) st rs).
Proof.
  revert st. induction rs as [| r rs IH]; intros st Hst; simpl; [done |].
  by apply IH, shiftUp_rows.
Qed.

Lemma settleLoop_rows (exc sorted rs : list ref) (ny : Z) (s : store * bool * Z) :
  rowsNonNegative (fst (fst s)) ->
  rowsNonNegative (fst (fst (foldl (settleOn previewItem exc sorted ny) s rs))).
Proof.
  revert s. induction rs as [| r rs IH]; intros [[st moved] newY] Hst; simpl;
    [done |].
  apply IH. simpl in *. destruct (belowCenter _ _ _); simpl; [| done].
  by apply shiftLoop_rows.
Qed.

Lemma probeRows_rows (st : store) (nx ny : Z) (k : nat) :
  rowsNonNegative st -> rowsNonNegative (fst (probeRows previewItem st nx ny k)).
Proof.
  intros Hst. induction k as [| k IH]; simpl; [done |].
  destruct (getCollisionRefs _ _ _) as [| r rs] eqn:Hcoll; [done |].
  pose proof (settleLoop_rows
    (exceptId st (Item.id previewItem) (allRefs st))
    (sortDescY st (r :: rs)) (sortDescY st (r :: rs)) ny
    (st, false, Z.of_nat k) Hst) as Hsettle.
  destruct (foldl _ _ _) as [[st' moved] newY']. done.
Qed.

Lemma probe_rows (st : store) (nx ny : Z) :
  rowsNonNegative st -> rowsNonNegative (fst (probe previewItem st nx ny)).
Proof.
  intros Hst. unfold probe. destruct (ny <? 0); [done |].
  by apply probeRows_rows.
Qed.

Hypothesis previewHeight : 0 < Item.h previewItem.

Lemma compressStep_rows (s : store * list (option ref)) (r : ref) :
  rowsNonNegative (fst s) -> rowsNonNegative (fst (compressStep previewItem s r)).
Proof.
  destruct s as [st acc]. simpl. intros Hst. unfold compressStep.
  pose proof (rowsNonNegative_deref st r Hst) as Hy.
  destruct (String.eqb _ _); [done |].
  destruct (Item.y previewItem <? _) eqn:Hband.
  - simpl. apply rowsNonNegative_insert; [done |]. simpl.
    apply Z.ltb_lt in Hband.
    match goal with |- 0 <= slide _ _ ?m + 1 =>
      pose proof (slide_lower (deref st r) (derefAcc st previewItem acc) m) as Hs
    end.
    destruct (Item.y previewItem <=? Item.y (deref st r)) eqn:Hle;
      [apply Z.leb_le in Hle | apply Z.leb_gt in Hle]; lia.
  - destruct ((_ <? _) && (0 <? _)) eqn:Hc; simpl; [| done].
    apply andb_true_iff in Hc as [_ Hc]. apply Z.ltb_lt in Hc.
    apply rowsNonNegative_insert; [done |]. simpl. lia.
Qed.

Lemma compressLoop_rows (rs : list ref) (s : store * list (option ref)) :
  rowsNonNegative (fst s) ->
  rowsNonNegative (fst (foldl (compressStep previewItem) s rs)).
Proof.
  revert s. induction rs as [| r rs IH]; intros s Hs; simpl; [done |].
  by apply IH, compressStep_rows.
Qed.

Lemma compressItems_rows (st : store) :
  rowsNonNegative st -> rowsNonNegative (compressItems previewItem st).
Proof. intros Hst. unfold compressItems. by apply compressLoop_rows. Qed.

End RowsNonNegative.

(** X19. The upward shift of the move-time resolution and the pass of
    [compressItems] keep every row non-negative: if every object of the
    store has [y >= 0] and the preview has a positive height, then so
    does every object after the upward shift of the colliders, after a
    pass of [compressItems], and after a whole move-time resolution. *)
Theorem compress_keeps_rows_non_negative
    (previewItem : LayoutItem) (st : store) (itemsExceptPreview sortedItems : list ref)
    (item : ref) (nx ny : Z) :
  rowsNonNegative st ->
  0 < Item.h previewItem ->
  rowsNonNegative (foldl (shiftUp previewItem itemsExceptPreview) st sortedItems)
  /\ rowsNonNegative (compressItems previewItem st)
  /\ rowsNonNegative
       (fst (movePreviewWithCollisionsWithCompress previewItem st item nx ny)).
Proof.
  intros Hst Hh. split; [by apply shiftLoop_rows |].
  split; [by apply compressItems_rows |].
  unfold movePreviewWithCollisionsWithCompress.
  pose proof (probe_rows previewItem st nx ny Hst) as Hprobe.
  destruct (probe previewItem st nx ny) as [st1 newY]. simpl in Hprobe.
  set (newY' := if (newY <? 0) || (ny =? 0) then 0 else newY).
  assert (0 <= newY') as HnewY.
  { subst newY'. destruct (newY <? 0) eqn:Hneg; simpl; [lia |].
    apply Z.ltb_ge in Hneg. destruct (ny =? 0); lia. }
  destruct (negb _ || negb _); simpl; [| done].
  unfold applyPreview. apply rowsNonNegative_insert; [| done].
  by apply compressItems_rows.
Qed.

Lemma compress_keeps_rows_non_negative_witness :
  rowsNonNegative (foldl (shiftUp (mkItem "a" 0 2 3 2) [1; 2; 3]%nat) stairs [1; 2; 3]%nat)
  /\ rowsNonNegative (compressItems (mkItem "a" 0 2 3 2) stairs)
  /\ rowsNonNegative
       (fst (movePreviewWithCollisionsWithCompress (mkItem "a" 0 2 3 2) stairs 0%nat 0 5)).
Proof.
  apply compress_keeps_rows_non_negative.
  - unfold rowsNonNegative, stairs. repeat constructor; simpl; lia.
  - simpl. lia.
Defined.

(** C9. The claim fails on the code, by a missing guard.  The upward
    shift of the move-time resolution is guarded by
    [item.y - previewItem.h >= 0]; the shift [item.y += hGap] of
    [resizePreviewWithCollisionsWithCompress] has no such guard.  When
    [a] is resized from 1 x 3 to 3 x 1, [hGap] is -2, [b] collides with
    the probe of height 9999 and is sent from row 1 to row -1, and the
    compaction pass that follows leaves it there. *)
Lemma compress_resize_leaves_negative_row :
  rowsNonNegative beside
  /\ resizeCompressAt (mkItem "a" 0 1 1 3) beside 0%nat 0 1 3 1
     = ([mkItem "a" 0 1 3 1; mkItem "b" 2 (-1) 1 2], mkItem "a" 0 1 3 1)
  /\ exists s',
       resize snapOnMove snapOnResize shrinkingA (pointerAt 320 210) = Done s'
       /\ GridParams.items (fst s')
          = [mkItem "a" 0 1 3 1; mkItem "b" 2 (-1) 1 2]
       /\ ~ rowsNonNegative (GridParams.items (fst s')).
Proof.
  split; [unfold rowsNonNegative, beside; repeat constructor; simpl; lia |].
  split; [reflexivity |].
  eexists. split; [vm_compute; reflexivity |]. split; [reflexivity |].
  intros Hrows. unfold rowsNonNegative in Hrows. simpl in Hrows.
  apply Forall_cons in Hrows as [_ Hrows].
  apply Forall_cons in Hrows as [Hb _]. simpl in Hb. lia.
Qed.

(** ** Compress mode: the probe of the move-time resolution *)

Section Probe.
Variable previewItem : LayoutItem.

(** No collider passes the below-centre test: the outer loop changes
    nothing. *)
Lemma settleLoop_none (exc sorted rs : list ref) (ny : Z) (st : store)
    (moved : bool) (newY : Z) :
  (forall r, In r rs -> belowCenter previewItem ny (deref st r) = false) ->
  foldl (settleOn previewItem exc sorted ny) (st, moved, newY) rs
  = (st, moved, newY).
Proof.
  induction rs as [| r rs IH]; intros Hrs; simpl; [done |].
  rewrite (Hrs r) by (by left). apply IH. intros r' Hr'. apply Hrs. by right.
Qed.

(** The candidate collides at row [k] and no collider passes the test,
    the rows below the start and above [k] are free: the probe stops at
    row [k] and falls back to the preview's row. *)
Lemma probeRows_stops (st : store) (nx ny : Z) (k n : nat) :
  (k < n)%nat ->
  (forall j, (k < j < n)%nat ->
     getCollisionRefs st (Item.withXY previewItem nx (Z.of_nat j)) (allRefs st) = []) ->
  getCollisionRefs st (Item.withXY previewItem nx (Z.of_nat k)) (allRefs st) <> [] ->
  (forall r,
     In r (getCollisionRefs st (Item.withXY previewItem nx (Z.of_nat k)) (allRefs st)) ->
     belowCenter previewItem ny (deref st r) = false) ->
  probeRows previewItem st nx ny n = (st, Item.y previewItem).
Proof.
  intros Hk Hfree Hcoll Hnone.
  induction n as [| n IH]; [lia |]. simpl.
  destruct (decide (k = n)) as [-> | Hne].
  - destruct (getCollisionRefs _ _ _) as [| r rs] eqn:Hc; [done |].
    rewrite settleLoop_none; [done |].
    intros r' Hr'. apply Hnone. by apply sortBy_In in Hr'.
  - rewrite (Hfree n) by lia. apply IH; [lia |].
    intros j Hj. apply Hfree. lia.
Qed.

(** Every probed row is free: the probe runs out of rows. *)
Lemma probeRows_exhausts (st : store) (nx ny : Z) (n : nat) :
  (forall j, (j < n)%nat ->
     getCollisionRefs st (Item.withXY previewItem nx (Z.of_nat j)) (allRefs st) = []) ->
  probeRows previewItem st nx ny n = (st, -1).
Proof.
  induction n as [| n IH]; intros Hfree; simpl; [done |].
  rewrite (Hfree n) by lia. apply IH. intros j Hj. apply Hfree. lia.
Qed.

End Probe.

(** C7, as stated, fails: [a] is dragged to (1, 2).  At each of the rows
    2, 1, 0 the candidate collides with [b], which never passes the
    below-centre test; still the candidate does not settle at row 0 but
    at row 5, the row the preview had. *)
Lemma compress_probe_does_not_keep_decrementing :
  (forall row, In row [2; 1; 0] ->
     collidersAt (mkItem "a" 0 5 1 1) tower 1 row = [1%nat]
     /\ belowCenter (mkItem "a" 0 5 1 1) 2 (deref tower 1%nat) = false)
  /\ Item.y (snd (movePreviewWithCollisionsWithCompress
                    (mkItem "a" 0 5 1 1) tower 0%nat 1 2)) = 5.
Proof.
  split; [| reflexivity].
  intros row [<- | [<- | [<- | []]]]; by split.
Qed.

(** C7, amended. The probe goes down one row at a time only while the
    probed row has no collider.  At the first row with colliders, if none
    of them passes the below-centre test, the probe stops and the
    candidate takes the row the preview had (row 0 when that is negative
    or when row 0 was asked for).  If every row down to 0 is free, the
    candidate settles at row 0. *)
Theorem compress_probe_result
    (previewItem : LayoutItem) (st : store) (item : ref) (nx ny : Z) :
  (forall k,
     0 <= k <= ny ->
     (forall row, k < row <= ny -> collidersAt previewItem st nx row = []) ->
     collidersAt previewItem st nx k <> [] ->
     (forall r, In r (collidersAt previewItem st nx k) ->
                belowCenter previewItem ny (deref st r) = false) ->
     Item.y (snd (movePreviewWithCollisionsWithCompress previewItem st item nx ny))
     = if (Item.y previewItem <? 0) || (ny =? 0) then 0 else Item.y previewItem)
  /\
  ((forall row, 0 <= row <= ny -> collidersAt previewItem st nx row = []) ->
   Item.y (snd (movePreviewWithCollisionsWithCompress previewItem st item nx ny)) = 0).
Proof.
  split.
  - intros k Hk Hfree Hcoll Hnone.
    unfold movePreviewWithCollisionsWithCompress, probe.
    destruct (ny <? 0) eqn:Hneg; [apply Z.ltb_lt in Hneg; lia |].
    rewrite (probeRows_stops previewItem st nx ny (Z.to_nat k)).
    + by destruct (negb _ || negb _).
    + lia.
    + intros j Hj. apply Hfree. lia.
    + by rewrite Z2Nat.id by lia.
    + rewrite Z2Nat.id by lia. exact Hnone.
  - intros Hfree.
    unfold movePreviewWithCollisionsWithCompress, probe.
    destruct (ny <? 0) eqn:Hneg.
    + simpl. rewrite Hneg. simpl. by destruct (negb _ || negb _).
    + apply Z.ltb_ge in Hneg.
      rewrite probeRows_exhausts by (intros j Hj; apply Hfree; lia).
      simpl. by destruct (negb _ || negb _).
Qed.

Lemma compress_probe_result_witness :
  Item.y (snd (movePreviewWithCollisionsWithCompress
                 (mkItem "a" 0 5 1 1) tower 0%nat 1 2)) = 5
  /\ Item.y (snd (movePreviewWithCollisionsWithCompress
                    (mkItem "a" 0 5 1 1) tower 0%nat 0 2)) = 0.
Proof.
  split.
  - apply (proj1 (compress_probe_result (mkItem "a" 0 5 1 1) tower 0%nat 1 2) 2).
    + lia.
    + intros row Hrow. lia.
    + discriminate.
    + intros r [<- | []]. reflexivity.
  - apply (proj2 (compress_probe_result (mkItem "a" 0 5 1 1) tower 0%nat 0 2)).
    intros row Hrow.
    assert (row = 0 \/ row = 1 \/ row = 2) as [-> | [-> | ->]] by lia;
      reflexivity.
Defined.

(** ** Push mode: the item set of each relocation search *)

Lemma map_filter_comm {A B} (f : A -> B) (p : B -> bool) (l : list A) :
  map f (List.filter (fun a => p (f a)) l) = List.filter p (map f l).
Proof.
  induction l as [| a l IH]; simpl; [done |].
  destruct (p (f a)); simpl; by rewrite IH.
Qed.

Lemma derefs_exceptId (st : store) (i : string) (rs : list ref) :
  derefs st (exceptId st i rs)
  = List.filter (fun it => negb (String.eqb (Item.id it) i)) (derefs st rs).
Proof.
  unfold derefs, exceptId.
  apply (map_filter_comm (deref st) (fun it => negb (String.eqb (Item.id it) i))).
Qed.

Lemma filter_filter_andb {A} (p q : A -> bool) (l : list A) :
  List.filter q (List.filter p l) = List.filter (fun a => p a && q a) l.
Proof.
  induction l as [| a l IH]; simpl; [done |].
  destruct (p a); simpl; [destruct (q a) |]; by rewrite IH.
Qed.

(** The array built in the loop body is the temporary item set of the
    specification, taken over the current store. *)
Lemma pushItems_tempItemSet (previewItem : LayoutItem) (attrs : Attrs.t)
    (st : store) (c : ref) :
  pushItems previewItem attrs st c
  = tempItemSet st (Item.id (deref st c)) (Item.id previewItem)
      (assignAttrs previewItem attrs).
Proof.
  unfold pushItems, tempItemSet.
  by rewrite !derefs_exceptId, derefs_allRefs, filter_filter_andb.
Qed.

Lemma allRefs_NoDup (st : store) : NoDup (allRefs st).
Proof. apply NoDup_ListNoDup, List.seq_NoDup. Qed.

Lemma pushCollItems_NoDup (previewItem : LayoutItem) (attrs : Attrs.t)
    (st : store) :
  NoDup (pushCollItems previewItem attrs st).
Proof.
  unfold pushCollItems, getCollisionRefs, exceptId.
  apply NoDup_ListNoDup. do 2 apply List.NoDup_filter.
  apply NoDup_ListNoDup, allRefs_NoDup.
Qed.

(** An element of a duplicate-free list does not occur after its own
    position. *)
Lemma NoDup_not_later {A} (l : list A) (j m : nat) (a : A) :
  NoDup l -> l !! j = Some a -> ~ In a (take m (drop (S j) l)).
Proof.
  intros Hnd Hj Hin. apply list_elem_of_In, elem_of_take in Hin as (i & Hi & _).
  rewrite lookup_drop in Hi.
  pose proof (NoDup_lookup _ _ _ _ Hnd Hj Hi). lia.
Qed.

(** A relocation as the source writes it is the relocation of the
    specification. *)
Lemma pushCollItem_specRelocate (maxCols maxRows : option Z)
    (previewItem : LayoutItem) (attrs : Attrs.t) (st : store) (c : ref) :
  pushCollItem maxCols maxRows previewItem attrs st c
  = specRelocate maxCols maxRows previewItem attrs st c.
Proof.
  unfold pushCollItem, updateCollItemPositionWithPush, specRelocate, relocated.
  rewrite pushItems_tempItemSet.
  destruct (getAvailablePosition _ _ _ _) as [[nx ny] |]; [done |].
  destruct (decide (c < length st)%nat) as [Hc | Hc].
  - symmetry. apply list_insert_id. by apply list_lookup_lookup_total_lt.
  - symmetry. apply list_insert_ge. lia.
Qed.

Lemma pushLoop_specRelocate (maxCols maxRows : option Z)
    (previewItem : LayoutItem) (attrs : Attrs.t) (cs : list ref) (st : store) :
  foldl (pushCollItem maxCols maxRows previewItem attrs) st cs
  = foldl (specRelocate maxCols maxRows previewItem attrs) st cs.
Proof.
  revert st. induction cs as [| c cs IH]; intros st; simpl; [done |].
  by rewrite pushCollItem_specRelocate, IH.
Qed.

Lemma pushCollItems_in (previewItem : LayoutItem) (attrs : Attrs.t)
    (st : store) (c : ref) :
  In c (pushCollItems previewItem attrs st) -> (c < length st)%nat.
Proof.
  unfold pushCollItems, getCollisionRefs.
  rewrite List.filter_In, In_exceptId, In_allRefs. by intros [[Hc _] _].
Qed.

(** The turn of the [k]-th collider [c]: before it the loop has not
    touched [c], and whatever the loop does after it leaves [c] as its
    own relocation left it. *)
Lemma pushLoop_turn (maxCols maxRows : option Z) (previewItem : LayoutItem)
    (attrs : Attrs.t) (st : store) (k : nat) (c : ref) :
  pushCollItems previewItem attrs st !! k = Some c ->
  let collItems := pushCollItems previewItem attrs st in
  let loop := foldl (pushCollItem maxCols maxRows previewItem attrs) st in
  let st_k := loop (take k collItems) in
  deref st_k c = deref st c
  /\ deref (loop collItems) c
     = relocated maxCols maxRows (deref st c) (pushItems previewItem attrs st_k c).
Proof.
  intros Hk collItems loop st_k.
  assert (deref st_k c = deref st c) as Hbefore.
  { apply pushLoop_other. intros Hin.
    apply list_elem_of_In, elem_of_take in Hin as (i & Hi & Hlt).
    pose proof (NoDup_lookup _ _ _ _ (pushCollItems_NoDup previewItem attrs st)
                  Hk Hi).
    lia. }
  split; [exact Hbefore |].
  assert ((c < length st_k)%nat) as Hc.
  { subst st_k loop. rewrite pushLoop_length.
    eapply pushCollItems_in, list_elem_of_In, list_elem_of_lookup_2, Hk. }
  subst loop. rewrite <- (take_drop_middle collItems k c Hk) at 1.
  rewrite foldl_app. simpl. rewrite pushLoop_other.
  - fold st_k. unfold pushCollItem, updateCollItemPositionWithPush, relocated.
    rewrite Hbefore.
    destruct (getAvailablePosition _ _ _ _) as [[nx ny] |]; [| done].
    by rewrite deref_insert_eq.
  - rewrite <- (take_ge (drop (S k) collItems) (length collItems))
      by (rewrite length_drop; lia).
    eapply NoDup_not_later; [apply pushCollItems_NoDup | exact Hk].
Qed.

(** What the handler leaves in a collider other than the component's
    own item. *)
Lemma handleCollisions_collider (maxCols maxRows : option Z)
    (previewItem : LayoutItem) (attrs : Attrs.t) (st : store) (item : ref)
    (k : nat) (c : ref) :
  pushCollItems previewItem attrs st !! k = Some c ->
  c <> item ->
  let st_k :=
    foldl (pushCollItem maxCols maxRows previewItem attrs) st
      (take k (pushCollItems previewItem attrs st)) in
  deref (fst (handleCollisionsForPreviewItemWithPush maxCols maxRows
                previewItem attrs st item)) c
  = relocated maxCols maxRows (deref st c) (pushItems previewItem attrs st_k c).
Proof.
  intros Hk Hne st_k.
  unfold handleCollisionsForPreviewItemWithPush. simpl.
  rewrite applyPreview_other by done.
  by apply (pushLoop_turn maxCols maxRows previewItem attrs st k c).
Qed.

(** C4. In push mode the handler is the resolution the specification
    describes: the colliders of the candidate are relocated one after the
    other in the order of the collision list, each search running over
    the temporary item set -- all items of the current store except the
    collider and except the moving item, plus the candidate -- and the
    candidate is committed at the end.  When the turn of the [k]-th
    collider [c] comes, the store [st_k] holds every object not yet
    relocated as it was at the start and every collider before [c] at the
    position the handler finally leaves it in; [c] itself ends at the
    cell its search over the temporary set of [st_k] finds, or where it
    was when there is none. *)
Theorem push_search_item_sets
    (maxCols maxRows : option Z) (previewItem : LayoutItem) (attrs : Attrs.t)
    (st : store) (item : ref) :
  let handled :=
    handleCollisionsForPreviewItemWithPush maxCols maxRows previewItem attrs
      st item in
  handled = specPushResolve maxCols maxRows previewItem attrs st item
  /\ forall k c,
       pushCollItems previewItem attrs st !! k = Some c ->
       let collItems := pushCollItems previewItem attrs st in
       let st_k :=
         foldl (specRelocate maxCols maxRows previewItem attrs) st
           (take k collItems) in
       (forall r, ~ In r (take k collItems) -> deref st_k r = deref st r)
       /\ (forall j cj,
             (j < k)%nat -> collItems !! j = Some cj -> cj <> item ->
             deref st_k cj = deref (fst handled) cj)
       /\ (c <> item ->
           deref (fst handled) c
           = relocated maxCols maxRows (deref st c)
               (tempItemSet st_k (Item.id (deref st c)) (Item.id previewItem)
                  (assignAttrs previewItem attrs))).
Proof.
  intros handled. split.
  - subst handled. unfold handleCollisionsForPreviewItemWithPush, specPushResolve.
    by rewrite pushLoop_specRelocate.
  - intros k c Hk collItems st_k. subst st_k.
    rewrite <- pushLoop_specRelocate.
    set (st_k := foldl _ st (take k collItems)).
    split; [| split].
    + intros r Hr. by apply pushLoop_other.
    + intros j cj Hj Hcj Hne. subst handled.
      rewrite (handleCollisions_collider _ _ _ _ _ _ j cj Hcj Hne).
      destruct (pushLoop_turn maxCols maxRows previewItem attrs st j cj Hcj)
        as [_ Hafter].
      rewrite <- Hafter.
      assert (foldl (pushCollItem maxCols maxRows previewItem attrs) st
                (pushCollItems previewItem attrs st)
              = foldl (pushCollItem maxCols maxRows previewItem attrs) st_k
                  (drop k collItems)) as ->.
      { subst st_k. by rewrite <- foldl_app, take_drop. }
      symmetry. apply pushLoop_other. intros Hin.
      apply list_elem_of_In, list_elem_of_lookup in Hin as [i Hi].
      rewrite lookup_drop in Hi.
      pose proof (NoDup_lookup _ _ _ _ (pushCollItems_NoDup previewItem attrs st)
                    Hcj Hi).
      lia.
    + intros Hne. subst handled.
      rewrite (handleCollisions_collider _ _ _ _ _ _ k c Hk Hne).
      fold collItems. fold st_k. rewrite pushItems_tempItemSet.
      destruct (pushLoop_turn maxCols maxRows previewItem attrs st k c Hk)
        as [Hbefore _].
      fold collItems in Hbefore. fold st_k in Hbefore. by rewrite Hbefore.
Qed.

Lemma push_search_item_sets_witness :
  handleCollisionsForPreviewItemWithPush None None (mkItem "a" 0 0 1 1) widenA
    threeInRow 0%nat
  = ([mkItem "a" 0 0 3 1; mkItem "b" 3 0 1 1; mkItem "c" 4 0 1 1],
     mkItem "a" 0 0 3 1)
  /\ (let st_1 :=
        foldl (specRelocate None None (mkItem "a" 0 0 1 1) widenA) threeInRow
          [1%nat] in
      deref st_1 1%nat = mkItem "b" 3 0 1 1
      /\ tempItemSet st_1 "c" "a" (mkItem "a" 0 0 3 1)
         = [mkItem "b" 3 0 1 1; mkItem "a" 0 0 3 1]
      /\ relocated None None (mkItem "c" 2 0 1 1)
           (tempItemSet st_1 "c" "a" (mkItem "a" 0 0 3 1))
         = mkItem "c" 4 0 1 1).
Proof.
  destruct (push_search_item_sets None None (mkItem "a" 0 0 1 1) widenA
              threeInRow 0%nat) as [Hspec Hturn].
  split; [etransitivity; [exact Hspec | reflexivity] |].
  destruct (Hturn 1%nat 2%nat eq_refl) as (_ & Hearlier & Hown).
  split; [| split].
  - etransitivity; [apply (Hearlier 0%nat 1%nat); [lia | reflexivity | discriminate] |].
    rewrite Hspec. reflexivity.
  - reflexivity.
  - etransitivity; [symmetry; apply Hown; discriminate |].
    rewrite Hspec. reflexivity.
Defined.

(** ** Push mode: what a sample leaves in the store *)

(** C3, amended. In push mode every move or resize sample mutates the
    store at once.  Each collider of the candidate is put where its
    free-slot search says -- at the cell found, the search running over
    the item set of its turn, or where it was when there is none -- and
    the preview is applied, so the component's own item holds the
    candidate's [x], [y], [w] and [h] when the sample ends.  Objects that
    are neither the component's item nor a collider of the candidate are
    left as they were. *)
Theorem push_sample_applies_preview
    (snapM snapR : Z -> Z -> LayoutItem -> GridParams.t -> Z * Z)
    (g : GridParams.t) (c : Comp.t) (event : PointerEvent.t) (sz : ItemSize.t) :
  GridParams.itemSize g = Some sz ->
  GridParams.collision g = CollisionPush ->
  (Comp.item c < length (GridParams.items g))%nat ->
  (let p := movePoint g c event in
   let xy := snapM (fst p) (snd p) (Comp.previewItem c) g in
   let attrs := Attrs.mk (Some (fst xy)) (Some (snd xy)) None None in
   let candidate := assignAttrs (Comp.previewItem c) attrs in
   let collItems := pushCollItems (Comp.previewItem c) attrs (GridParams.items g) in
   let step :=
     pushCollItem (GridParams.maxCols g) (GridParams.maxRows g)
       (Comp.previewItem c) attrs in
   exists g' c',
     move snapM (g, c) event = Done (g', c')
     /\ Comp.previewItem c' = candidate
     /\ applied (GridParams.items g') (Comp.item c) candidate
     /\ (forall k r,
           collItems !! k = Some r -> r <> Comp.item c ->
           deref (GridParams.items g') r
           = relocated (GridParams.maxCols g) (GridParams.maxRows g)
               (deref (GridParams.items g) r)
               (pushItems (Comp.previewItem c) attrs
                  (foldl step (GridParams.items g) (take k collItems)) r))
     /\ forall r,
          r <> Comp.item c -> ~ In r collItems ->
          deref (GridParams.items g') r = deref (GridParams.items g) r)
  /\
  (let '(l, t, wd, ht) := resizeRect g c event in
   let c1 := Comp.withRect c l t wd ht in
   let nw := snd (fst (resizeSnap snapM snapR g c1)) in
   let nh := snd (resizeSnap snapM snapR g c1) in
   let xy := snapM l t (Comp.previewItem c) g in
   let attrs := Attrs.mk (Some (fst xy)) (Some (snd xy)) (Some nw) (Some nh) in
   let candidate := assignAttrs (Comp.previewItem c) attrs in
   let collItems := pushCollItems (Comp.previewItem c) attrs (GridParams.items g) in
   let step :=
     pushCollItem (GridParams.maxCols g) (GridParams.maxRows g)
       (Comp.previewItem c) attrs in
   exists g' c',
     resize snapM snapR (g, c) event = Done (g', c')
     /\ Comp.previewItem c' = candidate
     /\ applied (GridParams.items g') (Comp.item c) candidate
     /\ (forall k r,
           collItems !! k = Some r -> r <> Comp.item c ->
           deref (GridParams.items g') r
           = relocated (GridParams.maxCols g) (GridParams.maxRows g)
               (deref (GridParams.items g) r)
               (pushItems (Comp.previewItem c) attrs
                  (foldl step (GridParams.items g) (take k collItems)) r))
     /\ forall r,
          r <> Comp.item c -> ~ In r collItems ->
          deref (GridParams.items g') r = deref (GridParams.items g) r).
Proof.
  intros Hsz Hmode Hitem. split.
  - unfold move. rewrite Hsz, Hmode.
    destruct (movePoint g c event) as [l t]. simpl.
    destruct (snapM l t (Comp.previewItem c) g) as [nx ny].
    unfold movePreviewWithCollisions. rewrite Hmode.
    unfold movePreviewWithCollisionsWithPush, commit. simpl.
    destruct (handleCollisions_applies (GridParams.maxCols g) (GridParams.maxRows g)
                (Comp.previewItem c) (Attrs.mk (Some nx) (Some ny) None None)
                (GridParams.items g) (Comp.item c) Hitem)
      as (Hp & Hx & Hy & Hw & Hh & Hother).
    eexists _, _. split; [reflexivity |]. simpl.
    split; [done |]. split; [by repeat split |]. split; [| done].
    intros k r Hk Hne.
    by apply (handleCollisions_collider (GridParams.maxCols g)
                (GridParams.maxRows g) (Comp.previewItem c)
                (Attrs.mk (Some nx) (Some ny) None None) (GridParams.items g)
                (Comp.item c) k r).
  - unfold resize. rewrite Hsz, Hmode.
    destruct (resizeRect g c event) as [[[l t] wd] ht]. simpl.
    destruct (resizeSnap _ _ _ _) as [[[nx0 ny0] nw] nh]. simpl.
    unfold resizePreviewWithCollisions. simpl.
    destruct (snapM l t (Comp.previewItem c) g) as [nx ny].
    rewrite Hmode. unfold resizePushAt, commit. simpl.
    destruct (handleCollisions_applies (GridParams.maxCols g) (GridParams.maxRows g)
                (Comp.previewItem c)
                (Attrs.mk (Some nx) (Some ny) (Some nw) (Some nh))
                (GridParams.items g) (Comp.item c) Hitem)
      as (Hp & Hx & Hy & Hw & Hh & Hother).
    eexists _, _. split; [reflexivity |]. simpl.
    split; [done |]. split; [by repeat split |]. split; [| done].
    intros k r Hk Hne.
    by apply (handleCollisions_collider (GridParams.maxCols g)
                (GridParams.maxRows g) (Comp.previewItem c)
                (Attrs.mk (Some nx) (Some ny) (Some nw) (Some nh))
                (GridParams.items g) (Comp.item c) k r).
Qed.

Lemma push_sample_applies_preview_witness :
  exists g' c',
    move snapOnMove (draggingA CollisionPush) (pointerAt 160 50) = Done (g', c')
    /\ Comp.previewItem c' = mkItem "a" 1 0 1 1
    /\ applied (GridParams.items g') 0%nat (mkItem "a" 1 0 1 1)
    /\ deref (GridParams.items g') 1%nat = mkItem "b" 0 0 1 1
    /\ forall r,
         r <> 0%nat ->
         ~ In r [1%nat] ->
         deref (GridParams.items g') r = deref sideBySide r.
Proof.
  destruct (proj1 (push_sample_applies_preview snapOnMove snapOnResize
             (fst (draggingA CollisionPush)) (snd (draggingA CollisionPush))
             (pointerAt 160 50) (ItemSize.mk 100 100) eq_refl eq_refl
             (le_n_S _ _ (le_S _ _ (le_n 0)))))
    as (g' & c' & Hmove & Hp & Happ & Hcoll & Hother).
  exists g', c'. split; [exact Hmove |]. split; [exact Hp |].
  split; [exact Happ |]. split; [| exact Hother].
  etransitivity; [apply (Hcoll 0%nat 1%nat); [reflexivity | discriminate] |].
  reflexivity.
Defined.

(** ** The no-overlap invariant *)

Lemma overlaps_sym (a b : LayoutItem) : overlaps a b = overlaps b a.
Proof.
  unfold overlaps.
  destruct (Item.x a <? _), (Item.x b <? _), (Item.y a <? _), (Item.y b <? _);
    reflexivity.
Qed.

(** [overlaps] reads only the rectangle of its arguments. *)
Lemma overlaps_rect (a a' b : LayoutItem) :
  Item.x a' = Item.x a -> Item.y a' = Item.y a ->
  Item.w a' = Item.w a -> Item.h a' = Item.h a ->
  overlaps a' b = overlaps a b.
Proof. intros Hx Hy Hw Hh. unfold overlaps. by rewrite Hx, Hy, Hw, Hh. Qed.

Lemma hasCollisions_false (candidate it : LayoutItem) (items : list LayoutItem) :
  hasCollisions candidate items = false -> In it items ->
  Item.id it <> Item.id candidate -> overlaps candidate it = false.
Proof.
  intros Hno Hin Hid. unfold hasCollisions in Hno.
  destruct (overlaps candidate it) eqn:Hov; [| done].
  assert (existsb (collides candidate) items = true) as Hyes; [| congruence].
  apply existsb_exists. exists it. split; [done |].
  unfold collides. apply String.eqb_neq in Hid. by rewrite Hid, Hov.
Qed.

(** The cell returned by the free-slot search is free. *)
Lemma getAvailablePosition_free (item : LayoutItem) (items : list LayoutItem)
    (maxCols maxRows : option Z) (nx ny : Z) :
  getAvailablePosition item items maxCols maxRows = Some (nx, ny) ->
  hasCollisions (Item.withXY item nx ny) items = false.
Proof.
  unfold getAvailablePosition. intros Hfind.
  apply List.find_some in Hfind as [_ Hfree]. simpl in Hfree.
  by apply negb_true_iff in Hfree.
Qed.

Section PushInvariant.
Variables maxCols maxRows : option Z.
Variable previewItem : LayoutItem.
Variable attrs : Attrs.t.
Variable st0 : store.
Variable item : ref.

Hypothesis ids0 : distinctIds st0.
Hypothesis free0 : overlapFree st0.
Hypothesis item_in : (item < length st0)%nat.
Hypothesis item_id : Item.id (deref st0 item) = Item.id previewItem.

Let candidate := assignAttrs previewItem attrs.
Let step := pushCollItem maxCols maxRows previewItem attrs.

(** The store as it will be once the preview is applied: the candidate
    stands for the component's own item. *)
Let virt (st : store) (r : ref) : LayoutItem :=
  if decide (r = item) then candidate else deref st r.

(** The invariant of the loop over the colliders; [pending] are the
    colliders still to be relocated. *)
Let inv (pending : list ref) (st : store) : Prop :=
  length st = length st0
  /\ (forall r, Item.id (deref st r) = Item.id (deref st0 r))
  /\ forall i j, i <> j -> (i < length st0)%nat -> (j < length st0)%nat ->
       ~ In i pending -> ~ In j pending ->
       overlaps (virt st i) (virt st j) = false.

Lemma collider_facts (c : ref) :
  In c (pushCollItems previewItem attrs st0) ->
  (c < length st0)%nat /\ Item.id (deref st0 c) <> Item.id previewItem /\ c <> item.
Proof.
  unfold pushCollItems, getCollisionRefs. rewrite List.filter_In, In_exceptId, In_allRefs.
  intros [[Hc Hid] _]. repeat split; [done | done |].
  intros ->. by apply Hid.
Qed.

(** An object that is neither a collider nor the component's own item
    does not overlap the candidate. *)
Lemma candidate_clear (j : ref) :
  (j < length st0)%nat -> j <> item ->
  ~ In j (pushCollItems previewItem attrs st0) ->
  overlaps candidate (deref st0 j) = false.
Proof.
  intros Hj Hne Hnot.
  assert (Item.id (deref st0 j) <> Item.id previewItem) as Hid.
  { rewrite <- item_id. by apply ids0. }
  destruct (overlaps candidate (deref st0 j)) eqn:Hov; [| done].
  exfalso. apply Hnot. unfold pushCollItems, getCollisionRefs.
  rewrite List.filter_In, In_exceptId, In_allRefs. repeat split; [done | done |].
  unfold collides. fold candidate. rewrite Hov.
  apply String.eqb_neq in Hid. simpl. by rewrite Hid.
Qed.

Lemma inv_start : inv (pushCollItems previewItem attrs st0) st0.
Proof.
  split; [done |]. split; [done |].
  intros i j Hij Hi Hj Hpi Hpj. unfold virt.
  destruct (decide (i = item)) as [-> | Hni], (decide (j = item)) as [-> | Hnj].
  - done.
  - by apply candidate_clear.
  - rewrite overlaps_sym. by apply candidate_clear.
  - by apply free0.
Qed.

(** The relocated collider overlaps nothing in the store to come. *)
Lemma relocated_clear (st : store) (c j : ref) (nx ny : Z) :
  length st = length st0 ->
  (forall r, Item.id (deref st r) = Item.id (deref st0 r)) ->
  In c (pushCollItems previewItem attrs st0) ->
  getAvailablePosition (deref st c) (pushItems previewItem attrs st c)
    maxCols maxRows = Some (nx, ny) ->
  (j < length st0)%nat -> j <> c ->
  overlaps (Item.withXY (deref st c) nx ny) (virt st j) = false.
Proof.
  intros Hlen Hids Hc Hfound Hj Hjc.
  destruct (collider_facts c Hc) as (Hc_in & Hc_id & Hc_item).
  apply getAvailablePosition_free in Hfound.
  eapply hasCollisions_false; [exact Hfound | |].
  - unfold pushItems, virt. apply List.in_or_app.
    destruct (decide (j = item)) as [-> | Hnj]; [right; by left |].
    left. apply In_derefs.
    rewrite !In_exceptId, In_allRefs, Hlen, !Hids.
    repeat split; [done | |].
    + by apply ids0.
    + rewrite <- item_id. by apply ids0.
  - simpl. unfold virt. destruct (decide (j = item)) as [-> | Hnj].
    + subst candidate. simpl. rewrite Hids. congruence.
    + rewrite !Hids. by apply ids0.
Qed.

Lemma inv_step (pending : list ref) (st : store) (c : ref) (pos : Z * Z) :
  inv (c :: pending) st ->
  In c (pushCollItems previewItem attrs st0) ->
  getAvailablePosition (deref st c) (pushItems previewItem attrs st c)
    maxCols maxRows = Some pos ->
  inv pending (step st c).
Proof.
  intros (Hlen & Hids & Hfree) Hc Hfound. destruct pos as [nx ny].
  destruct (collider_facts c Hc) as (Hc_in & Hc_id & Hc_item).
  subst step. unfold pushCollItem, updateCollItemPositionWithPush.
  rewrite Hfound.
  split; [by rewrite length_insert |].
  split; [intros r; rewrite <- Hids; by apply deref_insert_field |].
  assert (forall j, j <> c ->
            virt (<[c := Item.withXY (deref st c) nx ny]> st) j = virt st j)
    as Hsame.
  { intros j Hjc. unfold virt. destruct (decide (j = item)); [done |].
    by rewrite deref_insert_ne. }
  assert (virt (<[c := Item.withXY (deref st c) nx ny]> st) c
          = Item.withXY (deref st c) nx ny) as Hnew.
  { unfold virt. destruct (decide (c = item)); [done |].
    rewrite deref_insert_eq; [done | by rewrite Hlen]. }
  intros i j Hij Hi Hj Hpi Hpj.
  destruct (decide (i = c)) as [-> | Hic], (decide (j = c)) as [-> | Hjc].
  - done.
  - rewrite Hnew, Hsame by done. by eapply relocated_clear.
  - rewrite overlaps_sym, Hnew, Hsame by done. by eapply relocated_clear.
  - rewrite !Hsame by done.
    apply Hfree; try done; intros [? | ?]; congruence.
Qed.

Lemma inv_loop (pending : list ref) (st : store) :
  inv pending st ->
  (forall c, In c pending -> In c (pushCollItems previewItem attrs st0)) ->
  pushAllPlaced maxCols maxRows previewItem attrs st pending = true ->
  inv [] (foldl step st pending).
Proof.
  revert st. induction pending as [| c pending IH]; intros st Hinv Hsub Hall;
    simpl in *; [done |].
  destruct (getAvailablePosition _ _ _ _) as [pos |] eqn:Hfound; [| done].
  apply IH; [| by auto | done].
  eapply inv_step; [done | by auto | done].
Qed.

(** When every search succeeds, the sample ends without overlap. *)
Lemma push_step_overlapFree :
  pushAllPlaced maxCols maxRows previewItem attrs st0
    (pushCollItems previewItem attrs st0) = true ->
  let st' := fst (handleCollisionsForPreviewItemWithPush maxCols maxRows
                    previewItem attrs st0 item) in
  overlapFree st' /\ distinctIds st'
  /\ length st' = length st0
  /\ Item.id (deref st' item) = Item.id previewItem.
Proof.
  intros Hall.
  destruct (inv_loop _ _ inv_start (fun c H => H) Hall) as (Hlen & Hids & Hfree).
  unfold handleCollisionsForPreviewItemWithPush, applyPreview. simpl.
  fold step. fold candidate.
  set (loop := foldl step st0 (pushCollItems previewItem attrs st0)) in *.
  assert (forall r, Item.id (deref (<[item := Item.withWH
            (Item.withXY (deref loop item) (Item.x candidate) (Item.y candidate))
            (Item.w candidate) (Item.h candidate)]> loop) r)
          = Item.id (deref st0 r)) as Hids'.
  { intros r. rewrite <- Hids. by apply deref_insert_field. }
  split; [| split; [| split]].
  - intros i j Hij Hi Hj. rewrite length_insert, Hlen in Hi, Hj.
    specialize (Hfree i j Hij Hi Hj (fun H => H) (fun H => H)).
    rewrite <- Hfree. unfold virt.
    destruct (decide (i = item)) as [-> | Hni], (decide (j = item)) as [-> | Hnj].
    + done.
    + rewrite deref_insert_eq by (by rewrite Hlen).
      rewrite deref_insert_ne by done. by apply overlaps_rect.
    + rewrite deref_insert_eq by (by rewrite Hlen).
      rewrite deref_insert_ne by done.
      rewrite overlaps_sym, (overlaps_sym (deref loop i)). by apply overlaps_rect.
    + by rewrite !deref_insert_ne.
  - intros i j Hij Hi Hj. rewrite length_insert, Hlen in Hi, Hj.
    rewrite !Hids'. by apply ids0.
  - by rewrite length_insert.
  - by rewrite Hids'.
Qed.

End PushInvariant.

(** *** The free-slot search on an unbounded grid *)

Lemma extent_nonneg (edge : LayoutItem -> Z) (items : list LayoutItem) :
  0 <= extent edge items.
Proof. induction items as [| it items IH]; simpl; lia. Qed.

Lemma extent_bound (edge : LayoutItem -> Z) (items : list LayoutItem)
    (it : LayoutItem) :
  In it items -> edge it <= extent edge items.
Proof.
  induction items as [| a items IH]; simpl; [done |].
  intros [-> | Hin]; [lia |]. specialize (IH Hin). lia.
Qed.

Lemma In_upTo (n m : Z) : 0 <= m <= n -> In m (upTo n).
Proof.
  intros Hm. unfold upTo. apply List.in_map_iff. exists (Z.to_nat m).
  split; [lia |]. apply List.in_seq. lia.
Qed.

(** Nothing reaches beyond the extent of the occupied columns. *)
Lemma beyond_extent_free (item : LayoutItem) (items : list LayoutItem) (ny : Z) :
  hasCollisions
    (Item.withXY item (extent (fun it => Item.x it + Item.w it) items) ny) items
  = false.
Proof.
  unfold hasCollisions.
  destruct (existsb _ _) eqn:Hex; [| done].
  apply existsb_exists in Hex as (it & Hin & Hcoll).
  unfold collides, overlaps in Hcoll. simpl in Hcoll.
  pose proof (extent_bound (fun it => Item.x it + Item.w it) items it Hin) as Hb.
  simpl in Hb.
  apply andb_true_iff in Hcoll as [_ Hcoll].
  repeat (apply andb_true_iff in Hcoll as [Hcoll ?]).
  apply Z.ltb_lt in Hcoll. lia.
Qed.

(** Without [maxCols] and [maxRows] the search always finds a cell. *)
Lemma getAvailablePosition_unbounded (item : LayoutItem) (items : list LayoutItem) :
  getAvailablePosition item items None None <> None.
Proof.
  unfold getAvailablePosition. intros Hnone.
  pose proof (List.find_none _ _ Hnone
                (extent (fun it => Item.x it + Item.w it) items, 0)) as Hfree.
  simpl in Hfree. rewrite beyond_extent_free in Hfree.
  assert (negb false = false) as Habs; [apply Hfree | done].
  apply List.in_flat_map. exists 0. split.
  - apply In_upTo. pose proof (extent_nonneg (fun it => Item.y it + Item.h it) items).
    lia.
  - apply (List.in_map (fun px => (px, 0))), In_upTo.
    pose proof (extent_nonneg (fun it => Item.x it + Item.w it) items). lia.
Qed.

Lemma pushAllPlaced_unbounded (previewItem : LayoutItem) (attrs : Attrs.t)
    (cs : list ref) (st : store) :
  pushAllPlaced None None previewItem attrs st cs = true.
Proof.
  revert st. induction cs as [| c cs IH]; intros st; simpl; [done |].
  destruct (getAvailablePosition _ _ _ _) eqn:Hfound; [apply IH |].
  by apply getAvailablePosition_unbounded in Hfound.
Qed.

(** *** Steps that end with an overlap *)

Lemma overlapFree_fullRow : overlapFree fullRow.
Proof.
  intros i j Hij Hi Hj. simpl in Hi, Hj.
  destruct i as [| [| i]], j as [| [| j]]; try lia; reflexivity.
Qed.

Lemma overlapFree_leaning : overlapFree leaning.
Proof.
  intros i j Hij Hi Hj. simpl in Hi, Hj.
  destruct i as [| [| [| i]]], j as [| [| [| j]]]; try lia; reflexivity.
Qed.

(** C1, as stated, fails.  Push mode: in the full 3 x 1 row, dragging [a]
    one cell to the right leaves [b] where it is, no free cell being
    left, and [a] is committed on top of it.  Compress mode: moving [a]
    of the leaning layout to (0, 1) commits it at row 2, and the
    compaction pass of that move leaves [t] at row 6, inside [a] (the
    defect of [compressItems] shown under C8). *)
Lemma no_overlap_invariant_fails :
  (overlapFree fullRow
   /\ exists s',
        move snapOnMove draggingInFullRow (pointerAt 160 50) = Done s'
        /\ GridParams.items (fst s') = [mkItem "a" 1 0 1 1; mkItem "b" 1 0 2 1]
        /\ ~ overlapFree (GridParams.items (fst s')))
  /\
  (overlapFree leaning
   /\ exists st',
        fst (movePreviewWithCollisionsWithCompress (mkItem "a" 0 10 3 7) leaning
               0%nat 0 1) = st'
        /\ st' = [mkItem "a" 0 2 3 7; mkItem "s" 0 0 1 2; mkItem "t" 1 6 1 2]
        /\ ~ overlapFree st').
Proof.
  split.
  - split; [apply overlapFree_fullRow |].
    eexists. split; [vm_compute; reflexivity |]. split; [reflexivity |].
    intros Hfree. specialize (Hfree 0%nat 1%nat). simpl in Hfree.
    assert (true = false); [| done]. apply Hfree; lia.
  - split; [apply overlapFree_leaning |].
    eexists. split; [vm_compute; reflexivity |]. split; [reflexivity |].
    intros Hfree. specialize (Hfree 0%nat 2%nat). simpl in Hfree.
    assert (true = false); [| done]. apply Hfree; lia.
Qed.

(** ** Compaction twice *)

(** *** Sorting by a key *)

Lemma insertBy_sorted {A} (key : A -> Z) (a : A) (l : list A) :
  sortedByKey key l ->
  sortedByKey key (insertBy (fun b a => key b <? key a) a l).
Proof.
  induction l as [| c l IH]; simpl; [by split |].
  intros [Hc Hl]. destruct (key c <? key a) eqn:Hlt; simpl.
  - apply Z.ltb_lt in Hlt. split; [| by apply IH].
    intros b Hb. apply insertBy_In in Hb as [-> | Hb]; [lia | by apply Hc].
  - apply Z.ltb_ge in Hlt. split; [| by split].
    intros b [<- | Hb]; [done |]. specialize (Hc b Hb). lia.
Qed.

Lemma sortBy_sorted {A} (key : A -> Z) (l : list A) :
  sortedByKey key (sortBy (fun b a => key b <? key a) l).
Proof.
  induction l as [| a l IH]; simpl; [done |]. by apply insertBy_sorted.
Qed.

Lemma sortedByKey_split {A} (key : A -> Z) (pre suf : list A) (r : A) :
  sortedByKey key (pre ++ r :: suf) ->
  (forall u, In u pre -> key u <= key r) /\ (forall u, In u suf -> key r <= key u).
Proof.
  induction pre as [| a pre IH]; simpl.
  - intros [Hr _]. by split.
  - intros [Ha Hrest]. destruct (IH Hrest) as [Hpre Hsuf]. split; [| done].
    intros u [<- | Hu]; [| by apply Hpre].
    apply Ha, List.in_or_app. right. by left.
Qed.

Lemma insertBy_perm {A} (before : A -> A -> bool) (a : A) (l : list A) :
  insertBy before a l ≡ₚ a :: l.
Proof.
  induction l as [| c l IH]; simpl; [done |].
  destruct (before c a); [| done]. rewrite IH. apply Permutation_swap.
Qed.

Lemma sortBy_perm {A} (before : A -> A -> bool) (l : list A) :
  sortBy before l ≡ₚ l.
Proof.
  induction l as [| a l IH]; simpl; [done |]. by rewrite insertBy_perm, IH.
Qed.

Lemma sortAscY_NoDup (st : store) : NoDup (sortAscY st (allRefs st)).
Proof. unfold sortAscY. rewrite sortBy_perm. apply allRefs_NoDup. Qed.

Lemma sortAscY_In (st : store) (r : ref) :
  In r (sortAscY st (allRefs st)) <-> (r < length st)%nat.
Proof. unfold sortAscY. by rewrite sortBy_In, In_allRefs. Qed.

(** The references before [r] in the sorted array are not lower than
    [r], those after it are not higher; [r] occurs once. *)
Lemma sortAscY_split (st : store) (pre suf : list ref) (r : ref) :
  sortAscY st (allRefs st) = pre ++ r :: suf ->
  (forall u, In u pre -> Item.y (deref st u) <= Item.y (deref st r))
  /\ (forall u, In u suf -> Item.y (deref st r) <= Item.y (deref st u))
  /\ ~ In r pre /\ ~ In r suf.
Proof.
  intros Hsplit.
  pose proof (sortBy_sorted (fun r => Item.y (deref st r)) (allRefs st)) as Hsorted.
  pose proof (sortAscY_NoDup st) as Hnd.
  unfold sortAscY in *. rewrite Hsplit in Hsorted, Hnd.
  destruct (sortedByKey_split _ _ _ _ Hsorted) as [Hpre Hsuf].
  split; [done |]. split; [done |].
  apply NoDup_app in Hnd as (_ & Hdisj & Hnd).
  apply NoDup_cons in Hnd as [Hr _].
  split.
  - intros Hin. apply list_elem_of_In in Hin. apply (Hdisj r Hin). by left.
  - intros Hin. by apply list_elem_of_In in Hin.
Qed.

(** *** The slide loop *)

Lemma slideRows_spec (cur : LayoutItem) (acc : list LayoutItem) (k : nat) :
  let t := slideRows cur acc k in
  -1 <= t < Z.of_nat k
  /\ (forall row, t < row < Z.of_nat k ->
        hasCollisions (Item.withY cur row) acc = false)
  /\ (t = -1 \/ hasCollisions (Item.withY cur t) acc = true).
Proof.
  induction k as [| k IH]; simpl.
  - split; [lia |]. split; [intros; lia | by left].
  - destruct (hasCollisions (Item.withY cur (Z.of_nat k)) acc) eqn:Hc.
    + split; [lia |]. split; [intros; lia | by right].
    + destruct IH as (Hrange & Hfree & Hstop).
      split; [lia |]. split; [| done].
      intros row Hrow. destruct (decide (row = Z.of_nat k)) as [-> | Hne]; [done |].
      apply Hfree. lia.
Qed.

Lemma slide_spec (cur : LayoutItem) (acc : list LayoutItem) (start : Z) :
  0 <= start ->
  let t := slide cur acc start in
  -1 <= t <= start
  /\ (forall row, t < row <= start ->
        hasCollisions (Item.withY cur row) acc = false)
  /\ (t = -1 \/ hasCollisions (Item.withY cur t) acc = true).
Proof.
  intros Hstart. unfold slide.
  destruct (start <? 0) eqn:Hneg; [apply Z.ltb_lt in Hneg; lia |].
  destruct (slideRows_spec cur acc (Z.to_nat (start + 1))) as (Hrange & Hfree & Hstop).
  split; [lia |]. split; [| done].
  intros row Hrow. apply Hfree. lia.
Qed.

(** The loop stops at the first blocked row below the start, or at -1. *)
Lemma slide_unique (cur : LayoutItem) (acc : list LayoutItem) (start t : Z) :
  0 <= start -> -1 <= t <= start ->
  (forall row, t < row <= start ->
     hasCollisions (Item.withY cur row) acc = false) ->
  t = -1 \/ hasCollisions (Item.withY cur t) acc = true ->
  slide cur acc start = t.
Proof.
  intros Hstart Ht Hfree Hstop.
  destruct (slide_spec cur acc start Hstart) as (Hrange & Hfree' & Hstop').
  destruct (Z.lt_trichotomy (slide cur acc start) t) as [Hlt | [Heq | Hgt]];
    [| done |].
  - destruct Hstop as [-> | Hstop]; [lia |].
    rewrite Hfree' in Hstop by lia. done.
  - destruct Hstop' as [Heq | Hstop']; [lia |].
    rewrite Hfree in Hstop' by lia. done.
Qed.

(** *** Rectangles *)

Lemma overlaps_iff (a b : LayoutItem) :
  overlaps a b = true
  <-> xOverlap a b = true /\ Item.y a < bottom b /\ Item.y b < bottom a.
Proof.
  unfold overlaps, xOverlap, bottom.
  rewrite !andb_true_iff, !Z.ltb_lt. tauto.
Qed.

Lemma xOverlap_sym (a b : LayoutItem) : xOverlap a b = xOverlap b a.
Proof. unfold xOverlap. apply andb_comm. Qed.

(** Two items whose columns meet and that do not overlap lie one above
    the other. *)
Lemma disjoint_rows (a b : LayoutItem) :
  overlaps a b = false -> xOverlap a b = true ->
  bottom a <= Item.y b \/ bottom b <= Item.y a.
Proof.
  intros Hov Hx.
  destruct (Z_le_gt_dec (bottom a) (Item.y b)) as [? | Ha]; [by left |].
  destruct (Z_le_gt_dec (bottom b) (Item.y a)) as [? | Hb]; [by right |].
  assert (overlaps a b = true) as Hyes; [| congruence].
  apply overlaps_iff. repeat split; [done | lia | lia].
Qed.

Lemma collides_withY_iff (v b : LayoutItem) (row : Z) :
  collides (Item.withY v row) b = true
  <-> Item.id b <> Item.id v /\ xOverlap v b = true
      /\ row < bottom b /\ Item.y b < row + Item.h v.
Proof.
  unfold collides. rewrite andb_true_iff, negb_true_iff, String.eqb_neq.
  rewrite overlaps_iff. unfold xOverlap, bottom. simpl. tauto.
Qed.

Lemma withY_same (v : LayoutItem) : Item.withY v (Item.y v) = v.
Proof. by destruct v. Qed.

(** *** Folding with the processed prefix in view *)

Lemma foldl_prefix_inv {S} (f : S -> ref -> S) (I : list ref -> S -> Prop)
    (l : list ref) (s0 : S) :
  I [] s0 ->
  (forall pre r suf s, l = pre ++ r :: suf -> I pre s -> I (pre ++ [r]) (f s r)) ->
  I l (foldl f s0 l).
Proof.
  intros Hstart Hstep.
  assert (forall suf pre s, l = pre ++ suf -> I pre s -> I l (foldl f s suf)) as Hgen.
  { induction suf as [| r suf IH]; intros pre s Hl Hpre; simpl.
    - by rewrite Hl, app_nil_r.
    - apply (IH (pre ++ [r])).
      + by rewrite <- app_assoc.
      + by eapply Hstep. }
  by apply (Hgen l []).
Qed.

Section Compaction.
Variable previewItem : LayoutItem.
Hypothesis previewHeight : 1 <= Item.h previewItem.

Let nonself (v : LayoutItem) : Prop := Item.id v <> Item.id previewItem.

Lemma accOf_snoc (st : store) (pre : list ref) (r : ref) :
  accOf previewItem st (pre ++ [r])
  = if String.eqb (Item.id (deref st r)) (Item.id previewItem)
    then accOf previewItem st pre else accOf previewItem st pre ++ [Some r].
Proof.
  unfold accOf. rewrite List.filter_app. simpl.
  destruct (String.eqb _ _); simpl; [by rewrite app_nil_r |].
  by rewrite List.map_app.
Qed.

Lemma hasCollisions_acc (st0 st : store) (pre : list ref) (c : LayoutItem) :
  (forall r, Item.id (deref st r) = Item.id (deref st0 r)) ->
  hasCollisions c (derefAcc st previewItem (accOf previewItem st0 pre)) = true
  <-> blockedIn previewItem st pre c.
Proof.
  intros Hids. unfold hasCollisions, derefAcc, accOf, blockedIn. simpl.
  rewrite orb_true_iff, existsb_exists. split.
  - intros [Hp | (it & Hin & Hcoll)]; [by left | right].
    apply List.in_map_iff in Hin as ([r |] & <- & Hin);
      apply List.in_map_iff in Hin as (r' & Heq & Hin); [| done].
    injection Heq as ->.
    apply List.filter_In in Hin as [Hin Hid].
    apply negb_true_iff, String.eqb_neq in Hid.
    exists r. split; [done |]. split; [| done].
    unfold nonself. by rewrite Hids.
  - intros [Hp | (u & Hin & Hid & Hcoll)]; [by left | right].
    exists (deref st u). split; [| done].
    apply List.in_map_iff. exists (Some u). split; [done |].
    apply List.in_map, List.filter_In. split; [done |].
    apply negb_true_iff, String.eqb_neq. unfold nonself in Hid.
    by rewrite <- Hids.
Qed.

Lemma hasCollisions_acc_false (st0 st : store) (pre : list ref) (c : LayoutItem) :
  (forall r, Item.id (deref st r) = Item.id (deref st0 r)) ->
  hasCollisions c (derefAcc st previewItem (accOf previewItem st0 pre)) = false
  <-> ~ blockedIn previewItem st pre c.
Proof.
  intros Hids. rewrite <- (hasCollisions_acc st0 st pre c Hids).
  by destruct (hasCollisions _ _).
Qed.

End Compaction.

(** *** A pass over a settled store changes nothing *)

Section Stable.
Variable previewItem : LayoutItem.
Variable st : store.
Hypothesis previewHeight : 1 <= Item.h previewItem.
Hypothesis st_settled : settled previewItem st.

Let nonself (v : LayoutItem) : Prop := Item.id v <> Item.id previewItem.

Variables (pre suf : list ref) (r : ref).
Hypothesis split_at : sortAscY st (allRefs st) = pre ++ r :: suf.
Hypothesis r_nonself : nonself (deref st r).

Let v := deref st r.

Local Ltac rows := unfold v, bottom in *; lia.

Lemma stable_r_in : (r < length st)%nat.
Proof.
  apply sortAscY_In. rewrite split_at. apply List.in_or_app. right. by left.
Qed.

Lemma stable_pre_in (u : ref) : In u pre -> (u < length st)%nat /\ u <> r.
Proof.
  intros Hu. split.
  - apply sortAscY_In. rewrite split_at. apply List.in_or_app. by left.
  - destruct (sortAscY_split st pre suf r split_at) as (_ & _ & Hr & _).
    intros Heq. apply Hr. by rewrite <- Heq.
Qed.

(** Nothing processed blocks [v] at or below its own row. *)
Lemma stable_free_below (row : Z) :
  Item.y v <= row ->
  Item.y previewItem < bottom v \/ row = Item.y v ->
  ~ blockedIn previewItem st pre (Item.withY v row).
Proof.
  unfold v in *.
  intros Hrow Hcase.
  destruct st_settled as (Hids & Hwf & Hfree & HfreeP & _).
  destruct (Hwf r stable_r_in r_nonself) as [Hh Hy].
  intros [Hp | (u & Hu & Hun & Hcoll)].
  - apply collides_withY_iff in Hp as (_ & Hx & Hr1 & Hr2).
    pose proof (HfreeP r stable_r_in r_nonself) as Hov.
    rewrite overlaps_sym in Hov.
    destruct (disjoint_rows _ _ Hov Hx) as [Hd | Hd];
      rows.
  - apply collides_withY_iff in Hcoll as (Hid & Hx & Hr1 & Hr2).
    destruct (stable_pre_in u Hu) as [Hu_in Hur].
    destruct (Hwf u Hu_in Hun) as [Hhu Hyu].
    pose proof (proj1 (sortAscY_split st pre suf r split_at) u Hu) as Hle.
    pose proof (Hfree r u stable_r_in Hu_in (not_eq_sym Hur) r_nonself Hun) as Hov.
    destruct (disjoint_rows _ _ Hov Hx) as [Hd | Hd];
      rows.
Qed.

(** Above its own row, [v] is blocked by the processed objects exactly
    when it is blocked by any object of the store. *)
Lemma stable_blocked_restrict (row : Z) :
  row < Item.y v ->
  blockedIn previewItem st (allRefs st) (Item.withY v row) ->
  blockedIn previewItem st pre (Item.withY v row).
Proof.
  unfold v in *.
  intros Hrow [Hp | (u & Hu & Hun & Hcoll)]; [by left | right].
  destruct st_settled as (Hids & Hwf & Hfree & HfreeP & _).
  destruct (Hwf r stable_r_in r_nonself) as [Hh Hy].
  exists u. split; [| by split].
  apply In_allRefs in Hu.
  destruct (Hwf u Hu Hun) as [Hhu Hyu].
  apply collides_withY_iff in Hcoll as (Hid & Hx & Hr1 & Hr2).
  assert (u <> r) as Hur by (intros ->; by apply Hid).
  pose proof (Hfree r u stable_r_in Hu (not_eq_sym Hur) r_nonself Hun) as Hov.
  assert (Item.y (deref st u) < Item.y (deref st r)) as Hlt.
  { destruct (disjoint_rows _ _ Hov Hx) as [Hd | Hd];
      rows. }
  assert (In u (pre ++ r :: suf)) as Hin.
  { rewrite <- split_at. by apply sortAscY_In. }
  apply List.in_app_or in Hin as [Hin | [Heq | Hin]]; [done | congruence |].
  pose proof (proj1 (proj2 (sortAscY_split st pre suf r split_at)) u Hin) as Hle.
  rows.
Qed.

Lemma stable_blocked_extend (c : LayoutItem) :
  blockedIn previewItem st pre c -> blockedIn previewItem st (allRefs st) c.
Proof.
  intros [Hp | (u & Hu & Hun & Hcoll)]; [by left | right].
  exists u. split; [| by split]. apply In_allRefs. by apply stable_pre_in.
Qed.

Let accv := derefAcc st previewItem (accOf previewItem st pre).

Lemma stable_acc_free (row : Z) :
  ~ blockedIn previewItem st pre (Item.withY v row) ->
  hasCollisions (Item.withY v row) accv = false.
Proof. intros H. by apply (hasCollisions_acc_false previewItem st st). Qed.

Lemma stable_acc_blocked (row : Z) :
  blockedIn previewItem st pre (Item.withY v row) ->
  hasCollisions (Item.withY v row) accv = true.
Proof. intros H. by apply (hasCollisions_acc previewItem st st). Qed.

(** Below the preview's top: the slide from [start] comes back to the
    row of [v]. *)
Lemma stable_slide_band (start : Z) :
  Item.y previewItem < bottom v -> Item.y v <= start ->
  slide v accv start = Item.y v - 1.
Proof.
  intros Hband Hstart.
  destruct st_settled as (_ & Hwf & _ & _ & Hsup).
  destruct (Hwf r stable_r_in r_nonself) as [Hh Hy]. unfold v in *.
  apply slide_unique; [rows | rows | |].
  - intros row Hrow. apply stable_acc_free, stable_free_below; [rows | by left].
  - destruct (Hsup r stable_r_in r_nonself) as [H0 | [Hb | [Habove _]]].
    + left. rows.
    + right. apply stable_acc_blocked, stable_blocked_restrict; [rows | done].
    + rows.
Qed.

(** Above the preview: the slide from the row of [v] asks for no move. *)
Lemma stable_slide_above :
  bottom v <= Item.y previewItem ->
  let newY := slide v accv (Item.y v) in
  (newY <? Item.y v) && (0 <? newY) = true -> newY + 1 = Item.y v.
Proof.
  intros Habove newY Hmove.
  destruct st_settled as (_ & Hwf & _ & _ & Hsup).
  destruct (Hwf r stable_r_in r_nonself) as [Hh Hy]. unfold v in *.
  apply andb_true_iff in Hmove as [Hlt Hpos].
  apply Z.ltb_lt in Hlt, Hpos.
  destruct (slide_spec v accv (Item.y v) Hy) as (Hrange & Hfree & Hstop).
  fold newY in Hrange, Hfree, Hstop.
  destruct Hstop as [Hstop | Hstop]; [rows |].
  apply (hasCollisions_acc previewItem st st) in Hstop; [| done].
  destruct (Hsup r stable_r_in r_nonself) as [H0 | [Hb | [_ Hfloat]]].
  - rows.
  - destruct (decide (newY = Item.y v - 1)) as [? | Hne]; [rows |].
    apply stable_blocked_restrict, stable_acc_blocked in Hb; [| rows].
    rewrite Hfree in Hb by rows. done.
  - exfalso. apply (Hfloat newY); [rows |]. by apply stable_blocked_extend.
Qed.

(** The reducer leaves the store as it is. *)
Lemma stable_step :
  compressStep previewItem (st, accOf previewItem st pre) r
  = (st, accOf previewItem st (pre ++ [r])).
Proof.
  unfold compressStep. rewrite accOf_snoc.
  fold v accv.
  destruct (String.eqb (Item.id v) (Item.id previewItem)) eqn:Hid.
  { apply String.eqb_eq in Hid. by destruct r_nonself. }
  assert (<[r := v]> st = st) as Hsame.
  { apply list_insert_id. subst v. unfold deref.
    apply list_lookup_lookup_total_lt, stable_r_in. }
  destruct (Item.y previewItem <? Item.y v + Item.h v) eqn:Hband.
  - apply Z.ltb_lt in Hband.
    rewrite stable_slide_band; [| done |].
    + replace (Item.y v - 1 + 1) with (Item.y v) by rows.
      by rewrite withY_same, Hsame.
    + destruct (Item.y previewItem <=? Item.y v) eqn:Hle;
        [apply Z.leb_le in Hle | apply Z.leb_gt in Hle]; rows.
  - apply Z.ltb_ge in Hband.
    destruct ((_ <? _) && (0 <? _)) eqn:Hmove; [| done].
    rewrite (stable_slide_above Hband Hmove).
    by rewrite withY_same, Hsame.
Qed.

End Stable.

(** A compaction pass leaves a settled store as it is. *)
Lemma compressItems_settled (previewItem : LayoutItem) (st : store) :
  1 <= Item.h previewItem -> settled previewItem st ->
  compressItems previewItem st = st.
Proof.
  intros Hh Hset. unfold compressItems.
  assert (foldl (compressStep previewItem) (st, [None]) (sortAscY st (allRefs st))
          = (st, accOf previewItem st (sortAscY st (allRefs st)))) as ->; [| done].
  apply (foldl_prefix_inv (compressStep previewItem)
           (fun pre s => s = (st, accOf previewItem st pre))); [done |].
  intros pre r suf s Hsplit ->.
  destruct (String.eqb (Item.id (deref st r)) (Item.id previewItem)) eqn:Hid.
  - unfold compressStep. by rewrite accOf_snoc, Hid.
  - apply String.eqb_neq in Hid. by eapply stable_step.
Qed.

(** *** What a pass leaves behind *)

Lemma compressStep_place (previewItem : LayoutItem) (st : store)
    (acc : list (option ref)) (r : ref) :
  (r < length st)%nat ->
  Item.id (deref st r) <> Item.id previewItem ->
  compressStep previewItem (st, acc) r
  = (<[r := place previewItem (derefAcc st previewItem acc) (deref st r)]> st,
     acc ++ [Some r]).
Proof.
  intros Hr Hid. unfold compressStep, place.
  apply String.eqb_neq in Hid. rewrite Hid.
  destruct (Item.y previewItem <? _); [done |].
  destruct ((_ <? _) && (0 <? _)); [done |].
  rewrite list_insert_id; [done |].
  by apply list_lookup_lookup_total_lt.
Qed.

Lemma sameBox_withY (v : LayoutItem) (row : Z) : sameBox (Item.withY v row) v.
Proof. by repeat split. Qed.

Lemma sameBox_xOverlap (a a' b b' : LayoutItem) :
  sameBox a' a -> sameBox b' b -> xOverlap a' b' = xOverlap a b.
Proof.
  intros (_ & Hax & Haw & _) (_ & Hbx & Hbw & _). unfold xOverlap.
  by rewrite Hax, Haw, Hbx, Hbw.
Qed.

Section Pass.
Variable previewItem : LayoutItem.
Variable st : store.
Hypothesis previewHeight : 1 <= Item.h previewItem.

Let nonself (v : LayoutItem) : Prop := Item.id v <> Item.id previewItem.

Hypothesis ids0 : distinctIds st.
Hypothesis wf0 :
  forall r, (r < length st)%nat -> nonself (deref st r) ->
    1 <= Item.h (deref st r) /\ 0 <= Item.y (deref st r).
Hypothesis free0 :
  forall u v, (u < length st)%nat -> (v < length st)%nat -> u <> v ->
    nonself (deref st u) -> nonself (deref st v) ->
    overlaps (deref st u) (deref st v) = false.
Hypothesis straddle0 :
  forall r, (r < length st)%nat -> nonself (deref st r) ->
    Item.y (deref st r) < Item.y previewItem < bottom (deref st r) ->
    overlaps previewItem (deref st r) = false.

Lemma passInv_start : passInv previewItem st [] (st, [None]).
Proof. by split. Qed.

Variables (pre suf : list ref) (r : ref).
Hypothesis split_at : sortAscY st (allRefs st) = pre ++ r :: suf.
Variable st' : store.
Variable acc : list (option ref).
Hypothesis inv : passInv previewItem st pre (st', acc).

Lemma pass_r_in : (r < length st)%nat.
Proof.
  apply sortAscY_In. rewrite split_at. apply List.in_or_app. right. by left.
Qed.

Lemma pass_pre_in (u : ref) : In u pre -> (u < length st)%nat /\ u <> r.
Proof.
  intros Hu. split.
  - apply sortAscY_In. rewrite split_at. apply List.in_or_app. by left.
  - destruct (sortAscY_split st pre suf r split_at) as (_ & _ & Hr & _).
    intros Heq. apply Hr. by rewrite <- Heq.
Qed.

Lemma pass_r_rest : deref st' r = deref st r.
Proof.
  apply (inv_rest _ _ _ _ inv).
  by destruct (sortAscY_split st pre suf r split_at) as (_ & _ & Hr & _).
Qed.

(** The component's own item is skipped. *)
Lemma pass_step_self :
  ~ nonself (deref st r) ->
  passInv previewItem st (pre ++ [r]) (compressStep previewItem (st', acc) r).
Proof.
  intros Hself.
  assert (Item.id (deref st r) = Item.id previewItem) as Hid.
  { destruct (String.eqb_spec (Item.id (deref st r)) (Item.id previewItem));
      [done | by destruct Hself]. }
  assert (forall u, In u (pre ++ [r]) -> nonself (deref st u) -> In u pre) as Hpre.
  { intros u Hu Hun. apply List.in_app_or in Hu as [? | [<- | []]]; [done |].
    by destruct Hun. }
  assert (forall c, blockedIn previewItem st' (pre ++ [r]) c
                    <-> blockedIn previewItem st' pre c) as Hblocked.
  { intros c. unfold blockedIn. split.
    - intros [? | (u & Hu & Hun & Hc)]; [by left | right].
      exists u. split; [| done]. apply Hpre; [done |].
      unfold nonself. by rewrite <- (proj1 (inv_box _ _ _ _ inv u)).
    - intros [? | (u & Hu & Hun & Hc)]; [by left | right].
      exists u. split; [| done]. apply List.in_or_app. by left. }
  unfold compressStep. rewrite pass_r_rest.
  apply String.eqb_eq in Hid. rewrite Hid.
  destruct inv as [Hacc Hlen Hbox Hrest Hbound Horder Hclear Hsupp].
  simpl in *. split; simpl.
  - by rewrite accOf_snoc, Hid.
  - done.
  - done.
  - intros u Hu. apply Hrest. intros Hin. apply Hu, List.in_or_app. by left.
  - intros u Hu Hun. apply Hbound; [by apply Hpre | done].
  - intros u w Hu Hw Hun Hwn. apply Horder; try done; by apply Hpre.
  - intros u Hu Hun. apply Hclear; [by apply Hpre | done].
  - intros u Hu Hun. specialize (Hsupp u (Hpre u Hu Hun) Hun).
    unfold supported in *. rewrite !Hblocked.
    destruct Hsupp as [? | [? | [? Hfloat]]]; [by left | right; by left |].
    right. right. split; [done |]. intros row Hrow. rewrite Hblocked.
    by apply Hfloat.
Qed.

Hypothesis r_nonself : nonself (deref st r).

Local Abbreviation cur := (deref st r).
Local Abbreviation accv := (derefAcc st' previewItem acc).
Local Abbreviation blockedAt :=
  (fun row => blockedIn previewItem st' pre (Item.withY cur row)).

Lemma pass_ids (u : ref) : Item.id (deref st' u) = Item.id (deref st u).
Proof. apply (inv_box _ _ _ _ inv u). Qed.

Lemma pass_acc_iff (row : Z) :
  hasCollisions (Item.withY cur row) accv = true <-> blockedAt row.
Proof.
  pose proof (inv_acc _ _ _ _ inv) as Hacc. simpl in Hacc. rewrite Hacc.
  apply (hasCollisions_acc previewItem st st'). apply pass_ids.
Qed.

Lemma pass_acc_free (row : Z) :
  hasCollisions (Item.withY cur row) accv = false <-> ~ blockedAt row.
Proof. rewrite <- pass_acc_iff. by destruct (hasCollisions _ _). Qed.

Lemma pass_cur_wf : 1 <= Item.h cur /\ 0 <= Item.y cur.
Proof. apply wf0; [apply pass_r_in | done]. Qed.

(** The processed objects whose columns meet those of [cur] were above
    it. *)
Lemma pass_pre_above (u : ref) :
  In u pre -> nonself (deref st u) -> xOverlap cur (deref st u) = true ->
  bottom (deref st u) <= Item.y cur.
Proof.
  intros Hu Hun Hx. destruct (pass_pre_in u Hu) as [Hu_in Hur].
  destruct pass_cur_wf as [Hh Hy].
  pose proof (proj1 (sortAscY_split st pre suf r split_at) u Hu) as Hle.
  pose proof (free0 r u pass_r_in Hu_in (not_eq_sym Hur) r_nonself Hun) as Hov.
  destruct (disjoint_rows _ _ Hov Hx) as [Hd | Hd]; unfold bottom in *; lia.
Qed.

(** They have not come further down than [cur] may go. *)
Lemma pass_pre_bottom (u : ref) :
  In u pre -> nonself (deref st u) -> xOverlap cur (deref st u) = true ->
  bottom (deref st' u) <= bound previewItem cur
  /\ (Item.y cur < Item.y previewItem -> bottom (deref st' u) <= Item.y cur).
Proof.
  intros Hu Hun Hx.
  pose proof (pass_pre_above u Hu Hun Hx) as Habove.
  pose proof (proj1 (sortAscY_split st pre suf r split_at) u Hu) as Hle.
  pose proof (inv_bound _ _ _ _ inv u Hu Hun) as Hb. simpl in Hb.
  destruct (inv_box _ _ _ _ inv u) as (_ & _ & _ & Hh). simpl in Hh.
  destruct (pass_pre_in u Hu) as [Hu_in _].
  destruct (wf0 u Hu_in Hun) as [Hhu _].
  unfold bound, bottom in *.
  destruct (Item.y previewItem <=? Item.y (deref st u)) eqn:H1;
    destruct (Item.y previewItem <=? Item.y cur) eqn:H2;
    rewrite ?Z.leb_le, ?Z.leb_gt in *; lia.
Qed.

Lemma pass_start_ge :
  0 <= bound previewItem cur <= startRow previewItem cur.
Proof.
  destruct pass_cur_wf as [Hh Hy]. unfold bound, startRow.
  destruct (Item.y previewItem <? Item.y cur + Item.h cur) eqn:H1;
    destruct (Item.y previewItem <=? Item.y cur) eqn:H2;
    rewrite ?Z.ltb_lt, ?Z.ltb_ge, ?Z.leb_le, ?Z.leb_gt in *; lia.
Qed.

(** From the bound of [cur] down to the start of its slide, nothing
    blocks it. *)
Lemma pass_free_high (row : Z) :
  bound previewItem cur <= row <= startRow previewItem cur -> ~ blockedAt row.
Proof.
  intros Hrow [Hp | (u & Hu & Hun & Hc)].
  - apply collides_withY_iff in Hp as (_ & Hx & Hr1 & Hr2).
    destruct pass_cur_wf as [Hh Hy].
    unfold bound, startRow, bottom in *.
    destruct (Item.y previewItem <? Item.y cur + Item.h cur) eqn:H1;
      destruct (Item.y previewItem <=? Item.y cur) eqn:H2;
      rewrite ?Z.ltb_lt, ?Z.ltb_ge, ?Z.leb_le, ?Z.leb_gt in *; try lia.
    assert (overlaps previewItem cur = true) as Hyes.
    { apply overlaps_iff. rewrite xOverlap_sym. unfold bottom. split; [done | lia]. }
    rewrite straddle0 in Hyes; [done | apply pass_r_in | done |].
    unfold bottom. lia.
  - unfold nonself in Hun. rewrite pass_ids in Hun.
    apply collides_withY_iff in Hc as (_ & Hx & Hr1 & _).
    rewrite (sameBox_xOverlap cur cur (deref st u) (deref st' u)) in Hx;
      [| by repeat split | apply (inv_box _ _ _ _ inv u)].
    destruct (pass_pre_bottom u Hu Hun Hx) as [Hb _]. lia.
Qed.

(** The row the reducer gives to [cur]. *)
Lemma pass_place_spec :
  exists row',
    place previewItem accv cur = Item.withY cur row'
    /\ 0 <= row' <= bound previewItem cur
    /\ (forall row, row' <= row <= startRow previewItem cur -> ~ blockedAt row)
    /\ (row' = 0 \/ blockedAt (row' - 1)
        \/ (row' + Item.h cur <= Item.y previewItem
            /\ forall row, 1 <= row < row' -> ~ blockedAt row)).
Proof.
  destruct pass_cur_wf as [Hh Hy].
  pose proof pass_start_ge as Hstart.
  pose proof pass_free_high as Hhigh.
  unfold place. unfold startRow in Hstart, Hhigh |- *.
  destruct (Item.y previewItem <? Item.y cur + Item.h cur) eqn:Hband.
  - set (maxY := if Item.y previewItem <=? Item.y cur
                 then Item.y cur + Item.h previewItem + 1
                 else Item.y previewItem + Item.h cur + 1) in *.
    destruct (slide_spec cur accv maxY) as (Hrange & Hfree & Hstop); [lia |].
    set (t := slide cur accv maxY) in *.
    assert (t < bound previewItem cur) as Hlt.
    { destruct (Z_lt_ge_dec t (bound previewItem cur)) as [? | Hge]; [done |].
      destruct Hstop as [? | Hstop]; [lia |].
      apply pass_acc_iff in Hstop. exfalso. apply (Hhigh t); [lia | done]. }
    exists (t + 1). split; [done |]. split; [lia |]. split.
    + intros row Hrow. apply pass_acc_free, Hfree. lia.
    + destruct Hstop as [Hstop | Hstop]; [left; lia | right; left].
      replace (t + 1 - 1) with t by lia. by apply pass_acc_iff.
  - apply Z.ltb_ge in Hband.
    assert (bound previewItem cur = Item.y cur) as Hbound.
    { unfold bound. destruct (Item.y previewItem <=? Item.y cur) eqn:H2; [| done].
      apply Z.leb_le in H2. lia. }
    rewrite Hbound in *.
    destruct (slide_spec cur accv (Item.y cur)) as (Hrange & Hfree & Hstop);
      [lia |].
    set (t := slide cur accv (Item.y cur)) in *.
    assert (t < Item.y cur) as Hlt.
    { destruct (Z_lt_ge_dec t (Item.y cur)) as [? | Hge]; [done |].
      destruct Hstop as [? | Hstop]; [lia |].
      apply pass_acc_iff in Hstop. exfalso. apply (Hhigh t); [lia | done]. }
    destruct ((t <? Item.y cur) && (0 <? t)) eqn:Hmove.
    + apply andb_true_iff in Hmove as [_ Hpos]. apply Z.ltb_lt in Hpos.
      exists (t + 1). split; [done |]. split; [lia |]. split.
      * intros row Hrow. apply pass_acc_free, Hfree. lia.
      * right; left. destruct Hstop as [Hstop | Hstop]; [lia |].
        replace (t + 1 - 1) with t by lia. by apply pass_acc_iff.
    + assert (t <= 0) as Hle.
      { apply andb_false_iff in Hmove as [Hmove | Hmove];
          [apply Z.ltb_ge in Hmove | apply Z.ltb_ge in Hmove]; lia. }
      exists (Item.y cur). split; [by rewrite withY_same |]. split; [lia |]. split.
      * intros row Hrow. apply Hhigh. lia.
      * right; right. split; [lia |].
        intros row Hrow. apply pass_acc_free, Hfree. lia.
Qed.

(** An object other than the component's own is placed. *)
Lemma pass_step_nonself :
  passInv previewItem st (pre ++ [r]) (compressStep previewItem (st', acc) r).
Proof.
  destruct pass_cur_wf as [Hh Hy].
  pose proof pass_start_ge as Hstart.
  pose proof pass_r_in as Hr_in.
  pose proof pass_r_rest as Hr_rest.
  destruct inv as [Hacc Hlen Hbox Hrest Hbound Horder Hclear Hsupp].
  simpl in Hacc, Hlen, Hbox, Hrest, Hbound, Horder, Hclear, Hsupp.
  rewrite compressStep_place;
    [| by rewrite Hlen | rewrite Hr_rest; exact r_nonself].
  rewrite Hr_rest.
  destruct pass_place_spec as (row' & -> & Hrow' & Hfree & Hsup').
  set (st'' := <[r := Item.withY cur row']> st').
  assert (deref st'' r = Item.withY cur row') as Hd_r.
  { subst st''. rewrite deref_insert_eq; [done | by rewrite Hlen]. }
  assert (forall u, u <> r -> deref st'' u = deref st' u) as Hd_other.
  { intros u Hu. subst st''. by rewrite deref_insert_ne. }
  assert (forall u, In u pre -> deref st'' u = deref st' u) as Hd_pre.
  { intros u Hu. apply Hd_other. by apply pass_pre_in. }
  assert (forall u, In u (pre ++ [r]) -> In u pre \/ u = r) as Hsnoc.
  { intros u Hu. apply List.in_app_or in Hu as [? | [<- | []]]; auto. }
  assert (forall c, blockedIn previewItem st' pre c ->
                    blockedIn previewItem st'' (pre ++ [r]) c) as Hmono.
  { intros c [? | (u & Hu & Hun & Hc)]; [by left | right].
    exists u. rewrite (Hd_pre u Hu). split; [| done].
    apply List.in_or_app. by left. }
  assert (forall c, blockedIn previewItem st'' (pre ++ [r]) c ->
                    blockedIn previewItem st' pre c
                    \/ collides c (Item.withY cur row') = true) as Hnew.
  { intros c [? | (u & Hu & Hun & Hc)]; [left; by left |].
    destruct (Hsnoc u Hu) as [Hpre | ->].
    - left. right. exists u. rewrite (Hd_pre u Hpre) in Hun, Hc. done.
    - right. by rewrite Hd_r in Hc. }
  assert (forall u, In u pre -> nonself (deref st u) ->
            xOverlap (deref st u) cur = true ->
            bottom (deref st' u) <= row') as Hlands.
  { intros u Hu Hun Hx. rewrite xOverlap_sym in Hx.
    destruct (pass_pre_bottom u Hu Hun Hx) as [Hb _].
    destruct (Z_le_gt_dec (bottom (deref st' u)) row') as [? | Hgt]; [done |].
    exfalso. apply (Hfree (bottom (deref st' u) - 1)); [lia |].
    right. exists u. split; [done |]. split.
    { unfold nonself. by rewrite (proj1 (Hbox u)). }
    destruct (pass_pre_in u Hu) as [Hu_in Hur].
    destruct (wf0 u Hu_in Hun) as [Hhu _].
    destruct (Hbox u) as (Hid & _ & _ & Hheq).
    apply collides_withY_iff. split; [| split; [| split]].
    - rewrite Hid. by apply ids0.
    - rewrite <- Hx. apply sameBox_xOverlap; [by repeat split | apply Hbox].
    - lia.
    - unfold bottom in *. lia. }
  split; simpl; fold st''.
  - rewrite accOf_snoc, Hacc.
    apply String.eqb_neq in r_nonself. by rewrite r_nonself.
  - subst st''. by rewrite length_insert.
  - intros u. destruct (decide (u = r)) as [-> | Hu].
    + rewrite Hd_r. apply sameBox_withY.
    + rewrite Hd_other by done. apply Hbox.
  - intros u Hu. rewrite Hd_other.
    + apply Hrest. intros Hin. apply Hu, List.in_or_app. by left.
    + intros ->. apply Hu, List.in_or_app. right. by left.
  - intros u Hu Hun. destruct (Hsnoc u Hu) as [Hpre | ->].
    + rewrite Hd_pre by done. by apply Hbound.
    + by rewrite Hd_r.
  - intros u w Hu Hw Hun Hwn Hx Habove.
    destruct (Hsnoc u Hu) as [Hupre | ->], (Hsnoc w Hw) as [Hwpre | ->].
    + rewrite !Hd_pre by done. by apply Horder.
    + rewrite Hd_pre, Hd_r by done. simpl. by apply Hlands.
    + pose proof (proj1 (sortAscY_split st pre suf r split_at) w Hwpre).
      unfold bottom in Habove. lia.
    + unfold bottom in Habove. lia.
  - intros u Hu Hun. destruct (Hsnoc u Hu) as [Hpre | ->].
    + rewrite Hd_pre by done. by apply Hclear.
    + rewrite Hd_r.
      destruct (overlaps previewItem (Item.withY cur row')) eqn:Hov; [| done].
      exfalso. apply (Hfree row'); [lia |]. left.
      unfold collides. rewrite overlaps_sym, Hov. simpl.
      assert (Item.id previewItem <> Item.id cur) as Hne by (by apply not_eq_sym).
      apply String.eqb_neq in Hne. by rewrite Hne.
  - intros u Hu Hun. destruct (Hsnoc u Hu) as [Hpre | ->].
    + rewrite Hd_pre by done.
      destruct (Hsupp u Hpre Hun) as [? | [Hb | [Hbelow Hfloat]]];
        [by left | right; left; by apply Hmono | right; right].
      split; [done |]. intros row Hrow Hblocked.
      destruct (Hnew _ Hblocked) as [Hold | Hc]; [by apply (Hfloat row) |].
      apply collides_withY_iff in Hc as (_ & Hx & _ & Hr2). simpl in Hr2.
      assert (xOverlap (deref st u) cur = true) as Hx'.
      { rewrite <- Hx. symmetry. apply sameBox_xOverlap;
          [apply Hbox | apply sameBox_withY]. }
      pose proof (Hlands u Hpre Hun Hx'). unfold bottom in *. lia.
    + rewrite Hd_r. unfold supported. simpl.
      assert (forall row, blockedIn previewItem st'' (pre ++ [r])
                            (Item.withY cur row) -> blockedAt row) as Hback.
      { intros row Hblocked. destruct (Hnew _ Hblocked) as [? | Hc]; [done |].
        apply collides_withY_iff in Hc as (Hid & _). by destruct Hid. }
      destruct Hsup' as [? | [Hb | [Hbelow Hfloat]]];
        [by left | right; left; by apply Hmono | right; right].
      split; [done |]. intros row Hrow Hblocked.
      by apply (Hfloat row), Hback.
Qed.

End Pass.

Lemma blockedIn_ext (previewItem : LayoutItem) (st : store) (pre pre' : list ref)
    (c : LayoutItem) :
  (forall u, In u pre -> In u pre') ->
  blockedIn previewItem st pre c -> blockedIn previewItem st pre' c.
Proof.
  intros Hsub [? | (u & Hu & Hrest)]; [by left | right].
  exists u. split; [by apply Hsub | done].
Qed.

(** The invariant holds when the pass ends. *)
Lemma compress_pass_inv (previewItem : LayoutItem) (st : store) :
  compactable previewItem st ->
  passInv previewItem st (sortAscY st (allRefs st))
    (foldl (compressStep previewItem) (st, [None]) (sortAscY st (allRefs st))).
Proof.
  intros (Hh & Hids & Hwf & Hfree & Hstraddle).
  assert (forall r, (r < length st)%nat ->
            Item.id (deref st r) <> Item.id previewItem ->
            1 <= Item.h (deref st r) /\ 0 <= Item.y (deref st r)) as Hwf'.
  { intros r Hr Hn. by apply Hwf. }
  assert (forall u v, (u < length st)%nat -> (v < length st)%nat -> u <> v ->
            Item.id (deref st u) <> Item.id previewItem ->
            Item.id (deref st v) <> Item.id previewItem ->
            overlaps (deref st u) (deref st v) = false) as Hfree'.
  { intros u v Hu Hv Huv Hun Hvn. by apply Hfree. }
  assert (forall r, (r < length st)%nat ->
            Item.id (deref st r) <> Item.id previewItem ->
            Item.y (deref st r) < Item.y previewItem < bottom (deref st r) ->
            overlaps previewItem (deref st r) = false) as Hstraddle'.
  { intros r Hr Hn. by apply Hstraddle. }
  apply (foldl_prefix_inv (compressStep previewItem) (passInv previewItem st)).
  - apply passInv_start.
  - intros pre r suf [st' acc] Hsplit Hinv.
    destruct (String.eqb_spec (Item.id (deref st r)) (Item.id previewItem))
      as [Heq | Hne].
    + eapply pass_step_self; [exact Hsplit | exact Hinv |].
      intros Hn. by apply Hn.
    + by eapply pass_step_nonself.
Qed.

(** A pass over a compactable store ends in a settled store. *)
Lemma compressItems_settles (previewItem : LayoutItem) (st : store) :
  compactable previewItem st ->
  settled previewItem (compressItems previewItem st).
Proof.
  intros Hc. pose proof (compress_pass_inv previewItem st Hc) as Hinv.
  destruct Hc as (Hh & Hids & Hwf & Hfree & Hstraddle).
  unfold compressItems.
  destruct (foldl _ _ _) as [st1 acc].
  destruct Hinv as [_ Hlen Hbox _ Hbound Horder Hclear Hsupp].
  simpl in *.
  assert (forall r, (r < length st1)%nat -> In r (sortAscY st (allRefs st))) as Hin.
  { intros r Hr. apply sortAscY_In. by rewrite <- Hlen. }
  assert (forall r, Item.id (deref st1 r) <> Item.id previewItem ->
                    Item.id (deref st r) <> Item.id previewItem) as Hns.
  { intros r Hr. by rewrite <- (proj1 (Hbox r)). }
  split; [| split; [| split; [| split]]].
  - intros i j Hij Hi Hj. rewrite (proj1 (Hbox i)), (proj1 (Hbox j)).
    apply Hids; [done | by rewrite <- Hlen | by rewrite <- Hlen].
  - intros r Hr Hn. destruct (Hbox r) as (_ & _ & _ & Hheq). rewrite Hheq.
    split.
    + apply Hwf. split; [by rewrite <- Hlen | by apply Hns].
    + apply Hbound; [by apply Hin | by apply Hns].
  - intros u v Hu Hv Huv Hun Hvn.
    destruct (overlaps (deref st1 u) (deref st1 v)) eqn:Hov; [| done].
    exfalso. apply overlaps_iff in Hov as (Hx & Hr1 & Hr2).
    rewrite (sameBox_xOverlap (deref st u) (deref st1 u) (deref st v) (deref st1 v))
      in Hx by apply Hbox.
    assert (overlaps (deref st u) (deref st v) = false) as Hov0.
    { apply Hfree; [split | split |]; rewrite <- ?Hlen; auto. }
    destruct (disjoint_rows _ _ Hov0 Hx) as [Hd | Hd].
    + pose proof (Horder u v (Hin u Hu) (Hin v Hv) (Hns u Hun) (Hns v Hvn) Hx Hd).
      lia.
    + rewrite xOverlap_sym in Hx.
      pose proof (Horder v u (Hin v Hv) (Hin u Hu) (Hns v Hvn) (Hns u Hun) Hx Hd).
      lia.
  - intros u Hu Hun. apply Hclear; [by apply Hin | by apply Hns].
  - intros u Hu Hun.
    assert (forall c, blockedIn previewItem st1 (sortAscY st (allRefs st)) c
                      <-> blockedIn previewItem st1 (allRefs st1) c) as Hext.
    { intros c. split; apply blockedIn_ext; intros w Hw.
      - apply In_allRefs. rewrite Hlen. by apply sortAscY_In.
      - apply Hin. by apply In_allRefs. }
    specialize (Hsupp u (Hin u Hu) (Hns u Hun)). unfold supported in *.
    rewrite <- Hext.
    destruct Hsupp as [? | [? | [? Hfloat]]]; [by left | right; by left |].
    right. right. split; [done |]. intros row Hrow. rewrite <- Hext.
    by apply Hfloat.
Qed.

(** C8. The claim fails on the code, by a defect of [compressItems].
    Moving [a] to (0, 1) settles the preview at row 2, across [t].  For
    [t], which starts above the preview's top row and reaches below it,
    the pass starts its scan at [previewItem.y + currentItem.h + 1], row
    5: a row inside the preview, which spans rows 2 to 8 (for an item
    that starts at or below the preview's top row the scan starts at
    [currentItem.y + previewItem.h + 1], below the preview).  The scan
    stops at once, [t] is left at row 6, inside the preview, and a
    second pass with the same preview moves it again, to row 9: the
    result of the first pass is not a fixed point. *)
Lemma compaction_not_idempotent :
  movePreviewWithCollisionsWithCompress (mkItem "a" 0 10 3 7) leaning 0%nat 0 1
  = ([mkItem "a" 0 2 3 7; mkItem "s" 0 0 1 2; mkItem "t" 1 6 1 2],
     mkItem "a" 0 2 3 7)
  /\ compressItems (mkItem "a" 0 2 3 7) leaning
     = [mkItem "a" 0 10 3 7; mkItem "s" 0 0 1 2; mkItem "t" 1 6 1 2]
  /\ overlaps (mkItem "a" 0 2 3 7) (mkItem "t" 1 6 1 2) = true
  /\ compressItems (mkItem "a" 0 2 3 7)
       (compressItems (mkItem "a" 0 2 3 7) leaning)
     = [mkItem "a" 0 10 3 7; mkItem "s" 0 0 1 2; mkItem "t" 1 9 1 2].
Proof. by repeat split. Qed.

(** The preview at the top of the gapped layout. *)
Lemma compactable_gapped : compactable (mkItem "a" 0 0 1 2) gapped.
Proof.
  unfold compactable, other.
  split; [simpl; lia |]. split; [| split; [| split]].
  - intros i j Hij Hi Hj. simpl in Hi, Hj.
    destruct i as [| [| i]], j as [| [| j]]; try lia; discriminate.
  - intros r [Hr Hid]. simpl in Hr.
    destruct r as [| [| r]]; [by destruct Hid | simpl; lia | lia].
  - intros u v [Hu Hun] [Hv Hvn] Huv. simpl in Hu, Hv.
    destruct u as [| [| u]], v as [| [| v]]; try lia;
      (by destruct Hun) || (by destruct Hvn).
  - intros r [Hr Hid] Hrows. simpl in Hr.
    destruct r as [| [| r]]; [by destruct Hid | | lia].
    unfold bottom in Hrows. simpl in Hrows. lia.
Qed.

(** X18. Where the defect does not strike, a pass of [compressItems] ends
    in a fixed point: on a compactable store -- distinct ids, heights at
    least 1, rows at least 0, no overlap among the items other than the
    component's own, and no such item that both straddles the preview's
    top row and overlaps the preview -- a second pass with the same
    preview changes nothing. *)
Theorem compaction_idempotent (previewItem : LayoutItem) (st : store) :
  compactable previewItem st ->
  compressItems previewItem (compressItems previewItem st)
  = compressItems previewItem st.
Proof.
  intros Hc. apply compressItems_settled; [apply Hc |].
  by apply compressItems_settles.
Qed.

Lemma compaction_idempotent_witness :
  compressItems (mkItem "a" 0 0 1 2) gapped
  = [mkItem "a" 0 0 1 2; mkItem "b" 0 2 1 1]
  /\ compressItems (mkItem "a" 0 0 1 2) (compressItems (mkItem "a" 0 0 1 2) gapped)
     = compressItems (mkItem "a" 0 0 1 2) gapped.
Proof.
  split; [reflexivity |].
  apply compaction_idempotent. apply compactable_gapped.
Defined.

(** ** The no-overlap invariant over a step *)

(** X20. Where the defect of [compressItems] does not strike, the pass
    ends without overlap: after a pass over a compactable store whose
    ids are distinct, applying the preview to the component's own item
    leaves no overlapping pair, distinct ids, the same number of objects
    and the component's item under its id. *)
Lemma compress_apply_overlapFree (previewItem : LayoutItem) (st : store)
    (item : ref) :
  distinctIds st ->
  (item < length st)%nat ->
  Item.id (deref st item) = Item.id previewItem ->
  compactable previewItem st ->
  let st' := applyPreview (compressItems previewItem st) item previewItem in
  overlapFree st' /\ distinctIds st'
  /\ length st' = length st
  /\ Item.id (deref st' item) = Item.id previewItem.
Proof.
  intros Hids Hitem Hid Hc.
  pose proof (compress_pass_inv previewItem st Hc) as Hinv.
  pose proof (compressItems_settles previewItem st Hc) as Hset.
  unfold compressItems in *. destruct (foldl _ _ _) as [st1 acc].
  destruct Hinv as [_ Hlen Hbox _ _ _ _ _].
  destruct Hset as (_ & _ & Hfree & Hclear & _). simpl in *.
  unfold applyPreview.
  set (self' := Item.withWH _ _ _).
  assert (forall r, Item.id (deref (<[item := self']> st1) r)
                    = Item.id (deref st r)) as Hids'.
  { intros r. rewrite <- (proj1 (Hbox r)). by apply deref_insert_field. }
  assert (forall r, (r < length st)%nat -> r <> item ->
            Item.id (deref st1 r) <> Item.id previewItem) as Hother.
  { intros r Hr Hne. rewrite (proj1 (Hbox r)), <- Hid. by apply Hids. }
  split; [| split; [| split]].
  - intros i j Hij Hi Hj. rewrite length_insert, Hlen in Hi, Hj.
    destruct (decide (i = item)) as [-> | Hni], (decide (j = item)) as [-> | Hnj].
    + done.
    + rewrite deref_insert_eq by (by rewrite Hlen).
      rewrite deref_insert_ne by done.
      rewrite (overlaps_rect previewItem self') by done.
      apply Hclear; [by rewrite Hlen | by apply Hother].
    + rewrite deref_insert_eq by (by rewrite Hlen).
      rewrite deref_insert_ne by done.
      rewrite overlaps_sym, (overlaps_rect previewItem self') by done.
      apply Hclear; [by rewrite Hlen | by apply Hother].
    + rewrite !deref_insert_ne by done.
      apply Hfree; rewrite ?Hlen; auto.
  - intros i j Hij Hi Hj. rewrite length_insert, Hlen in Hi, Hj.
    rewrite !Hids'. by apply Hids.
  - by rewrite length_insert.
  - by rewrite Hids'.
Qed.

Lemma distinctIds_gapped : distinctIds gapped.
Proof.
  intros i j Hij Hi Hj. simpl in Hi, Hj.
  destruct i as [| [| i]], j as [| [| j]]; try lia; discriminate.
Qed.

Lemma compress_apply_overlapFree_witness :
  let st' := applyPreview (compressItems (mkItem "a" 0 0 1 2) gapped) 0%nat
               (mkItem "a" 0 0 1 2) in
  st' = [mkItem "a" 0 0 1 2; mkItem "b" 0 2 1 1] /\ overlapFree st'.
Proof.
  split; [reflexivity |].
  apply (compress_apply_overlapFree (mkItem "a" 0 0 1 2) gapped 0%nat).
  - apply distinctIds_gapped.
  - simpl. lia.
  - reflexivity.
  - apply compactable_gapped.
Defined.

(** A push-mode sample on an unbounded grid keeps the grid parameters and
    the two properties of the store. *)
Lemma push_sample_keeps_overlap_free
    (snapM snapR : Z -> Z -> LayoutItem -> GridParams.t -> Z * Z)
    (g g' : GridParams.t) :
  GridParams.collision g = CollisionPush ->
  GridParams.maxCols g = None ->
  GridParams.maxRows g = None ->
  distinctIds (GridParams.items g) ->
  overlapFree (GridParams.items g) ->
  sample snapM snapR g g' ->
  GridParams.collision g' = CollisionPush
  /\ GridParams.maxCols g' = None
  /\ GridParams.maxRows g' = None
  /\ distinctIds (GridParams.items g')
  /\ overlapFree (GridParams.items g').
Proof.
  intros Hmode Hcols Hrows Hids Hfree Hsample.
  destruct Hsample as [g g' c c' event Hitem Hid Hdone
                      | g g' c c' event Hitem Hid Hdone].
  - unfold move in Hdone.
    destruct (GridParams.itemSize g) as [sz |]; [| discriminate].
    destruct (movePoint g c event) as [l t]. simpl in Hdone.
    destruct (snapM l t (Comp.previewItem c) g) as [nx ny].
    rewrite Hmode in Hdone. unfold movePreviewWithCollisions in Hdone.
    rewrite Hmode in Hdone. unfold commit in Hdone. simpl in Hdone.
    injection Hdone as <- _. simpl.
    repeat split; try done; rewrite Hcols, Hrows;
      apply (push_step_overlapFree None None (Comp.previewItem c)
               (Attrs.mk (Some nx) (Some ny) None None) (GridParams.items g)
               (Comp.item c) Hids Hfree Hitem Hid);
      apply pushAllPlaced_unbounded.
  - unfold resize in Hdone.
    destruct (GridParams.itemSize g) as [sz |]; [| discriminate].
    destruct (resizeRect g c event) as [[[l t] wd] ht]. simpl in Hdone.
    destruct (resizeSnap _ _ _ _) as [[[nx0 ny0] nw] nh].
    rewrite Hmode in Hdone. unfold resizePreviewWithCollisions in Hdone.
    simpl in Hdone.
    destruct (snapM l t (Comp.previewItem c) g) as [nx ny].
    rewrite Hmode in Hdone. unfold commit in Hdone. simpl in Hdone.
    injection Hdone as <- _. simpl.
    repeat split; try done; rewrite Hcols, Hrows;
      apply (push_step_overlapFree None None (Comp.previewItem c)
               (Attrs.mk (Some nx) (Some ny) (Some nw) (Some nh))
               (GridParams.items g) (Comp.item c) Hids Hfree Hitem Hid);
      apply pushAllPlaced_unbounded.
Qed.

(** C1, amended.  Push mode, from a store with pairwise distinct ids in
    which no two objects overlap and the component's item carries the
    preview's id:
    - a sample in which every collider finds a free cell -- as is always
      the case on a grid with neither [maxCols] nor [maxRows] -- ends with
      no overlapping pair, with distinct ids and with the component's item
      under its id, so the statement applies again to the next sample;
    - hence on a grid with neither [maxCols] nor [maxRows], after every
      sequence of move and resize samples no two objects overlap.
    Nothing is stated about compress mode. *)
Theorem resolved_step_keeps_overlap_free
    (snapM snapR : Z -> Z -> LayoutItem -> GridParams.t -> Z * Z)
    (maxCols maxRows : option Z) (previewItem : LayoutItem) (attrs : Attrs.t)
    (st : store) (item : ref) (g g' : GridParams.t) :
  (distinctIds st ->
   (item < length st)%nat ->
   Item.id (deref st item) = Item.id previewItem ->
   overlapFree st ->
   (maxCols = None /\ maxRows = None)
   \/ pushAllPlaced maxCols maxRows previewItem attrs st
        (pushCollItems previewItem attrs st) = true ->
   let st' := fst (handleCollisionsForPreviewItemWithPush maxCols maxRows
                     previewItem attrs st item) in
   overlapFree st' /\ distinctIds st'
   /\ length st' = length st
   /\ Item.id (deref st' item) = Item.id previewItem)
  /\
  (GridParams.collision g = CollisionPush ->
   GridParams.maxCols g = None ->
   GridParams.maxRows g = None ->
   distinctIds (GridParams.items g) ->
   overlapFree (GridParams.items g) ->
   run snapM snapR g g' ->
   overlapFree (GridParams.items g') /\ distinctIds (GridParams.items g')).
Proof.
  split.
  - intros Hids Hitem Hid Hfree Hplaced.
    apply push_step_overlapFree; try done.
    destruct Hplaced as [[-> ->] | Hall]; [| done].
    apply pushAllPlaced_unbounded.
  - intros Hmode Hcols Hrows Hids Hfree Hrun.
    assert (GridParams.collision g' = CollisionPush
            /\ GridParams.maxCols g' = None
            /\ GridParams.maxRows g' = None
            /\ distinctIds (GridParams.items g')
            /\ overlapFree (GridParams.items g')) as (_ & _ & _ & Hids' & Hfree');
      [| by split].
    induction Hrun as [g | g g1 g2 Hrun IH Hsample]; [done |].
    destruct (IH Hmode Hcols Hrows Hids Hfree) as (Hm & Hc & Hr & Hi & Hf).
    by apply (push_sample_keeps_overlap_free snapM snapR g1 g2).
Qed.

Lemma distinctIds_threeInRow : distinctIds threeInRow.
Proof.
  intros i j Hij Hi Hj. simpl in Hi, Hj.
  destruct i as [| [| [| i]]], j as [| [| [| j]]]; try lia; discriminate.
Qed.

Lemma overlapFree_threeInRow : overlapFree threeInRow.
Proof.
  intros i j Hij Hi Hj. simpl in Hi, Hj.
  destruct i as [| [| [| i]]], j as [| [| [| j]]]; try lia; reflexivity.
Qed.

Lemma distinctIds_sideBySide : distinctIds sideBySide.
Proof.
  intros i j Hij Hi Hj. simpl in Hi, Hj.
  destruct i as [| [| i]], j as [| [| j]]; try lia; discriminate.
Qed.

Lemma overlapFree_sideBySide : overlapFree sideBySide.
Proof.
  intros i j Hij Hi Hj. simpl in Hi, Hj.
  destruct i as [| [| i]], j as [| [| j]]; try lia; reflexivity.
Qed.

Lemma resolved_step_keeps_overlap_free_witness :
  (let st' := fst (handleCollisionsForPreviewItemWithPush None None
                     (mkItem "a" 0 0 1 1) widenA threeInRow 0%nat) in
   st' = [mkItem "a" 0 0 3 1; mkItem "b" 3 0 1 1; mkItem "c" 4 0 1 1]
   /\ overlapFree st')
  /\
  (exists g',
     run snapOnMove snapOnResize (fst (draggingA CollisionPush)) g'
     /\ GridParams.items g' = [mkItem "a" 0 0 2 1; mkItem "b" 2 0 1 1]
     /\ overlapFree (GridParams.items g')).
Proof.
  split.
  - split; [reflexivity |].
    apply (proj1 (resolved_step_keeps_overlap_free snapOnMove snapOnResize
                    None None (mkItem "a" 0 0 1 1) widenA threeInRow 0%nat
                    unmountedGrid unmountedGrid) distinctIds_threeInRow
                 (le_n_S _ _ (Nat.le_0_l _)) eq_refl).
    + apply overlapFree_threeInRow.
    + left. split; reflexivity.
  - assert (exists g',
              run snapOnMove snapOnResize (fst (draggingA CollisionPush)) g'
              /\ GridParams.items g' = [mkItem "a" 0 0 2 1; mkItem "b" 2 0 1 1])
      as (g' & Hrun & Hitems).
    { eexists. split.
      - eapply run_step; [eapply run_step; [apply run_nil |] |].
        + eapply (sample_move _ _ _ _ (snd (draggingA CollisionPush)) _
                    (pointerAt 160 50)); [simpl; lia | reflexivity |].
          vm_compute. reflexivity.
        + eapply (sample_resize _ _ _ _
                    (snd (resizeStart
                            (mkGrid [mkItem "a" 1 0 1 1; mkItem "b" 0 0 1 1]
                               CollisionPush None None,
                             mkComp 0 (mkItem "a" 1 0 1 1))
                            (PointerEvent.mk 200 90 0 (Some "sw"%string))))
                    _ (pointerAt 90 90)); [simpl; lia | reflexivity |].
          vm_compute. reflexivity.
      - reflexivity. }
    exists g'. split; [exact Hrun |]. split; [exact Hitems |].
    apply (proj2 (resolved_step_keeps_overlap_free snapOnMove snapOnResize
                    None None (mkItem "a" 0 0 1 1) widenA threeInRow 0%nat
                    (fst (draggingA CollisionPush)) g')
                 eq_refl eq_refl eq_refl distinctIds_sideBySide
                 overlapFree_sideBySide Hrun).
Defined.

(** * Further properties of the component *)

(** ** The pixel rectangle of a sample *)

(** Whatever the collision mode, a move sample on a mounted grid ends,
    and leaves in [left], [top] the clamped pointer position; [width] and
    [height] are not touched. *)
Lemma move_rect (snapM : Z -> Z -> LayoutItem -> GridParams.t -> Z * Z)
    (g : GridParams.t) (c : Comp.t) (event : PointerEvent.t) (sz : ItemSize.t) :
  GridParams.itemSize g = Some sz ->
  exists g' c',
    move snapM (g, c) event = Done (g', c')
    /\ Comp.left c' = fst (movePoint g c event)
    /\ Comp.top c' = snd (movePoint g c event)
    /\ Comp.width c' = Comp.width c
    /\ Comp.height c' = Comp.height c.
Proof.
  intros Hsz. unfold move. rewrite Hsz.
  destruct (movePoint g c event) as [l t]. simpl.
  destruct (snapM l t (Comp.previewItem c) g) as [nx ny].
  destruct (GridParams.collision g) eqn:Hmode.
  - destruct (negb _); by eexists _, _.
  - unfold movePreviewWithCollisions, commit. rewrite Hmode. by eexists _, _.
  - unfold movePreviewWithCollisions, commit. rewrite Hmode. by eexists _, _.
Qed.

(** The same for a resize sample: the four fields hold the rectangle
    computed from the pointer, the size limits and the bounds. *)
Lemma resize_rect (snapM snapR : Z -> Z -> LayoutItem -> GridParams.t -> Z * Z)
    (g : GridParams.t) (c : Comp.t) (event : PointerEvent.t) (sz : ItemSize.t) :
  GridParams.itemSize g = Some sz ->
  exists g' c',
    resize snapM snapR (g, c) event = Done (g', c')
    /\ (Comp.left c', Comp.top c', Comp.width c', Comp.height c')
       = resizeRect g c event.
Proof.
  intros Hsz. unfold resize. rewrite Hsz.
  destruct (resizeRect g c event) as [[[l t] wd] ht]. simpl.
  destruct (resizeSnap _ _ _ _) as [[[nx ny] nw] nh].
  destruct (GridParams.collision g) eqn:Hmode.
  - destruct (negb _); by eexists _, _.
  - unfold resizePreviewWithCollisions, commit. simpl.
    destruct (snapM l t (Comp.previewItem c) g). rewrite Hmode. by eexists _, _.
  - unfold resizePreviewWithCollisions, commit. simpl.
    destruct (snapM l t (Comp.previewItem c) g). rewrite Hmode. by eexists _, _.
Qed.

(** X1. With [bounds] on, a move sample keeps the item's pixel rectangle
    inside the rectangle of [boundsTo], provided the item is not larger
    than that rectangle. *)
Theorem move_stays_within_bounds
    (snapM : Z -> Z -> LayoutItem -> GridParams.t -> Z * Z)
    (g : GridParams.t) (c : Comp.t) (event : PointerEvent.t) (sz : ItemSize.t)
    (parentRect : DOMRect.t) :
  GridParams.itemSize g = Some sz ->
  GridParams.bounds g = true ->
  GridParams.boundsTo g = Some parentRect ->
  Comp.width c <= DOMRect.right parentRect - DOMRect.left parentRect ->
  Comp.height c <= DOMRect.bottom parentRect - DOMRect.top parentRect ->
  exists g' c',
    move snapM (g, c) event = Done (g', c')
    /\ DOMRect.left parentRect <= Comp.left c'
    /\ Comp.left c' + Comp.width c' <= DOMRect.right parentRect
    /\ DOMRect.top parentRect <= Comp.top c'
    /\ Comp.top c' + Comp.height c' <= DOMRect.bottom parentRect.
Proof.
  intros Hsz Hb Hto Hw Hh.
  destruct (move_rect snapM g c event sz Hsz) as (g' & c' & Hmove & Hl & Ht & Hwd & Hht).
  exists g', c'. split; [done |]. rewrite Hl, Ht, Hwd, Hht.
  unfold movePoint, clampMove. rewrite Hb, Hto. simpl.
  repeat match goal with
         | |- context [if ?b then _ else _] => destruct b eqn:?
         end;
    rewrite ?Z.ltb_lt, ?Z.ltb_ge in *; lia.
Qed.

Lemma move_stays_within_bounds_witness :
  exists g' c',
    move snapOnMove
      (moveStart (boundedGrid, mkComp 0 (mkItem "a" 0 0 1 1)) (pointerAt 50 50))
      (pointerAt 900 50) = Done (g', c')
    /\ 0 <= Comp.left c'
    /\ Comp.left c' + Comp.width c' <= 330
    /\ 0 <= Comp.top c'
    /\ Comp.top c' + Comp.height c' <= 110.
Proof.
  apply (move_stays_within_bounds snapOnMove boundedGrid _ (pointerAt 900 50)
           (ItemSize.mk 100 100) (DOMRect.mk 0 0 330 110));
    [reflexivity | reflexivity | reflexivity | simpl; lia | simpl; lia].
Defined.

(** X2. With [bounds] on, a resize sample keeps the item's pixel
    rectangle inside the rectangle of [boundsTo], with a non-negative
    width and height, whatever the pointer position and the handle,
    provided the rectangle recorded at [resizeStart] lies inside
    [boundsTo] and [minSize] is set, with non-negative sides, as
    [maxSize] when set.  (Pixel quantities are integers here.) *)
Theorem resize_stays_within_bounds
    (snapM snapR : Z -> Z -> LayoutItem -> GridParams.t -> Z * Z)
    (g : GridParams.t) (c : Comp.t) (event : PointerEvent.t) (sz : ItemSize.t)
    (parentRect : DOMRect.t) (mn : ItemSize.t) :
  GridParams.itemSize g = Some sz ->
  GridParams.bounds g = true ->
  GridParams.boundsTo g = Some parentRect ->
  Comp.minSize c = Some mn ->
  0 <= ItemSize.width mn /\ 0 <= ItemSize.height mn ->
  (forall mx, Comp.maxSize c = Some mx ->
     0 <= ItemSize.width mx /\ 0 <= ItemSize.height mx) ->
  DOMRect.left parentRect <= Point.left (Comp.initialPosition c)
  /\ 0 <= ItemSize.width (Comp.initialSize c)
  /\ Point.left (Comp.initialPosition c) + ItemSize.width (Comp.initialSize c)
     <= DOMRect.right parentRect ->
  DOMRect.top parentRect <= Point.top (Comp.initialPosition c)
  /\ 0 <= ItemSize.height (Comp.initialSize c)
  /\ Point.top (Comp.initialPosition c) + ItemSize.height (Comp.initialSize c)
     <= DOMRect.bottom parentRect ->
  exists g' c',
    resize snapM snapR (g, c) event = Done (g', c')
    /\ DOMRect.left parentRect <= Comp.left c'
    /\ 0 <= Comp.width c'
    /\ Comp.left c' + Comp.width c' <= DOMRect.right parentRect
    /\ DOMRect.top parentRect <= Comp.top c'
    /\ 0 <= Comp.height c'
    /\ Comp.top c' + Comp.height c' <= DOMRect.bottom parentRect.
Proof.
  intros Hsz Hb Hto Hmin Hmn Hmx Hhor Hver.
  destruct (resize_rect snapM snapR g c event sz Hsz) as (g' & c' & Hres & Hrect).
  exists g', c'. split; [done |].
  unfold resizeRect, applyBounds, applyMaxSize, applyMinSize, resizeByDirection,
    westHandle, northHandle in Hrect.
  rewrite Hb, Hto, Hmin in Hrect.
  assert (forall mx, Comp.maxSize c = Some mx ->
            0 <= ItemSize.width mx /\ 0 <= ItemSize.height mx) as Hmx' by done.
  destruct (String.eqb (Comp.resizeDirection c) "se") eqn:Hse;
    destruct (String.eqb (Comp.resizeDirection c) "sw") eqn:Hsw;
    destruct (String.eqb (Comp.resizeDirection c) "ne") eqn:Hne;
    destruct (String.eqb (Comp.resizeDirection c) "nw") eqn:Hnw;
    rewrite ?String.eqb_eq in *;
    try congruence;
    simpl in Hrect;
    destruct (Comp.maxSize c) as [mx |];
    try (specialize (Hmx' mx eq_refl));
    repeat match type of Hrect with
           | context [if ?b then _ else _] => destruct b eqn:?
           end;
    injection Hrect as Hl Ht Hw Hh;
    rewrite ?Z.ltb_lt, ?Z.ltb_ge in *; lia.
Qed.

Lemma resize_stays_within_bounds_witness :
  exists g' c',
    resize snapOnMove snapOnResize
      (resizeStart (boundedGrid, mkComp 0 (mkItem "a" 0 0 1 1)) (pointerAt 90 90))
      (pointerAt 900 900) = Done (g', c')
    /\ 0 <= Comp.left c'
    /\ 0 <= Comp.width c'
    /\ Comp.left c' + Comp.width c' <= 330
    /\ 0 <= Comp.top c'
    /\ 0 <= Comp.height c'
    /\ Comp.top c' + Comp.height c' <= 110.
Proof.
  apply (resize_stays_within_bounds snapOnMove snapOnResize boundedGrid _
           (pointerAt 900 900) (ItemSize.mk 100 100) (DOMRect.mk 0 0 330 110)
           (ItemSize.mk 100 100)).
  - reflexivity.
  - reflexivity.
  - reflexivity.
  - reflexivity.
  - simpl. lia.
  - intros mx Hmx. discriminate Hmx.
  - simpl. lia.
  - simpl. lia.
Defined.

(** The rectangle asked for before the bounds are applied. *)
Lemma resizeRect_unbounded (g : GridParams.t) (c : Comp.t) (event : PointerEvent.t) :
  GridParams.bounds g = false ->
  resizeRect g c event
  = applyMaxSize c
      (applyMinSize c
         (resizeByDirection c
            (PointerEvent.pageX event - Point.left (Comp.initialPointerPosition c))
            (PointerEvent.pageY event - Point.top (Comp.initialPointerPosition c)))).
Proof.
  intros Hb. unfold resizeRect, applyBounds.
  destruct (applyMaxSize c _) as [[[l t] wd] ht]. by rewrite Hb.
Qed.

(** X3. Without bounds and on integer pixel quantities, a resize sample
    keeps the corner opposite to the handle where it was when the resize
    started: with a west handle (['sw'], ['nw']) the right edge
    [left + width] is the initial one, otherwise [left] is; with a north
    handle (['ne'], ['nw']) the bottom edge [top + height] is the initial
    one, otherwise [top] is.  The size limits do not move that corner.
    (On fractional pixels the sums [left + width] and [top + height] are
    rounded, and the equalities hold up to that rounding only.) *)
Theorem resize_keeps_opposite_corner
    (snapM snapR : Z -> Z -> LayoutItem -> GridParams.t -> Z * Z)
    (g : GridParams.t) (c : Comp.t) (event : PointerEvent.t) (sz : ItemSize.t) :
  GridParams.itemSize g = Some sz ->
  GridParams.bounds g = false ->
  exists g' c',
    resize snapM snapR (g, c) event = Done (g', c')
    /\ (if String.eqb (Comp.resizeDirection c) "sw"
           || String.eqb (Comp.resizeDirection c) "nw"
        then Comp.left c' + Comp.width c'
             = Point.left (Comp.initialPosition c)
               + ItemSize.width (Comp.initialSize c)
        else Comp.left c' = Point.left (Comp.initialPosition c))
    /\ (if String.eqb (Comp.resizeDirection c) "ne"
           || String.eqb (Comp.resizeDirection c) "nw"
        then Comp.top c' + Comp.height c'
             = Point.top (Comp.initialPosition c)
               + ItemSize.height (Comp.initialSize c)
        else Comp.top c' = Point.top (Comp.initialPosition c)).
Proof.
  intros Hsz Hb.
  destruct (resize_rect snapM snapR g c event sz Hsz) as (g' & c' & Hres & Hrect).
  exists g', c'. split; [done |].
  rewrite resizeRect_unbounded in Hrect by done.
  unfold applyMaxSize, applyMinSize, resizeByDirection, westHandle, northHandle
    in Hrect.
  destruct (String.eqb (Comp.resizeDirection c) "se") eqn:Hse;
    destruct (String.eqb (Comp.resizeDirection c) "sw") eqn:Hsw;
    destruct (String.eqb (Comp.resizeDirection c) "ne") eqn:Hne;
    destruct (String.eqb (Comp.resizeDirection c) "nw") eqn:Hnw;
    rewrite ?String.eqb_eq in *;
    try congruence;
    simpl in Hrect |- *;
    destruct (Comp.minSize c) as [mn |], (Comp.maxSize c) as [mx |];
    repeat match type of Hrect with
           | context [if ?b then _ else _] => destruct b eqn:?
           end;
    injection Hrect as Hl Ht Hw Hh; lia.
Qed.

(** X4. Without bounds, the pixel size of a resize sample respects the
    size limits: it is not above [maxSize] when there is one, and not
    below [minSize] when there is one and it does not exceed [maxSize]. *)
Theorem resize_respects_pixel_limits
    (snapM snapR : Z -> Z -> LayoutItem -> GridParams.t -> Z * Z)
    (g : GridParams.t) (c : Comp.t) (event : PointerEvent.t) (sz : ItemSize.t) :
  GridParams.itemSize g = Some sz ->
  GridParams.bounds g = false ->
  exists g' c',
    resize snapM snapR (g, c) event = Done (g', c')
    /\ (forall mx, Comp.maxSize c = Some mx ->
          Comp.width c' <= ItemSize.width mx
          /\ Comp.height c' <= ItemSize.height mx)
    /\ (forall mn, Comp.minSize c = Some mn ->
          (forall mx, Comp.maxSize c = Some mx ->
             ItemSize.width mn <= ItemSize.width mx
             /\ ItemSize.height mn <= ItemSize.height mx) ->
          ItemSize.width mn <= Comp.width c'
          /\ ItemSize.height mn <= Comp.height c').
Proof.
  intros Hsz Hb.
  destruct (resize_rect snapM snapR g c event sz Hsz) as (g' & c' & Hres & Hrect).
  exists g', c'. split; [done |].
  rewrite resizeRect_unbounded in Hrect by done.
  destruct (resizeByDirection c _ _) as [[[l t] wd] ht].
  unfold applyMaxSize, applyMinSize in Hrect.
  split.
  - intros mx Hmx. rewrite Hmx in Hrect.
    destruct (Comp.minSize c) as [mn |];
      repeat match type of Hrect with
             | context [if ?b then _ else _] => destruct b eqn:?
             end;
      injection Hrect as Hl Ht Hw Hh;
      rewrite ?Z.ltb_lt, ?Z.ltb_ge in *; lia.
  - intros mn Hmn Hle. rewrite Hmn in Hrect.
    destruct (Comp.maxSize c) as [mx |].
    + destruct (Hle mx eq_refl) as [Hmw Hmh].
      repeat match type of Hrect with
             | context [if ?b then _ else _] => destruct b eqn:?
             end;
        injection Hrect as Hl Ht Hw Hh;
        rewrite ?Z.ltb_lt, ?Z.ltb_ge in *; lia.
    + repeat match type of Hrect with
             | context [if ?b then _ else _] => destruct b eqn:?
             end;
        injection Hrect as Hl Ht Hw Hh;
        rewrite ?Z.ltb_lt, ?Z.ltb_ge in *; lia.
Qed.

Lemma resize_keeps_opposite_corner_witness :
  exists g' c',
    resize snapOnMove snapOnResize resizingNW (pointerAt 60 40) = Done (g', c')
    /\ Comp.left c' + Comp.width c' = 210
    /\ Comp.top c' + Comp.height c' = 100.
Proof.
  exact (resize_keeps_opposite_corner snapOnMove snapOnResize
           (fst resizingNW) (snd resizingNW) (pointerAt 60 40)
           (ItemSize.mk 100 100) eq_refl eq_refl).
Defined.

Lemma resize_respects_pixel_limits_witness :
  exists g' c',
    resize snapOnMove snapOnResize resizingNW (pointerAt 180 70) = Done (g', c')
    /\ 100 <= Comp.width c' /\ 100 <= Comp.height c'.
Proof.
  destruct (resize_respects_pixel_limits snapOnMove snapOnResize
              (fst resizingNW) (snd resizingNW) (pointerAt 180 70)
              (ItemSize.mk 100 100) eq_refl eq_refl)
    as (g' & c' & Hres & _ & Hmin).
  exists g', c'. split; [exact Hres |].
  apply (Hmin (ItemSize.mk 100 100) eq_refl). intros mx Hmx. discriminate Hmx.
Defined.

(** The size a resize sample asks for is within the limits. *)
Lemma resizeSnap_withinLimits
    (snapM snapR : Z -> Z -> LayoutItem -> GridParams.t -> Z * Z)
    (g : GridParams.t) (c : Comp.t) (p : LayoutItem) :
  Item.w p = snd (fst (resizeSnap snapM snapR g c)) ->
  Item.h p = snd (resizeSnap snapM snapR g c) ->
  withinLimits c p.
Proof.
  unfold resizeSnap.
  destruct (snapR _ _ _ _) as [sw sh].
  destruct (if includes _ "w" || includes _ "n" then _ else _) as [nx ny].
  destruct (Comp.max c) as [mx |] eqn:Hmax; simpl; intros Hw Hh;
    unfold withinLimits; rewrite Hmax, Hw, Hh.
  - split.
    + intros mx' [= <-]. lia.
    + intros Hle. destruct (Hle mx eq_refl). lia.
  - split; [intros mx' [=] |]. intros _. lia.
Qed.

(** X5. A resize sample keeps the preview's size in grid units within
    the component's [min] and [max], in every collision mode: if the
    preview is within the limits before the sample, it is after it. *)
Theorem resize_keeps_preview_within_limits
    (snapM snapR : Z -> Z -> LayoutItem -> GridParams.t -> Z * Z)
    (g : GridParams.t) (c : Comp.t) (event : PointerEvent.t) (sz : ItemSize.t) :
  GridParams.itemSize g = Some sz ->
  withinLimits c (Comp.previewItem c) ->
  exists g' c',
    resize snapM snapR (g, c) event = Done (g', c')
    /\ Comp.min c' = Comp.min c /\ Comp.max c' = Comp.max c
    /\ withinLimits c' (Comp.previewItem c').
Proof.
  intros Hsz Hin. unfold resize. rewrite Hsz.
  destruct (resizeRect g c event) as [[[l t] wd] ht]. simpl.
  set (c1 := Comp.withRect c l t wd ht).
  pose proof (resizeSnap_withinLimits snapM snapR g c1) as Hsnap.
  destruct (resizeSnap snapM snapR g c1) as [[[nx ny] nw] nh]. simpl in Hsnap.
  destruct (GridParams.collision g) eqn:Hmode.
  - destruct (negb _); eexists _, _; (split; [reflexivity |]);
      (split; [reflexivity |]); (split; [reflexivity |]).
    + by apply (Hsnap (Item.withWH (Item.withXY (Comp.previewItem c) nx ny) nw nh)).
    + exact Hin.
  - unfold resizePreviewWithCollisions, commit. simpl.
    destruct (snapM l t (Comp.previewItem c) g) as [mx my]. rewrite Hmode.
    eexists _, _. split; [reflexivity |]. split; [reflexivity |].
    split; [reflexivity |].
    by apply (Hsnap (assignAttrs (Comp.previewItem c)
                       (Attrs.mk (Some mx) (Some my) (Some nw) (Some nh)))).
  - unfold resizePreviewWithCollisions, commit. simpl.
    destruct (snapM l t (Comp.previewItem c) g) as [mx my]. rewrite Hmode.
    eexists _, _. split; [reflexivity |]. split; [reflexivity |].
    split; [reflexivity |].
    unfold resizeCompressAt.
    destruct (negb _ || negb _ || negb _ || negb _); simpl.
    + by apply (Hsnap (Item.withWH (Item.withXY (Comp.previewItem c) mx my) nw nh)).
    + exact Hin.
Qed.

Lemma resize_keeps_preview_within_limits_witness :
  exists g' c',
    resize snapOnMove snapOnResize resizingNW (pointerAt 60 40) = Done (g', c')
    /\ Comp.min c' = Size.mk 1 1 /\ Comp.max c' = None
    /\ withinLimits c' (Comp.previewItem c').
Proof.
  apply (resize_keeps_preview_within_limits snapOnMove snapOnResize
           (fst resizingNW) (snd resizingNW) (pointerAt 60 40)
           (ItemSize.mk 100 100)).
  - reflexivity.
  - split.
    + intros mx Hmx. discriminate Hmx.
    + intros _. simpl. lia.
Defined.

(** ** Compaction: what a pass may change *)

Lemma visited_refl (previewItem v : LayoutItem) : visited previewItem v v.
Proof.
  unfold visited, rowOnly. rewrite withY_same. repeat split; auto; lia.
Qed.

Lemma visited_row (previewItem v : LayoutItem) (row : Z) :
  Item.id v <> Item.id previewItem ->
  (Item.y v + Item.h v <= Item.y previewItem ->
   row <= Item.y v /\ 2 <= row) ->
  visited previewItem v (Item.withY v row).
Proof.
  intros Hid Hrow. unfold visited, rowOnly. split; [by destruct v |].
  split; [done |]. intros Habove. simpl. destruct (Hrow Habove). lia.
Qed.

Lemma compressStep_length (previewItem : LayoutItem)
    (s : store * list (option ref)) (r : ref) :
  length (fst (compressStep previewItem s r)) = length (fst s).
Proof.
  destruct s as [st acc]. unfold compressStep.
  repeat case_match; simpl; by rewrite ?length_insert.
Qed.

Lemma compressStep_others (previewItem : LayoutItem)
    (s : store * list (option ref)) (r u : ref) :
  u <> r ->
  deref (fst (compressStep previewItem s r)) u = deref (fst s) u.
Proof.
  intros Hu. destruct s as [st acc]. unfold compressStep.
  repeat case_match; simpl; by rewrite ?deref_insert_ne.
Qed.

Lemma visited_insert (previewItem : LayoutItem) (st : store) (r : ref) (row : Z) :
  Item.id (deref st r) <> Item.id previewItem ->
  (Item.y (deref st r) + Item.h (deref st r) <= Item.y previewItem ->
   row <= Item.y (deref st r) /\ 2 <= row) ->
  visited previewItem (deref st r)
    (deref (<[r := Item.withY (deref st r) row]> st) r).
Proof.
  intros Hid Hrow. destruct (decide (r < length st)%nat) as [Hr | Hr].
  - rewrite deref_insert_eq by done. by apply visited_row.
  - rewrite deref_insert_out by lia. apply visited_refl.
Qed.

Lemma compressStep_visited (previewItem : LayoutItem)
    (s : store * list (option ref)) (r : ref) :
  visited previewItem (deref (fst s) r)
    (deref (fst (compressStep previewItem s r)) r).
Proof.
  destruct s as [st acc]. unfold compressStep. simpl.
  destruct (String.eqb_spec (Item.id (deref st r)) (Item.id previewItem))
    as [Hid | Hid]; simpl; [apply visited_refl |].
  destruct (Z.ltb_spec (Item.y previewItem)
              (Item.y (deref st r) + Item.h (deref st r))) as [Hlow | Habove];
    simpl.
  - apply visited_insert; [done | lia].
  - match goal with
    | |- context [(?n <? ?y) && (0 <? ?n)] =>
        destruct (Z.ltb_spec n y); destruct (Z.ltb_spec 0 n)
    end; simpl; try apply visited_refl.
    apply visited_insert; [done | lia].
Qed.

Lemma compressLoop_visited (previewItem : LayoutItem) (rs : list ref) :
  NoDup rs ->
  forall s : store * list (option ref),
    let s' := foldl (compressStep previewItem) s rs in
    length (fst s') = length (fst s)
    /\ forall u,
         (u ∉ rs -> deref (fst s') u = deref (fst s) u)
         /\ visited previewItem (deref (fst s) u) (deref (fst s') u).
Proof.
  induction rs as [| r rs IH]; intros Hnd s; simpl.
  - split; [done |]. intros u. split; [done | apply visited_refl].
  - apply NoDup_cons in Hnd as [Hr Hnd].
    destruct (IH Hnd (compressStep previewItem s r)) as [Hlen Hall].
    split; [by rewrite Hlen, compressStep_length |].
    intros u. destruct (Hall u) as [Hout Hvis]. split.
    + intros Hu. apply not_elem_of_cons in Hu as [Hne Hu].
      by rewrite Hout, compressStep_others.
    + destruct (decide (u = r)) as [-> | Hne].
      * destruct (Hall r) as [Hout' _]. rewrite Hout' by done.
        apply compressStep_visited.
      * by rewrite compressStep_others in Hvis.
Qed.

Lemma compressItems_visited (previewItem : LayoutItem) (st : store) (r : ref) :
  length (compressItems previewItem st) = length st
  /\ visited previewItem (deref st r) (deref (compressItems previewItem st) r).
Proof.
  unfold compressItems.
  destruct (compressLoop_visited previewItem (sortAscY st (allRefs st))
              (sortAscY_NoDup st) (st, [None])) as [Hlen Hall].
  split; [exact Hlen |]. apply Hall.
Qed.

(** X6. A compaction pass changes rows only: the store keeps its
    length, and every object keeps all its fields but [y]. *)
Theorem compaction_changes_rows_only (previewItem : LayoutItem) (st : store)
    (r : ref) :
  let st' := compressItems previewItem st in
  length st' = length st
  /\ deref st' r = Item.withY (deref st r) (Item.y (deref st' r)).
Proof.
  destruct (compressItems_visited previewItem st r) as [Hlen [Hrow _]].
  by split.
Qed.

(** X7. A compaction pass leaves the object with the preview's id where
    it is. *)
Theorem compaction_skips_own_item (previewItem : LayoutItem) (st : store)
    (r : ref) :
  Item.id (deref st r) = Item.id previewItem ->
  deref (compressItems previewItem st) r = deref st r.
Proof.
  intros Hid.
  destruct (compressItems_visited previewItem st r) as [_ [_ [Hown _]]].
  by apply Hown.
Qed.

Lemma compaction_skips_own_item_witness :
  deref (compressItems (mkItem "b" 0 2 1 1) gapped) 1 = mkItem "b" 0 5 1 1.
Proof.
  apply (compaction_skips_own_item (mkItem "b" 0 2 1 1) gapped 1).
  reflexivity.
Defined.

(** X8. An object that ends at or above the preview's top row is never
    moved down by a compaction pass, and when it is moved it goes to a
    row not below 2: the pass does not bring such an object to row 0 or
    row 1. *)
Theorem compaction_above_preview (previewItem : LayoutItem) (st : store)
    (r : ref) :
  Item.y (deref st r) + Item.h (deref st r) <= Item.y previewItem ->
  let y' := Item.y (deref (compressItems previewItem st) r) in
  y' <= Item.y (deref st r) /\ (y' = Item.y (deref st r) \/ 2 <= y').
Proof.
  intros Habove.
  destruct (compressItems_visited previewItem st r) as [_ [_ [_ Hup]]].
  by apply Hup.
Qed.

Lemma compaction_above_preview_witness :
  let y' := Item.y (deref (compressItems (mkItem "p" 0 9 1 1) gapped) 1) in
  y' <= 5 /\ (y' = 5 \/ 2 <= y').
Proof.
  apply (compaction_above_preview (mkItem "p" 0 9 1 1) gapped 1).
  simpl. lia.
Defined.

(** ** Compress mode: what a sample may change *)

Lemma rowOnly_refl (v : LayoutItem) : rowOnly v v.
Proof. unfold rowOnly. by rewrite withY_same. Qed.

Lemma rowOnly_trans (a b c : LayoutItem) :
  rowOnly a b -> rowOnly b c -> rowOnly a c.
Proof.
  unfold rowOnly. destruct a, b, c. unfold Item.withY, Item.withXY. simpl.
  intros Hab Hbc. congruence.
Qed.

Lemma rowOnly_insert (st : store) (r u : ref) (row : Z) :
  rowOnly (deref st u) (deref (<[r := Item.withY (deref st r) row]> st) u).
Proof.
  destruct (decide (r = u)) as [<- | Hne].
  - destruct (decide (r < length st)%nat) as [Hr | Hr].
    + rewrite deref_insert_eq by done. unfold rowOnly. by destruct (deref st r).
    + rewrite deref_insert_out by lia. apply rowOnly_refl.
  - rewrite deref_insert_ne by done. apply rowOnly_refl.
Qed.

Lemma rowsMoved_refl (rs : list ref) (st : store) : rowsMoved rs st st.
Proof. split; [done |]. intros u. split; [done | apply rowOnly_refl]. Qed.

Lemma rowsMoved_trans (rs : list ref) (st st1 st2 : store) :
  rowsMoved rs st st1 -> rowsMoved rs st1 st2 -> rowsMoved rs st st2.
Proof.
  intros [Hlen1 H1] [Hlen2 H2]. split; [congruence |].
  intros u. destruct (H1 u) as [Hout1 Hrow1], (H2 u) as [Hout2 Hrow2]. split.
  - intros Hu. by rewrite Hout2, Hout1.
  - by eapply rowOnly_trans.
Qed.

Lemma rowsMoved_weaken (rs rs' : list ref) (st st' : store) :
  (forall u, In u rs -> In u rs') -> rowsMoved rs st st' -> rowsMoved rs' st st'.
Proof.
  intros Hsub [Hlen H]. split; [done |]. intros u.
  destruct (H u) as [Hout Hrow]. split; [| done].
  intros Hu. apply Hout. intros Hin. by apply Hu, Hsub.
Qed.

Lemma rowsMoved_insert (rs : list ref) (st : store) (r : ref) (row : Z) :
  In r rs -> rowsMoved rs st (<[r := Item.withY (deref st r) row]> st).
Proof.
  intros Hr. split; [by rewrite length_insert |]. intros u. split.
  - intros Hu. apply deref_insert_ne. by intros ->.
  - apply rowOnly_insert.
Qed.

Section RowsMovedLoop.
Variable f : store -> ref -> store.
Variable rs : list ref.
Hypothesis f_moves : forall st r, In r rs -> rowsMoved rs st (f st r).

Lemma rowsMoved_loop (l : list ref) (st : store) :
  (forall r, In r l -> In r rs) -> rowsMoved rs st (foldl f st l).
Proof.
  revert st. induction l as [| r l IH]; intros st Hl; simpl.
  - apply rowsMoved_refl.
  - eapply rowsMoved_trans.
    + apply (f_moves st r), Hl. by left.
    + apply IH. intros r' Hr'. apply Hl. by right.
Qed.
End RowsMovedLoop.

Section ProbeFrame.
Variable previewItem : LayoutItem.

Lemma shiftUp_moves (exc rs : list ref) (st : store) (r : ref) :
  In r rs -> rowsMoved rs st (shiftUp previewItem exc st r).
Proof.
  intros Hr. unfold shiftUp. destruct (negb _ && (0 <=? _)).
  - by apply rowsMoved_insert.
  - apply rowsMoved_refl.
Qed.

Lemma settleLoop_moves (exc sorted rs : list ref) (ny : Z) (s : store * bool * Z) :
  rowsMoved sorted (fst (fst s))
    (fst (fst (foldl (settleOn previewItem exc sorted ny) s rs))).
Proof.
  revert s. induction rs as [| r rs IH]; intros [[st moved] newY]; simpl.
  - apply rowsMoved_refl.
  - eapply rowsMoved_trans; [| apply IH].
    destruct (belowCenter _ _ _); simpl; [| apply rowsMoved_refl].
    apply rowsMoved_loop; [| done].
    intros st0 r0. apply shiftUp_moves.
Qed.

(** The colliders of a candidate with the preview's id do not include an
    object with that id. *)
Lemma collider_not_own (st : store) (candidate : LayoutItem) (rs : list ref)
    (u : ref) :
  Item.id candidate = Item.id previewItem ->
  Item.id (deref st u) = Item.id previewItem ->
  ~ In u (getCollisionRefs st candidate rs).
Proof.
  intros Hc Hu Hin. unfold getCollisionRefs in Hin.
  apply filter_In in Hin as [_ Hcoll]. unfold collides in Hcoll.
  rewrite Hc, Hu, String.eqb_refl in Hcoll. done.
Qed.

(** The probe changes rows only, and only of objects whose id is not the
    preview's. *)
Lemma probeRows_moves (st : store) (nx ny : Z) (k : nat) (u : ref) :
  let st' := fst (probeRows previewItem st nx ny k) in
  length st' = length st
  /\ (Item.id (deref st u) = Item.id previewItem -> deref st' u = deref st u)
  /\ rowOnly (deref st u) (deref st' u).
Proof.
  induction k as [| k IH]; simpl.
  - split; [done |]. split; [done | apply rowOnly_refl].
  - destruct (getCollisionRefs _ _ _) as [| r rs] eqn:Hcoll; [exact IH |].
    pose proof (settleLoop_moves
      (exceptId st (Item.id previewItem) (allRefs st))
      (sortDescY st (r :: rs)) (sortDescY st (r :: rs)) ny
      (st, false, Z.of_nat k)) as [Hlen Hall].
    destruct (foldl _ _ _) as [[st' moved] newY']. cbn [fst snd] in *.
    split; [done |]. destruct (Hall u) as [Hout Hrow]. split; [| done].
    intros Hu. apply Hout. intros Hin. apply sortBy_In in Hin.
    rewrite <- Hcoll in Hin. by eapply collider_not_own in Hin.
Qed.

Lemma probe_moves (st : store) (nx ny : Z) (u : ref) :
  let st' := fst (probe previewItem st nx ny) in
  length st' = length st
  /\ (Item.id (deref st u) = Item.id previewItem -> deref st' u = deref st u)
  /\ rowOnly (deref st u) (deref st' u).
Proof.
  unfold probe. destruct (ny <? 0); simpl.
  - split; [done |]. split; [done | apply rowOnly_refl].
  - apply probeRows_moves.
Qed.
End ProbeFrame.

(** The loop of [resizePreviewWithCollisionsWithCompress] over the
    colliders changes their rows only. *)
Lemma resizeShift_moves (hGap : Z) (rs : list ref) (st : store) :
  rowsMoved rs st
    (foldl (fun s r => <[r := Item.withY (deref s r) (Item.y (deref s r) + hGap)]> s)
       st rs).
Proof.
  apply rowsMoved_loop; [| done].
  intros st0 r Hr. by apply rowsMoved_insert.
Qed.

(** X9. A sample in compress mode changes nothing but rows in the
    objects other than the component's own item, and keeps the length of
    the store; this holds for the store a move sample leaves and for the
    store a resize sample leaves. *)
Theorem compress_sample_moves_rows_only
    (previewItem : LayoutItem) (st : store) (item r : ref) (nx ny nw nh : Z) :
  r <> item ->
  (let st' :=
     fst (movePreviewWithCollisionsWithCompress previewItem st item nx ny) in
   length st' = length st
   /\ deref st' r = Item.withY (deref st r) (Item.y (deref st' r)))
  /\
  (let st' := fst (resizeCompressAt previewItem st item nx ny nw nh) in
   length st' = length st
   /\ deref st' r = Item.withY (deref st r) (Item.y (deref st' r))).
Proof.
  intros Hr. split.
  - unfold movePreviewWithCollisionsWithCompress.
    pose proof (probe_moves previewItem st nx ny r) as Hprobe.
    destruct (probe previewItem st nx ny) as [st1 newY].
    simpl in Hprobe. destruct Hprobe as (Hlen & _ & Hrow).
    destruct (negb _ || negb _); simpl; [| done].
    match goal with
    | |- context [compressItems ?p st1] =>
        destruct (compressItems_visited p st1 r) as (Hlen' & Hrow' & _)
    end.
    rewrite applyPreview_length, applyPreview_other by done.
    split; [congruence |]. by eapply rowOnly_trans.
  - unfold resizeCompressAt.
    destruct (negb _ || negb _ || negb _ || negb _); simpl.
    + match goal with
      | |- context [compressItems ?p ?s] =>
          destruct (compressItems_visited p s r) as (Hlen' & Hrow' & _)
      end.
      match type of Hlen' with
      | context [foldl ?f ?s0 ?rs] =>
          destruct (resizeShift_moves (nh - Item.h previewItem) rs s0)
            as [Hlen Hall]
      end.
      destruct (Hall r) as [_ Hrow].
      rewrite applyPreview_length in Hlen.
      rewrite applyPreview_other in Hrow by done.
      split; [congruence |]. by eapply rowOnly_trans.
    + split; [done | apply rowOnly_refl].
Qed.

Lemma compress_sample_moves_rows_only_witness :
  (let st' :=
     fst (movePreviewWithCollisionsWithCompress (mkItem "a" 0 2 3 2) stairs
            0%nat 0 5) in
   length st' = length stairs
   /\ deref st' 1%nat = Item.withY (deref stairs 1%nat) (Item.y (deref st' 1%nat)))
  /\
  (let st' := fst (resizeCompressAt (mkItem "a" 0 2 3 2) stairs 0%nat 0 5 3 3) in
   length st' = length stairs
   /\ deref st' 1%nat = Item.withY (deref stairs 1%nat) (Item.y (deref st' 1%nat))).
Proof.
  apply (compress_sample_moves_rows_only (mkItem "a" 0 2 3 2) stairs 0%nat 1%nat
           0 5 3 3).
  discriminate.
Defined.

(** ** Compress mode: the component's own item *)

Lemma applied_own (st : store) (item : ref) (p : LayoutItem) :
  applied st item p ->
  deref st item
  = Item.withWH (Item.withXY (deref st item) (Item.x p) (Item.y p))
      (Item.w p) (Item.h p).
Proof.
  intros (Hx & Hy & Hw & Hh). destruct (deref st item). simpl in *.
  unfold Item.withWH, Item.withXY. simpl. congruence.
Qed.

Lemma own_applied (st : store) (item : ref) (v p : LayoutItem) :
  deref st item
  = Item.withWH (Item.withXY v (Item.x p) (Item.y p)) (Item.w p) (Item.h p) ->
  applied st item p.
Proof. intros Hown. unfold applied. by rewrite Hown. Qed.

(** The own item after a move sample in compress mode. *)
Lemma compressMove_own (previewItem : LayoutItem) (st : store) (item : ref)
    (nx ny : Z) :
  (item < length st)%nat ->
  Item.id (deref st item) = Item.id previewItem ->
  applied st item previewItem ->
  let res := movePreviewWithCollisionsWithCompress previewItem st item nx ny in
  deref (fst res) item
  = Item.withWH
      (Item.withXY (deref st item) (Item.x (snd res)) (Item.y (snd res)))
      (Item.w (snd res)) (Item.h (snd res)).
Proof.
  intros Hitem Hid Happ. unfold movePreviewWithCollisionsWithCompress.
  pose proof (probe_moves previewItem st nx ny item) as Hprobe.
  destruct (probe previewItem st nx ny) as [st1 newY].
  simpl in Hprobe. destruct Hprobe as (Hlen & Hown & _).
  specialize (Hown Hid).
  set (newY' := if (newY <? 0) || (ny =? 0) then 0 else newY).
  destruct (negb (nx =? _) || negb (newY' =? _)) eqn:Hchanged; simpl.
  - destruct (compressItems_visited (Item.withXY previewItem nx newY') st1 item)
      as (Hlen' & _ & Hskip & _).
    rewrite applyPreview_own by lia.
    rewrite Hskip by (by rewrite Hown). by rewrite Hown.
  - apply orb_false_iff in Hchanged as [Hx Hy].
    apply negb_false_iff, Z.eqb_eq in Hx, Hy. rewrite Hown, Hx, Hy.
    by apply applied_own.
Qed.

(** The own item after a resize sample in compress mode. *)
Lemma compressResize_own (previewItem : LayoutItem) (st : store) (item : ref)
    (nx ny nw nh : Z) :
  (item < length st)%nat ->
  Item.id (deref st item) = Item.id previewItem ->
  applied st item previewItem ->
  let res := resizeCompressAt previewItem st item nx ny nw nh in
  deref (fst res) item
  = Item.withWH
      (Item.withXY (deref st item) (Item.x (snd res)) (Item.y (snd res)))
      (Item.w (snd res)) (Item.h (snd res)).
Proof.
  intros Hitem Hid Happ. unfold resizeCompressAt.
  destruct (negb _ || negb _ || negb _ || negb _); simpl;
    [| by apply applied_own].
  set (p' := Item.withWH (Item.withXY previewItem nx ny) nw nh).
  set (st1 := applyPreview st item p').
  set (colls := getCollisionRefs st1 (Item.withWH p' nw 9999) (allRefs st1)).
  assert (deref st1 item
          = Item.withWH (Item.withXY (deref st item) nx ny) nw nh) as Hst1.
  { subst st1. by rewrite applyPreview_own. }
  destruct (resizeShift_moves (nh - Item.h previewItem) colls st1) as [Hlen Hall].
  destruct (Hall item) as [Hout _].
  rewrite <- Hst1, <- Hout.
  - match goal with
    | |- deref (compressItems _ ?s) _ = _ =>
        destruct (compressItems_visited p' s item) as (_ & _ & Hskip & _)
    end.
    apply Hskip. rewrite Hout, Hst1; [done |].
    apply (collider_not_own previewItem); [done |]. by rewrite Hst1.
  - apply (collider_not_own previewItem); [done |]. by rewrite Hst1.
Qed.

(** X10. In compress mode a move or resize sample leaves the preview's
    [x], [y], [w] and [h] in the component's own item and nothing else
    of it changes, provided the own item carries the preview's id and
    had the preview's geometry before the sample. *)
Theorem compress_sample_commits_preview
    (previewItem : LayoutItem) (st : store) (item : ref) (nx ny nw nh : Z) :
  (item < length st)%nat ->
  Item.id (deref st item) = Item.id previewItem ->
  applied st item previewItem ->
  (let res := movePreviewWithCollisionsWithCompress previewItem st item nx ny in
   deref (fst res) item
   = Item.withWH
       (Item.withXY (deref st item) (Item.x (snd res)) (Item.y (snd res)))
       (Item.w (snd res)) (Item.h (snd res)))
  /\
  (let res := resizeCompressAt previewItem st item nx ny nw nh in
   deref (fst res) item
   = Item.withWH
       (Item.withXY (deref st item) (Item.x (snd res)) (Item.y (snd res)))
       (Item.w (snd res)) (Item.h (snd res))).
Proof.
  intros Hitem Hid Happ. split.
  - by apply compressMove_own.
  - by apply compressResize_own.
Qed.

Lemma compress_sample_commits_preview_witness :
  deref (fst (movePreviewWithCollisionsWithCompress (mkItem "b" 0 5 1 1) gapped
                1%nat 0 1)) 1%nat
  = mkItem "b" 0 2 1 1
  /\ deref (fst (resizeCompressAt (mkItem "b" 0 5 1 1) gapped 1%nat 0 1 2 3)) 1%nat
     = mkItem "b" 0 1 2 3.
Proof.
  apply (compress_sample_commits_preview (mkItem "b" 0 5 1 1) gapped 1%nat
           0 1 2 3).
  - simpl. lia.
  - reflexivity.
  - by repeat split.
Defined.

(** X11. The preview a move sample leaves in compress mode is the old
    preview at column [nx] and at a row that is never negative; the
    row is 0 whenever the sample asks for row 0 or for a row above the
    grid. *)
Theorem compress_move_preview
    (previewItem : LayoutItem) (st : store) (item : ref) (nx ny : Z) :
  let p' := snd (movePreviewWithCollisionsWithCompress previewItem st item nx ny) in
  p' = Item.withXY previewItem nx (Item.y p')
  /\ 0 <= Item.y p'
  /\ (Item.y p' = 0 \/ 0 < ny).
Proof.
  unfold movePreviewWithCollisionsWithCompress, probe.
  destruct (Z.ltb_spec ny 0) as [Hneg | Hpos].
  - assert ((ny <? 0) = true) as Hlt by (by apply Z.ltb_lt).
    simpl. rewrite ?Hlt. simpl. destruct (negb _ || negb _); simpl; repeat split; (lia || auto).
  - destruct (probeRows previewItem st nx ny _) as [st1 newY].
    destruct (Z.ltb_spec newY 0), (Z.eqb_spec ny 0); simpl;
      destruct (negb _ || negb _); simpl; repeat split; (lia || auto).
Qed.

Section ProbeLanding.
Variable previewItem : LayoutItem.

(** The first row with colliders has a single one, and it passes the
    below-centre test: the probe stops there with the collider's bottom
    row, after trying to shift the collider up. *)
Lemma probeRows_lands (st : store) (nx ny : Z) (k n : nat) (r : ref) :
  (k < n)%nat ->
  (forall j, (k < j < n)%nat ->
     getCollisionRefs st (Item.withXY previewItem nx (Z.of_nat j)) (allRefs st) = []) ->
  getCollisionRefs st (Item.withXY previewItem nx (Z.of_nat k)) (allRefs st) = [r] ->
  belowCenter previewItem ny (deref st r) = true ->
  probeRows previewItem st nx ny n
  = (shiftUp previewItem (exceptId st (Item.id previewItem) (allRefs st)) st r,
     bottom (deref st r)).
Proof.
  intros Hk Hfree Hcoll Hpass.
  induction n as [| n IH]; [lia |]. simpl.
  destruct (decide (k = n)) as [-> | Hne].
  - rewrite Hcoll. simpl. by rewrite Hpass.
  - rewrite (Hfree n) by lia. apply IH; [lia |].
    intros j Hj. apply Hfree. lia.
Qed.
End ProbeLanding.

(** X12. In compress mode, when the first row at which the probe meets
    colliders has a single collider and that collider passes the
    below-centre test, the preview lands on the row right below the
    collider as it was before the upward shift (row 0 when that row is
    negative or when row 0 was asked for). *)
Theorem compress_probe_lands_below_collider
    (previewItem : LayoutItem) (st : store) (item : ref) (nx ny k : Z) (r : ref) :
  0 <= k <= ny ->
  (forall row, k < row <= ny -> collidersAt previewItem st nx row = []) ->
  collidersAt previewItem st nx k = [r] ->
  belowCenter previewItem ny (deref st r) = true ->
  Item.y (snd (movePreviewWithCollisionsWithCompress previewItem st item nx ny))
  = if (bottom (deref st r) <? 0) || (ny =? 0) then 0 else bottom (deref st r).
Proof.
  intros Hk Hfree Hcoll Hpass.
  unfold movePreviewWithCollisionsWithCompress, probe.
  destruct (ny <? 0) eqn:Hneg; [apply Z.ltb_lt in Hneg; lia |].
  rewrite (probeRows_lands previewItem st nx ny (Z.to_nat k) _ r).
  - by destruct (negb _ || negb _).
  - lia.
  - intros j Hj. apply Hfree. lia.
  - by rewrite Z2Nat.id by lia.
  - exact Hpass.
Qed.

Lemma compress_probe_lands_below_collider_witness :
  Item.y (snd (movePreviewWithCollisionsWithCompress (mkItem "b" 0 5 1 1) gapped
                 1%nat 0 1)) = 2.
Proof.
  apply (compress_probe_lands_below_collider (mkItem "b" 0 5 1 1) gapped 1%nat
           0 1 1 0%nat).
  - lia.
  - intros row Hrow. lia.
  - reflexivity.
  - reflexivity.
Defined.

(** ** Pointer-up after a sample *)

(** Writing a preview the own item already agrees with changes
    nothing. *)
Lemma applyPreview_applied (st : store) (item : ref) (p : LayoutItem) :
  applied st item p -> applyPreview st item p = st.
Proof.
  intros Happ. unfold applyPreview. rewrite <- applied_own by done.
  destruct (decide (item < length st)%nat) as [Hr | Hr].
  - apply list_insert_id. by apply list_lookup_lookup_total_lt.
  - apply list_insert_ge. lia.
Qed.

(** After a sample in push or compress mode the own item agrees with
    the preview. *)
Lemma movePreviewWithCollisions_applied (g : GridParams.t) (c : Comp.t)
    (nx ny : Z) :
  GridParams.collision g <> CollisionNone ->
  (Comp.item c < length (GridParams.items g))%nat ->
  Item.id (deref (GridParams.items g) (Comp.item c)) = Item.id (Comp.previewItem c) ->
  applied (GridParams.items g) (Comp.item c) (Comp.previewItem c) ->
  let s' := movePreviewWithCollisions g c nx ny in
  Comp.item (snd s') = Comp.item c
  /\ applied (GridParams.items (fst s')) (Comp.item c) (Comp.previewItem (snd s')).
Proof.
  intros Hmode Hitem Hid Happ. unfold movePreviewWithCollisions, commit.
  destruct (GridParams.collision g); [done | |];
    cbn [fst snd Comp.item Comp.previewItem Comp.withPreviewItem
         GridParams.items GridParams.withItems]; (split; [done |]).
  - destruct (handleCollisions_applies (GridParams.maxCols g) (GridParams.maxRows g)
                (Comp.previewItem c) (Attrs.mk (Some nx) (Some ny) None None)
                (GridParams.items g) (Comp.item c) Hitem)
      as (Hp & Hx & Hy & Hw & Hh & _).
    unfold movePreviewWithCollisionsWithPush. rewrite Hp. by repeat split.
  - eapply own_applied. by apply compressMove_own.
Qed.

Lemma resizePreviewWithCollisions_applied
    (snapM : Z -> Z -> LayoutItem -> GridParams.t -> Z * Z)
    (g : GridParams.t) (c : Comp.t) (nw nh : Z) :
  GridParams.collision g <> CollisionNone ->
  (Comp.item c < length (GridParams.items g))%nat ->
  Item.id (deref (GridParams.items g) (Comp.item c)) = Item.id (Comp.previewItem c) ->
  applied (GridParams.items g) (Comp.item c) (Comp.previewItem c) ->
  let s' := resizePreviewWithCollisions snapM g c nw nh in
  Comp.item (snd s') = Comp.item c
  /\ applied (GridParams.items (fst s')) (Comp.item c) (Comp.previewItem (snd s')).
Proof.
  intros Hmode Hitem Hid Happ. unfold resizePreviewWithCollisions, commit.
  destruct (snapM _ _ _ _) as [nx ny].
  destruct (GridParams.collision g); [done | |];
    cbn [fst snd Comp.item Comp.previewItem Comp.withPreviewItem
         GridParams.items GridParams.withItems]; (split; [done |]).
  - destruct (handleCollisions_applies (GridParams.maxCols g) (GridParams.maxRows g)
                (Comp.previewItem c)
                (Attrs.mk (Some nx) (Some ny) (Some nw) (Some nh))
                (GridParams.items g) (Comp.item c) Hitem)
      as (Hp & Hx & Hy & Hw & Hh & _).
    unfold resizePushAt. rewrite Hp. by repeat split.
  - eapply own_applied. by apply compressResize_own.
Qed.

(** X13. In push and compress mode the layout is committed sample by
    sample: the pointer-up that follows a move or resize sample leaves
    the store as the sample left it.  (The own item is assumed to carry
    the preview's id and geometry when the sample starts.) *)
Theorem pointer_up_keeps_sampled_layout
    (snapM snapR : Z -> Z -> LayoutItem -> GridParams.t -> Z * Z)
    (g : GridParams.t) (c : Comp.t) (event up : PointerEvent.t) (sz : ItemSize.t) :
  GridParams.itemSize g = Some sz ->
  GridParams.collision g <> CollisionNone ->
  (Comp.item c < length (GridParams.items g))%nat ->
  Item.id (deref (GridParams.items g) (Comp.item c)) = Item.id (Comp.previewItem c) ->
  applied (GridParams.items g) (Comp.item c) (Comp.previewItem c) ->
  (exists s',
     move snapM (g, c) event = Done s'
     /\ GridParams.items (fst (moveEnd s' up)) = GridParams.items (fst s'))
  /\
  (exists s',
     resize snapM snapR (g, c) event = Done s'
     /\ GridParams.items (fst (resizeEnd s' up)) = GridParams.items (fst s')).
Proof.
  intros Hsz Hmode Hitem Hid Happ. split.
  - unfold move. rewrite Hsz.
    destruct (movePoint g c event) as [l t]. simpl.
    destruct (snapM l t (Comp.previewItem c) g) as [nx ny].
    set (c1 := Comp.withRect c l t (Comp.width c) (Comp.height c)).
    destruct (movePreviewWithCollisions_applied g c1 nx ny Hmode Hitem Hid Happ)
      as [Hit Happ'].
    destruct (GridParams.collision g) eqn:Hm; [done | |];
      (eexists; split; [reflexivity |]);
      destruct (movePreviewWithCollisions g c1 nx ny) as [g' c'];
      unfold moveEnd; destruct (negb _); try done;
      simpl in *; rewrite Hit; by apply applyPreview_applied.
  - unfold resize. rewrite Hsz.
    destruct (resizeRect g c event) as [[[l t] wd] ht]. simpl.
    set (c1 := Comp.withRect c l t wd ht).
    destruct (resizeSnap snapM snapR g c1) as [[[nx ny] nw] nh].
    destruct (resizePreviewWithCollisions_applied snapM g c1 nw nh
                Hmode Hitem Hid Happ) as [Hit Happ'].
    destruct (GridParams.collision g) eqn:Hm; [done | |];
      (eexists; split; [reflexivity |]);
      destruct (resizePreviewWithCollisions snapM g c1 nw nh) as [g' c'];
      unfold resizeEnd; destruct (negb _); try done;
      simpl in *; rewrite Hit; by apply applyPreview_applied.
Qed.

Lemma pointer_up_keeps_sampled_layout_witness :
  (exists s',
     move snapOnMove (draggingA CollisionPush) (pointerAt 160 50) = Done s'
     /\ GridParams.items (fst (moveEnd s' (pointerAt 160 50)))
        = GridParams.items (fst s'))
  /\
  (exists s',
     resize snapOnMove snapOnResize (draggingA CollisionPush) (pointerAt 160 50)
     = Done s'
     /\ GridParams.items (fst (resizeEnd s' (pointerAt 160 50)))
        = GridParams.items (fst s')).
Proof.
  apply (pointer_up_keeps_sampled_layout snapOnMove snapOnResize
           (fst (draggingA CollisionPush)) (snd (draggingA CollisionPush))
           (pointerAt 160 50) (pointerAt 160 50) (ItemSize.mk 100 100)).
  - reflexivity.
  - discriminate.
  - simpl. lia.
  - reflexivity.
  - by repeat split.
Defined.

(** ** Pointer-down, then a sample *)

(** X14. Without bounds, the item follows the pointer: after
    [moveStart], a move sample puts [left], [top] at their values at
    pointer-down plus the distance the pointer has travelled since;
    [width] and [height] stay. *)
Theorem move_follows_pointer
    (snapM : Z -> Z -> LayoutItem -> GridParams.t -> Z * Z)
    (g : GridParams.t) (c : Comp.t) (down event : PointerEvent.t) (sz : ItemSize.t) :
  GridParams.itemSize g = Some sz ->
  GridParams.bounds g = false ->
  PointerEvent.button down = 0 ->
  exists g' c',
    move snapM (moveStart (g, c) down) event = Done (g', c')
    /\ Comp.left c'
       = Comp.left c + (PointerEvent.pageX event - PointerEvent.pageX down)
    /\ Comp.top c'
       = Comp.top c + (PointerEvent.pageY event - PointerEvent.pageY down)
    /\ Comp.width c' = Comp.width c
    /\ Comp.height c' = Comp.height c.
Proof.
  intros Hsz Hb Hbtn. unfold moveStart. rewrite Hbtn.
  change (negb (0 =? 0)) with false. cbv iota.
  match goal with
  | |- context [move snapM (g, ?c0) event] =>
      destruct (move_rect snapM g c0 event sz Hsz)
        as (g' & c' & Hmove & Hl & Ht & Hw & Hh)
  end.
  exists g', c'. split; [exact Hmove |].
  rewrite Hl, Ht, Hw, Hh. unfold movePoint, clampMove. rewrite Hb. simpl.
  repeat split; lia.
Qed.

Lemma move_follows_pointer_witness :
  exists g' c',
    move snapOnMove (moveStart (draggingA CollisionPush) (pointerAt 50 50))
      (pointerAt 160 70) = Done (g', c')
    /\ Comp.left c' = 0 + (160 - 50)
    /\ Comp.top c' = 0 + (70 - 50)
    /\ Comp.width c' = 100
    /\ Comp.height c' = 100.
Proof.
  apply (move_follows_pointer snapOnMove (fst (draggingA CollisionPush))
           (snd (draggingA CollisionPush)) (pointerAt 50 50) (pointerAt 160 70)
           (ItemSize.mk 100 100));
    reflexivity.
Defined.

(** ** What no sample changes *)

Lemma keepsIdentity_refl (v : LayoutItem) : keepsIdentity v v.
Proof. by repeat split. Qed.

Lemma keepsIdentity_trans (a b c : LayoutItem) :
  keepsIdentity a b -> keepsIdentity b c -> keepsIdentity a c.
Proof.
  unfold keepsIdentity. intros (? & ? & ? & ? & ?) (? & ? & ? & ? & ?).
  repeat split; congruence.
Qed.

Lemma rowOnly_keepsIdentity (a b : LayoutItem) :
  rowOnly a b -> keepsIdentity a b.
Proof. unfold rowOnly. intros ->. by repeat split. Qed.

Lemma sameItems_refl (st : store) : sameItems st st.
Proof. split; [done |]. intros r. apply keepsIdentity_refl. Qed.

Lemma sameItems_trans (st st1 st2 : store) :
  sameItems st st1 -> sameItems st1 st2 -> sameItems st st2.
Proof.
  intros [Hlen1 H1] [Hlen2 H2]. split; [congruence |].
  intros r. by eapply keepsIdentity_trans.
Qed.

Lemma sameItems_insert (st : store) (r : ref) (v : LayoutItem) :
  keepsIdentity (deref st r) v -> sameItems st (<[r := v]> st).
Proof.
  intros Hv. split; [by rewrite length_insert |]. intros u.
  destruct (decide (r = u)) as [<- | Hne].
  - destruct (decide (r < length st)%nat) as [Hr | Hr].
    + by rewrite deref_insert_eq.
    + rewrite deref_insert_out by lia. apply keepsIdentity_refl.
  - rewrite deref_insert_ne by done. apply keepsIdentity_refl.
Qed.

Lemma rowsMoved_sameItems (rs : list ref) (st st' : store) :
  rowsMoved rs st st' -> sameItems st st'.
Proof.
  intros [Hlen Hall]. split; [done |]. intros r.
  apply rowOnly_keepsIdentity, Hall.
Qed.

Lemma applyPreview_sameItems (st : store) (item : ref) (p : LayoutItem) :
  sameItems st (applyPreview st item p).
Proof. unfold applyPreview. apply sameItems_insert. by repeat split. Qed.

Lemma compressItems_sameItems (previewItem : LayoutItem) (st : store) :
  sameItems st (compressItems previewItem st).
Proof.
  split; [apply (compressItems_visited previewItem st 0%nat) |].
  intros r. apply rowOnly_keepsIdentity.
  apply (compressItems_visited previewItem st r).
Qed.

Lemma pushLoop_sameItems (maxCols maxRows : option Z) (previewItem : LayoutItem)
    (attrs : Attrs.t) (cs : list ref) (st : store) :
  sameItems st (foldl (pushCollItem maxCols maxRows previewItem attrs) st cs).
Proof.
  revert st. induction cs as [| c cs IH]; intros st; simpl.
  - apply sameItems_refl.
  - eapply sameItems_trans; [| apply IH].
    unfold pushCollItem, updateCollItemPositionWithPush.
    destruct (getAvailablePosition _ _ _ _) as [[nx ny] |].
    + apply sameItems_insert. by repeat split.
    + apply sameItems_refl.
Qed.

Lemma push_sameItems (maxCols maxRows : option Z) (previewItem : LayoutItem)
    (attrs : Attrs.t) (st : store) (item : ref) :
  sameItems st
    (fst (handleCollisionsForPreviewItemWithPush maxCols maxRows previewItem
            attrs st item)).
Proof.
  unfold handleCollisionsForPreviewItemWithPush. simpl.
  eapply sameItems_trans; [apply pushLoop_sameItems | apply applyPreview_sameItems].
Qed.

Lemma compressMove_sameItems (previewItem : LayoutItem) (st : store) (item : ref)
    (nx ny : Z) :
  sameItems st
    (fst (movePreviewWithCollisionsWithCompress previewItem st item nx ny)).
Proof.
  unfold movePreviewWithCollisionsWithCompress.
  assert (sameItems st (fst (probe previewItem st nx ny))) as Hprobe.
  { split; [apply (probe_moves previewItem st nx ny 0%nat) |].
    intros r. apply rowOnly_keepsIdentity.
    apply (probe_moves previewItem st nx ny r). }
  destruct (probe previewItem st nx ny) as [st1 newY]. simpl in Hprobe.
  destruct (negb _ || negb _); simpl; [| done].
  eapply sameItems_trans; [exact Hprobe |].
  eapply sameItems_trans; [apply compressItems_sameItems |].
  apply applyPreview_sameItems.
Qed.

Lemma compressResize_sameItems (previewItem : LayoutItem) (st : store)
    (item : ref) (nx ny nw nh : Z) :
  sameItems st (fst (resizeCompressAt previewItem st item nx ny nw nh)).
Proof.
  unfold resizeCompressAt.
  destruct (negb _ || negb _ || negb _ || negb _); simpl;
    [| apply sameItems_refl].
  eapply sameItems_trans; [apply applyPreview_sameItems |].
  eapply sameItems_trans; [| apply compressItems_sameItems].
  eapply rowsMoved_sameItems. apply resizeShift_moves.
Qed.

(** X15. No sample adds, removes or renames an item: whatever the
    collision mode, after a move or resize sample the store has the
    length it had, and every object has the [id], [min], [max],
    [movable] and [resizable] it had. *)
Theorem sample_keeps_items
    (snapM snapR : Z -> Z -> LayoutItem -> GridParams.t -> Z * Z)
    (g : GridParams.t) (c : Comp.t) (event : PointerEvent.t) (sz : ItemSize.t) :
  GridParams.itemSize g = Some sz ->
  (exists g' c',
     move snapM (g, c) event = Done (g', c')
     /\ sameItems (GridParams.items g) (GridParams.items g'))
  /\
  (exists g' c',
     resize snapM snapR (g, c) event = Done (g', c')
     /\ sameItems (GridParams.items g) (GridParams.items g')).
Proof.
  intros Hsz. split.
  - unfold move. rewrite Hsz.
    destruct (movePoint g c event) as [l t]. simpl.
    destruct (snapM l t (Comp.previewItem c) g) as [nx ny].
    destruct (GridParams.collision g) eqn:Hmode.
    + destruct (negb _); eexists _, _; (split; [reflexivity |]);
        apply sameItems_refl.
    + unfold movePreviewWithCollisions, commit. rewrite Hmode.
      eexists _, _. split; [reflexivity |]. apply push_sameItems.
    + unfold movePreviewWithCollisions, commit. rewrite Hmode.
      eexists _, _. split; [reflexivity |]. apply compressMove_sameItems.
  - unfold resize. rewrite Hsz.
    destruct (resizeRect g c event) as [[[l t] wd] ht]. simpl.
    destruct (resizeSnap _ _ _ _) as [[[nx0 ny0] nw] nh].
    destruct (GridParams.collision g) eqn:Hmode.
    + destruct (negb _); eexists _, _; (split; [reflexivity |]);
        apply sameItems_refl.
    + unfold resizePreviewWithCollisions, commit. simpl.
      destruct (snapM l t (Comp.previewItem c) g) as [nx ny]. rewrite Hmode.
      eexists _, _. split; [reflexivity |]. apply push_sameItems.
    + unfold resizePreviewWithCollisions, commit. simpl.
      destruct (snapM l t (Comp.previewItem c) g) as [nx ny]. rewrite Hmode.
      eexists _, _. split; [reflexivity |]. apply compressResize_sameItems.
Qed.

Lemma sample_keeps_items_witness :
  (exists g' c',
     move snapOnMove (draggingA CollisionCompress) (pointerAt 160 50)
     = Done (g', c')
     /\ sameItems sideBySide (GridParams.items g'))
  /\
  (exists g' c',
     resize snapOnMove snapOnResize (draggingA CollisionCompress)
       (pointerAt 160 50) = Done (g', c')
     /\ sameItems sideBySide (GridParams.items g')).
Proof.
  exact (sample_keeps_items snapOnMove snapOnResize
           (fst (draggingA CollisionCompress)) (snd (draggingA CollisionCompress))
           (pointerAt 160 50) (ItemSize.mk 100 100) eq_refl).
Defined.

(** ** Pointer-down, then a resize sample *)

Lemma resizeByDirection_still (c : Comp.t) :
  resizeByDirection c 0 0
  = (Point.left (Comp.initialPosition c), Point.top (Comp.initialPosition c),
     ItemSize.width (Comp.initialSize c), ItemSize.height (Comp.initialSize c)).
Proof.
  unfold resizeByDirection. repeat case_match; repeat f_equal; lia.
Qed.

(** X16. Without bounds, a resize sample taken at the pointer-down
    position leaves the pixel rectangle as [resizeStart] found it,
    whatever the handle, provided the rectangle is within [minSize] and
    [maxSize]. *)
Theorem resize_at_start_keeps_rectangle
    (snapM snapR : Z -> Z -> LayoutItem -> GridParams.t -> Z * Z)
    (g : GridParams.t) (c : Comp.t) (down event : PointerEvent.t) (sz : ItemSize.t) :
  GridParams.itemSize g = Some sz ->
  GridParams.bounds g = false ->
  PointerEvent.button down = 0 ->
  PointerEvent.pageX event = PointerEvent.pageX down ->
  PointerEvent.pageY event = PointerEvent.pageY down ->
  (forall m, Comp.minSize c = Some m ->
     ItemSize.width m <= Comp.width c /\ ItemSize.height m <= Comp.height c) ->
  (forall m, Comp.maxSize c = Some m ->
     Comp.width c <= ItemSize.width m /\ Comp.height c <= ItemSize.height m) ->
  exists g' c',
    resize snapM snapR (resizeStart (g, c) down) event = Done (g', c')
    /\ Comp.left c' = Comp.left c
    /\ Comp.top c' = Comp.top c
    /\ Comp.width c' = Comp.width c
    /\ Comp.height c' = Comp.height c.
Proof.
  intros Hsz Hb Hbtn Hx Hy Hmin Hmax. unfold resizeStart. rewrite Hbtn.
  change (negb (0 =? 0)) with false. cbv iota.
  match goal with
  | |- context [resize snapM snapR (g, ?c0) event] =>
      destruct (resize_rect snapM snapR g c0 event sz Hsz)
        as (g' & c' & Hres & Hrect);
      rewrite (resizeRect_unbounded g c0 event Hb) in Hrect
  end.
  exists g', c'. split; [exact Hres |].
  simpl in Hrect. rewrite Hx, Hy, !Z.sub_diag in Hrect.
  rewrite resizeByDirection_still in Hrect. simpl in Hrect.
  unfold applyMinSize in Hrect. simpl in Hrect.
  destruct (Comp.minSize c) as [mn |] eqn:Hmn.
  - destruct (Hmin mn eq_refl) as [Hmw Hmh].
    assert ((Comp.width c <? ItemSize.width mn) = false) as Hw1
      by (apply Z.ltb_ge; lia).
    assert ((Comp.height c <? ItemSize.height mn) = false) as Hh1
      by (apply Z.ltb_ge; lia).
    rewrite Hw1, Hh1 in Hrect. unfold applyMaxSize in Hrect. simpl in Hrect.
    destruct (Comp.maxSize c) as [mx |] eqn:Hmx.
    + destruct (Hmax mx eq_refl) as [Hxw Hxh].
      assert ((ItemSize.width mx <? Comp.width c) = false) as Hw2
        by (apply Z.ltb_ge; lia).
      assert ((ItemSize.height mx <? Comp.height c) = false) as Hh2
        by (apply Z.ltb_ge; lia).
      rewrite Hw2, Hh2 in Hrect. by injection Hrect.
    + by injection Hrect.
  - unfold applyMaxSize in Hrect. simpl in Hrect.
    destruct (Comp.maxSize c) as [mx |] eqn:Hmx.
    + destruct (Hmax mx eq_refl) as [Hxw Hxh].
      assert ((ItemSize.width mx <? Comp.width c) = false) as Hw2
        by (apply Z.ltb_ge; lia).
      assert ((ItemSize.height mx <? Comp.height c) = false) as Hh2
        by (apply Z.ltb_ge; lia).
      rewrite Hw2, Hh2 in Hrect. by injection Hrect.
    + by injection Hrect.
Qed.

Lemma resize_at_start_keeps_rectangle_witness :
  exists g' c',
    resize snapOnMove snapOnResize resizingNW (pointerAt 120 10) = Done (g', c')
    /\ Comp.left c' = 110
    /\ Comp.top c' = 0
    /\ Comp.width c' = 100
    /\ Comp.height c' = 100.
Proof.
  apply (resize_at_start_keeps_rectangle snapOnMove snapOnResize
           (mkGrid sideBySide CollisionNone None None)
           (mkComp 1 (mkItem "b" 1 0 1 1))
           (PointerEvent.mk 120 10 0 (Some "nw"%string)) (pointerAt 120 10)
           (ItemSize.mk 100 100)).
  - reflexivity.
  - reflexivity.
  - reflexivity.
  - reflexivity.
  - reflexivity.
  - intros m [= <-]. simpl. lia.
  - intros m Hm. discriminate Hm.
Defined.

(** ** The grid rectangle of a resize sample *)

(** X17. In grid units the edge opposite to the handle stays where it
    was when the resize started: with a handle whose name contains [w]
    the sample asks for [x + w = originalGridRight], and with one whose
    name contains [n] for [y + h = originalGridBottom], as long as the
    width (height) this leaves is at least 1, at least [min] and at
    most [max]. *)
Theorem resize_snap_keeps_far_edge
    (snapM snapR : Z -> Z -> LayoutItem -> GridParams.t -> Z * Z)
    (g : GridParams.t) (c : Comp.t) :
  let r := resizeSnap snapM snapR g c in
  let nx := fst (fst (fst r)) in
  let ny := snd (fst (fst r)) in
  let nw := snd (fst r) in
  let nh := snd r in
  (includes (Comp.resizeDirection c) "w" = true ->
   Z.max 1 (Size.w (Comp.min c)) <= Comp.originalGridRight c - nx ->
   (forall mx, Comp.max c = Some mx ->
      Comp.originalGridRight c - nx <= Size.w mx) ->
   nx + nw = Comp.originalGridRight c)
  /\
  (includes (Comp.resizeDirection c) "n" = true ->
   Z.max 1 (Size.h (Comp.min c)) <= Comp.originalGridBottom c - ny ->
   (forall mx, Comp.max c = Some mx ->
      Comp.originalGridBottom c - ny <= Size.h mx) ->
   ny + nh = Comp.originalGridBottom c).
Proof.
  unfold resizeSnap.
  destruct (snapR _ _ _ _) as [sw sh].
  destruct (if includes _ "w" || includes _ "n" then _ else _) as [nx ny].
  destruct (Comp.max c) as [mx |] eqn:Hmax; simpl; split;
    intros Hdir Hlow Hhigh; rewrite Hdir;
    try (specialize (Hhigh mx eq_refl)); lia.
Qed.

Lemma resize_snap_keeps_far_edge_witness :
  let r := resizeSnap snapOnMove snapOnResize (fst resizingNW) (snd resizingNW) in
  fst (fst (fst r)) + snd (fst r) = 2 /\ snd (fst (fst r)) + snd r = 1.
Proof.
  split.
  - apply (proj1 (resize_snap_keeps_far_edge snapOnMove snapOnResize
                    (fst resizingNW) (snd resizingNW))).
    + reflexivity.
    + vm_compute. discriminate.
    + intros mx Hmx. discriminate Hmx.
  - apply (proj2 (resize_snap_keeps_far_edge snapOnMove snapOnResize
                    (fst resizingNW) (snd resizingNW))).
    + reflexivity.
    + vm_compute. discriminate.
    + intros mx Hmx. discriminate Hmx.
Defined.
